(** * GloGNN small-scale pipeline ([glognn/small-scale/main.py]) and the
      dataset splits of JacobiConv ([JacobiConv/datasets.py])

    A shallow embedding of the [MLP_NORM] layer (normalisation step,
    propagation strategies, forward pass), of the [GraphConvolution] layer
    and the [GCN] model, of the metrics and of the pieces of the graph
    store that are plain computations (row normalisation, edge list,
    one-hot labels, node indices), of the training loop with early
    stopping and best-parameter checkpointing, and of the split masks of
    [JacobiConv/datasets.py], together with the properties the
    specification states about them and further properties of the code.

    Numbers.  The tensors of the model are embedded with the IEEE 754
    value classes the code relies on (finite values, the two infinities and
    NaN: a tensor divided by zero yields an infinity instead of raising),
    rounding and overflow abstracted away: a finite value is an exact
    rational, and zero is unsigned.  The properties stated over them are
    about the structure of the computation (which products and sums are
    formed, in which order, what is indexed, where NaN spreads), not about
    identities of exact arithmetic.  Row normalisation, whose contract is
    numeric, is embedded over IEEE 754 binary64 itself, with the primitive
    floating-point numbers of the prover. *)

From Stdlib Require Import PrimFloat FloatOps FloatAxioms QArith Qcanon Lqa.
From stdpp Require Import numbers list option gmap strings sorting.

Local Open Scope Qc_scope.

(** ** Extended rationals *)

Inductive num : Type :=
  | Fin (q : Qc)
  | PInf
  | NInf
  | NaN.

#[global] Instance num_eq_dec : EqDecision num.
Proof. solve_decision. Defined.

#[global] Instance num_inhabited : Inhabited num := populate (Fin 0).

Definition is_finite (x : num) : Prop :=
  match x with Fin _ => True | _ => False end.

#[global] Instance is_finite_dec x : Decision (is_finite x).
Proof. destruct x; simpl; apply _. Defined.

(** The product of the finite value [q] with an infinity whose sign is
    positive ([pos = true]) or negative: [0 * inf] is NaN. *)
Definition signed_inf (q : Qc) (pos : bool) : num :=
  if decide (q = 0) then NaN
  else if decide (0 < q) then (if pos then PInf else NInf)
  else (if pos then NInf else PInf).

Definition nopp (x : num) : num :=
  match x with
  | Fin q => Fin (- q)
  | PInf => NInf
  | NInf => PInf
  | NaN => NaN
  end.

Definition nadd (x y : num) : num :=
  match x, y with
  | Fin a, Fin b => Fin (a + b)
  | NaN, _ | _, NaN => NaN
  | PInf, NInf | NInf, PInf => NaN
  | PInf, _ | _, PInf => PInf
  | NInf, _ | _, NInf => NInf
  end.

Definition nsub (x y : num) : num := nadd x (nopp y).

Definition nmul (x y : num) : num :=
  match x, y with
  | Fin a, Fin b => Fin (a * b)
  | NaN, _ | _, NaN => NaN
  | Fin a, PInf | PInf, Fin a => signed_inf a true
  | Fin a, NInf | NInf, Fin a => signed_inf a false
  | PInf, PInf | NInf, NInf => PInf
  | PInf, NInf | NInf, PInf => NInf
  end.

Definition ndiv (x y : num) : num :=
  match x, y with
  | NaN, _ | _, NaN => NaN
  | Fin a, Fin b =>
      if decide (b = 0) then signed_inf a true else Fin (a / b)
  | Fin _, (PInf | NInf) => Fin 0
  | PInf, Fin b => if decide (b < 0) then NInf else PInf
  | NInf, Fin b => if decide (b < 0) then PInf else NInf
  | (PInf | NInf), (PInf | NInf) => NaN
  end.

(** [torch.relu] on one entry: [max(x, 0)], NaN is kept. *)
Definition nrelu (x : num) : num :=
  match x with
  | Fin q => if decide (0 < q) then Fin q else Fin 0
  | PInf => PInf
  | NInf => Fin 0
  | NaN => NaN
  end.

(** ** Dense matrices, row major *)

Abbreviation vec := (list num).
Abbreviation matrix := (list (list num)).

Definition shape (n c : nat) (M : matrix) : Prop :=
  length M = n ∧ Forall (λ r, length r = c) M.

Definition vfinite (v : vec) : Prop := Forall is_finite v.
Definition mfinite (M : matrix) : Prop := Forall vfinite M.

(** [torch.eye(n)] *)
Definition eye (n : nat) : matrix :=
  (λ i, (λ j, if decide (i = j) then Fin 1 else Fin 0) <$> seq 0 n) <$> seq 0 n.

Definition ncols (M : matrix) : nat :=
  match M with [] => 0%nat | r :: _ => length r end.

Definition column (j : nat) (M : matrix) : vec := (λ r, r !!! j) <$> M.

(** [torch.transpose(M, 0, 1)] and [M.t()] *)
Definition transpose (M : matrix) : matrix :=
  (λ j, column j M) <$> seq 0 (ncols M).

Definition dot (u v : vec) : num := foldl nadd (Fin 0) (zip_with nmul u v).

(** [torch.mm(A, B)]; [torch.spmm(A, B)] is the same product with a sparse
    left operand. *)
Definition mm (A B : matrix) : matrix :=
  (λ r, (λ c, dot r c) <$> transpose B) <$> A.

Definition spmm (A B : matrix) : matrix := mm A B.

(** Element-wise sum and difference of two tensors of one shape. *)
Definition madd (A B : matrix) : matrix := zip_with (zip_with nadd) A B.
Definition msub (A B : matrix) : matrix := zip_with (zip_with nsub) A B.

(** [c * M] and [M * c] for a zero-dimensional or one-element tensor [c]. *)
Definition mscale (c : num) (M : matrix) : matrix := (λ r : vec, nmul c <$> r) <$> M.
Definition mscale_r (M : matrix) (c : num) : matrix := (λ r : vec, (λ v, nmul v c) <$> r) <$> M.

(** [M * d.t()] for a column [d] stored as the list of its entries: entry
    [(i, j)] is multiplied by [d[j]] (broadcast over the rows). *)
Definition mul_cols (M : matrix) (d : vec) : matrix :=
  (λ r, zip_with nmul r d) <$> M.

(** [d * M] for a column [d] (shape [(n, 1)]): row [i] is multiplied by
    [d[i]] (broadcast over the columns). *)
Definition mul_rows (d : vec) (M : matrix) : matrix :=
  zip_with (λ c r, nmul c <$> r) d M.

Definition mrelu (M : matrix) : matrix := (λ r : vec, nrelu <$> r) <$> M.

(** A Python [for] loop whose body may raise: the loop state is threaded
    through the indices in order and the first failure ends the loop. *)
Fixpoint for_each {S : Type} (body : nat → S → option S)
    (idx : list nat) (s : S) : option S :=
  match idx with
  | [] => Some s
  | i :: idx' => s' ← body i s; for_each body idx' s'
  end.

(** ** The [MLP_NORM] module *)

(** [nn.Linear]: [y = x W^T + b], [W] of shape [(out, in)]. *)
Record Linear : Type := mkLinear {
  weight : matrix;
  bias : vec;
}.

Definition linear (l : Linear) (x : matrix) : matrix :=
  (λ r, zip_with nadd r (bias l)) <$> mm x (transpose (weight l)).

(** The attributes [__init__] stores.  [orders_weight] has shape
    [(orders, 1)] and [diag_weight] shape [(nclass, 1)]; both columns are
    kept as the list of their entries. *)
Record MLP_NORM : Type := mkMLP_NORM {
  fc1 : Linear;
  fc2 : Linear;
  fc3 : Linear;
  nclass : nat;
  dropout : num;
  alpha : num;
  beta : num;
  gamma : num;
  delta : num;
  norm_layers : nat;
  orders : nat;
  class_eye : matrix;
  nodes_eye : matrix;
  orders_weight : vec;
  orders_weight_matrix : matrix;
  orders_weight_matrix2 : matrix;
  diag_weight : vec;
  norm_func_id : Z;
  orders_func_id : Z;
}.

(** [MLP_NORM.__init__]: the three linear layers and the two matrices of
    strategy 3 are initialised at random and are arguments here. *)
Definition MLP_NORM_init (nnodes nclass : nat) (l1 l2 l3 : Linear)
    (dropout alpha beta gamma delta : num) (norm_func_id : Z)
    (norm_layers orders : nat) (orders_func_id : Z) (W1 W2 : matrix) : MLP_NORM :=
  {| fc1 := l1; fc2 := l2; fc3 := l3;
     nclass := nclass; dropout := dropout;
     alpha := alpha; beta := beta; gamma := gamma; delta := delta;
     norm_layers := norm_layers; orders := orders;
     class_eye := eye nclass; nodes_eye := eye nnodes;
     orders_weight := replicate orders (ndiv (Fin 1) (Fin (Qc_of_Z (Z.of_nat orders))));
     orders_weight_matrix := W1; orders_weight_matrix2 := W2;
     diag_weight := replicate nclass (ndiv (Fin 1) (Fin (Qc_of_Z (Z.of_nat nclass))));
     norm_func_id := norm_func_id; orders_func_id := orders_func_id |}.

(** *** Propagation strategies *)

Definition order_func1 (m : MLP_NORM) (x res adj : matrix) : matrix :=
  let tmp_orders := res in
  let sum_orders := tmp_orders in
  snd (foldl (λ '(tmp_orders, sum_orders) _,
               let tmp_orders := spmm adj tmp_orders in
               (tmp_orders, madd sum_orders tmp_orders))
             (tmp_orders, sum_orders) (seq 0 (orders m))).

Definition order_func2 (m : MLP_NORM) (x res adj : matrix) : option matrix :=
  let tmp_orders := spmm adj res in
  w0 ← orders_weight m !! 0%nat;
  let sum_orders := mscale_r tmp_orders w0 in
  st ← for_each (λ i '(tmp_orders, sum_orders),
                  let tmp_orders := spmm adj tmp_orders in
                  wi ← orders_weight m !! i;
                  Some (tmp_orders, madd sum_orders (mscale_r tmp_orders wi)))
                (seq 1 (orders m - 1)) (tmp_orders, sum_orders);
  Some (snd st).

Definition order_func3 (m : MLP_NORM) (x res adj : matrix) : option matrix :=
  let orders_para :=
    mm (mrelu (mm x (orders_weight_matrix m))) (orders_weight_matrix2 m) in
  let orders_para := transpose orders_para in
  let tmp_orders := spmm adj res in
  p0 ← orders_para !! 0%nat;
  let sum_orders := mul_rows p0 tmp_orders in
  st ← for_each (λ i '(tmp_orders, sum_orders),
                  let tmp_orders := spmm adj tmp_orders in
                  pi ← orders_para !! i;
                  Some (tmp_orders, madd sum_orders (mul_rows pi tmp_orders)))
                (seq 1 (orders m - 1)) (tmp_orders, sum_orders);
  Some (snd st).

(** [self.order_func], bound in [__init__] from [orders_func_id]. *)
Definition order_func (m : MLP_NORM) (x res adj : matrix) : option matrix :=
  if decide (orders_func_id m = 1%Z) then Some (order_func1 m x res adj)
  else if decide (orders_func_id m = 2%Z) then order_func2 m x res adj
  else order_func3 m x res adj.

(** *** [torch.inverse]

    The library routine is not part of the repository.  The functions
    below take it as the section variable [inverse] ([None] when it
    raises); closed examples instantiate it with [inverse_exact], the
    adjugate divided by the determinant, which raises on a matrix that is
    not square or whose determinant is zero. *)

Definition drop_col (j : nat) (M : matrix) : matrix :=
  (λ r : vec, take j r ++ drop (S j) r) <$> M.

Definition minor (i j : nat) (M : matrix) : matrix :=
  drop_col j (take i M ++ drop (S i) M).

Definition alternate (j : nat) (a : num) : num :=
  if Nat.even j then a else nopp a.

(** Laplace expansion along the first row of an [n × n] matrix. *)
Fixpoint det (n : nat) (M : matrix) : num :=
  match n, M with
  | S n', r :: M' =>
      foldl nadd (Fin 0)
        (imap (λ j a, nmul (alternate j a) (det n' (drop_col j M'))) r)
  | _, _ => Fin 1
  end.

Definition cofactor (n i j : nat) (M : matrix) : num :=
  alternate (i + j) (det (n - 1) (minor i j M)).

Definition inverse_exact (M : matrix) : option matrix :=
  let n := length M in
  if decide (Forall (λ r, length r = n) M) then
    let d := det n M in
    if decide (d = Fin 0) then None
    else Some ((λ i, (λ j, ndiv (cofactor n j i M) d) <$> seq 0 n) <$> seq 0 n)
  else None.

(** [F.dropout(x, p, training)]: in training mode an entry is multiplied
    by [1 / (1 - p)] where the sampled mask keeps it and by [0] where the
    mask drops it; in evaluation mode the input is returned.  The sampled
    mask is an argument. *)
Definition F_dropout (mask : list (list bool)) (x : matrix) (p : num)
    (training : bool) : matrix :=
  if training then
    zip_with (zip_with (λ (keep : bool) v,
      nmul v (if keep then ndiv (Fin 1) (nsub (Fin 1) p) else Fin 0))) mask x
  else x.

Section Model.

(** [torch.inverse] and [F.log_softmax(·, dim=1)]. *)
Variable inverse : matrix → option matrix.
Variable log_softmax : matrix → matrix.

(** *** Normalisation steps *)

Definition norm_func1 (m : MLP_NORM) (x h0 adj : matrix) : option matrix :=
  let coe := ndiv (Fin 1) (nadd (alpha m) (beta m)) in
  let coe1 := nsub (Fin 1) (gamma m) in
  let coe2 := ndiv (Fin 1) coe1 in
  let res := mm (transpose x) x in
  inv ← inverse (madd (mscale (nmul coe2 coe2) (class_eye m)) (mscale coe res));
  let res := mm inv res in
  let res := msub (mscale (nmul coe1 coe) x)
                  (mscale (nmul (nmul coe1 coe) coe) (mm x res)) in
  let tmp := mm (transpose x) res in
  sum_orders ← order_func m x res adj;
  let res := madd (msub (madd (mscale coe1 (mm x tmp))
                              (mscale (beta m) sum_orders))
                        (mscale (nmul (gamma m) coe1) (mm h0 tmp)))
                  (mscale (gamma m) h0) in
  Some res.

Definition norm_func2 (m : MLP_NORM) (x h0 adj : matrix) : option matrix :=
  let coe := ndiv (Fin 1) (nadd (alpha m) (beta m)) in
  let coe1 := nsub (Fin 1) (gamma m) in
  let coe2 := ndiv (Fin 1) coe1 in
  let res := mm (transpose x) x in
  inv ← inverse (madd (mscale (nmul coe2 coe2) (class_eye m)) (mscale coe res));
  let res := mm inv res in
  let res := mul_cols (msub (mscale (nmul coe1 coe) x)
                            (mscale (nmul (nmul coe1 coe) coe) (mm x res)))
                      (diag_weight m) in
  let tmp := mul_rows (diag_weight m) (mm (transpose x) res) in
  sum_orders ← order_func m x res adj;
  let res := madd (msub (madd (mscale coe1 (mm x tmp))
                              (mscale (beta m) sum_orders))
                        (mscale (nmul (gamma m) coe1) (mm h0 tmp)))
                  (mscale (gamma m) h0) in
  (* calculate z *)
  let xx := mm x (transpose x) in
  let hx := mm h0 (transpose x) in
  (* adj.to_dense() holds the same entries *)
  let adjk := adj in
  w0 ← orders_weight m !! 0%nat;
  let a_sum := mscale_r adjk w0 in
  st ← for_each (λ i '(adjk, a_sum),
                  let adjk := mm adjk adj in
                  wi ← orders_weight m !! i;
                  Some (adjk, madd a_sum (mscale_r adjk wi)))
                (seq 1 (orders m - 1)) (adjk, a_sum);
  let a_sum := snd st in
  inv_n ← inverse (madd (mscale (nmul coe1 coe1) xx)
                        (mscale (nadd (alpha m) (beta m)) (nodes_eye m)));
  let z := mm (msub (madd (mscale coe1 xx) (mscale (beta m) a_sum))
                    (mscale (nmul (gamma m) coe1) hx)) inv_n in
  Some res.

(** [self.norm], bound in [__init__] from [norm_func_id]. *)
Definition norm (m : MLP_NORM) (x h0 adj : matrix) : option matrix :=
  if decide (norm_func_id m = 1%Z) then norm_func1 m x h0 adj
  else norm_func2 m x h0 adj.

(** *** Forward pass *)

(** Lines 156-160 of [forward]: the value of [x] handed to [fc2]. *)
Definition forward_hidden (m : MLP_NORM) (training : bool)
    (mask1 mask2 : list (list bool)) (x adj : matrix) : matrix :=
  let xX := F_dropout mask1 x (dropout m) training in
  let xX := linear (fc1 m) x in
  let xA := linear (fc3 m) adj in
  let x := mrelu (madd (mscale (delta m) xX)
                       (mscale (nsub (Fin 1) (delta m)) xA)) in
  F_dropout mask2 x (dropout m) training.

Definition forward (m : MLP_NORM) (training : bool)
    (mask1 mask2 : list (list bool)) (x adj : matrix) : option matrix :=
  let x := forward_hidden m training mask1 mask2 x adj in
  let x := linear (fc2 m) x in
  let h0 := x in
  x ← for_each (λ _ x, norm m x h0 adj) (seq 0 (norm_layers m)) x;
  Some (log_softmax x).

End Model.

(** ** The [GraphConvolution] layer and the [GCN] model *)

(** [weight] has shape [(in_features, out_features)]; [bias] has length
    [out_features], or is absent ([bias=False]).  As for [linear], the
    operands of [forward] are taken to have matching shapes: the error
    torch raises on a mismatch is not modelled. *)
Record GraphConvolution : Type := mkGraphConvolution {
  gc_weight : matrix;
  gc_bias : option vec;
}.

(** [output + self.bias] when the layer has a bias (the bias is broadcast
    over the rows), [output] otherwise. *)
Definition add_bias (b : option vec) (output : matrix) : matrix :=
  match b with
  | Some b => (λ r, zip_with nadd r b) <$> output
  | None => output
  end.

Definition GraphConvolution_forward (l : GraphConvolution)
    (input adj : matrix) : matrix :=
  let support := mm input (gc_weight l) in
  let output := spmm adj support in
  add_bias (gc_bias l) output.

Record GCN : Type := mkGCN {
  gc1 : GraphConvolution;
  gc2 : GraphConvolution;
  gcn_dropout : num;
}.

Section GCNModel.

Variable log_softmax : matrix → matrix.

Definition GCN_forward (m : GCN) (training : bool) (mask : list (list bool))
    (x adj : matrix) : matrix :=
  let x := mrelu (GraphConvolution_forward (gc1 m) x adj) in
  let x := F_dropout mask x (gcn_dropout m) training in
  let x := GraphConvolution_forward (gc2 m) x adj in
  log_softmax x.

End GCNModel.

(** ** Row normalisation ([normalize])

    [normalize] runs in NumPy and SciPy on float64 data, before any tensor
    exists.  A matrix is the list of its rows, a sparse matrix with the
    entries it does not store as zeros: the products of a sparse and of a
    dense matrix with the diagonal matrix are the same as long as the
    entries are finite and no row sum is NaN. *)

Section Normalize.

(** [mx.sum(1)] for one row.  The libraries choose the order and the
    grouping in which the entries of a row are added (NumPy adds a dense
    row in blocks, SciPy reduces the stored entries of a sparse one), and
    the last bits of the sum depend on that choice: the function is a
    parameter of the embedding. *)
Variable np_sum : list PrimFloat.float → PrimFloat.float.





End Normalize.


(** ** Metrics ([accuracy]) *)

(** [argmax] along the last dimension: the index of the first entry that
    no other entry exceeds.  [better a b] tells whether the entry [a]
    takes the place of the maximum [b] met at a lower index.  An empty row
    raises. *)
Fixpoint argmax_from {A : Type} (better : A → A → bool)
    (best : nat) (bv : A) (i : nat) (r : list A) : nat :=
  match r with
  | [] => best
  | a :: r' =>
      if better a bv then argmax_from better i a (S i) r'
      else argmax_from better best bv (S i) r'
  end.

Definition argmax_by {A : Type} (better : A → A → bool) (r : list A) : option nat :=
  match r with
  | [] => None
  | a :: r' => Some (argmax_from better 0 a 1 r')
  end.

(** On floating-point entries NaN counts as larger than every other value;
    equal entries keep the lower index. *)
Definition float_better (a b : num) : bool :=
  match a, b with
  | NaN, NaN => false
  | NaN, _ => true
  | _, NaN => false
  | Fin x, Fin y => bool_decide (y < x)
  | PInf, PInf => false
  | PInf, _ => true
  | NInf, _ => false
  | Fin _, PInf => false
  | Fin _, NInf => true
  end.

Definition argmax (r : vec) : option nat := argmax_by float_better r.

(** [pred == gt_labels] on two one-dimensional tensors: element-wise when
    the lengths agree, a one-element tensor is broadcast, any other pair of
    lengths raises. *)
Definition tensor_eq (pred : list nat) (gt_labels : list Z) : option (list bool) :=
  if decide (length pred = length gt_labels) then
    Some (zip_with (λ p g, bool_decide (Z.of_nat p = g)) pred gt_labels)
  else
    match pred, gt_labels with
    | [p], _ => Some ((λ g, bool_decide (Z.of_nat p = g)) <$> gt_labels)
    | _, [g] => Some ((λ p, bool_decide (Z.of_nat p = g)) <$> pred)
    | _, _ => None
    end.

(** [.float()] of a boolean and [.mean()]: the mean of no element is
    [0 / 0]. *)
Definition float (b : bool) : num := if b then Fin 1 else Fin 0.

Definition mean (v : vec) : num :=
  ndiv (foldl nadd (Fin 0) v) (Fin (Qc_of_Z (Z.of_nat (length v)))).

Definition accuracy (pr_logits : matrix) (gt_labels : list Z) : option num :=
  pred ← mapM argmax pr_logits;
  hits ← tensor_eq pred gt_labels;
  Some (mean (float <$> hits)).

(** ** Class labels ([load_data_new], lines 373-378 and 422-425) *)

(** [l[i]] on a Python or NumPy sequence: a negative index counts from the
    end, an index out of range raises. *)
Definition py_index {A : Type} (l : list A) (i : Z) : option A :=
  let n := Z.of_nat (length l) in
  if decide (0 ≤ i < n)%Z then l !! Z.to_nat i
  else if decide (- n ≤ i < 0)%Z then l !! Z.to_nat (n + i)
  else None.

(** [max(l)]: raises on the empty list. *)
Definition py_max (l : list Z) : option Z :=
  match l with
  | [] => None
  | x :: l' => Some (foldl Z.max x l')
  end.

(** [np.eye(n)]: raises for a negative [n]. *)
Definition np_eye (n : Z) : option matrix :=
  if decide (0 ≤ n)%Z then Some (eye (Z.to_nat n)) else None.

(** Lines 377-378: [label_classes = max(labels_list) + 1] and
    [labels = np.eye(label_classes)[labels_list]].  [np.eye(0)] holds no
    element, and NumPy 1.x does not check the indices when the result of
    an indexing holds none (it only warns): the result is then an array of
    one empty row per label. *)
Definition labels_onehot (labels_list : list Z) : option matrix :=
  m ← py_max labels_list;
  let label_classes := (m + 1)%Z in
  e ← np_eye label_classes;
  if decide (label_classes = 0)%Z then Some (replicate (length labels_list) [])
  else mapM (py_index e) labels_list.

(** [.long()] on one entry: truncation toward zero.  The conversion of an
    infinity or of NaN is not defined by the library and is left out. *)
Definition long (x : num) : option Z :=
  match x with
  | Fin q => Some (Qnum q ÷ Zpos (Qden q))%Z
  | _ => None
  end.

(** A label array as [load_data_new] holds it: the class indices
    themselves, or one row per node. *)
Inductive ndarray : Type :=
  | Arr1 (v : vec)
  | Arr2 (M : matrix).

(** [argmax] on integers: a strictly larger entry takes the place of the
    maximum. *)
Definition long_better (a b : Z) : bool := bool_decide (b < a)%Z.

(** Lines 422-425. *)
Definition labels_tensor (labels : ndarray) : option (list Z) :=
  match labels with
  | Arr1 v => mapM long v
  | Arr2 M =>
      rows ← mapM (mapM long) M;
      mapM (λ r, Z.of_nat <$> argmax_by long_better r) rows
  end.

(** ** [encode_onehot] *)

Section EncodeOnehot.

Context {L : Type} `{Countable L}.

(** The order in which [enumerate(set(labels))] visits the distinct
    labels. *)
Variable set_iter : list L → list L.

(** Lines 250-256.  [classes_dict.get] yields [None] for a label that is no
    key, which the conversion to an integer array rejects; the conversion
    to [np.int32] truncates the entries as [long] does. *)
Definition encode_onehot (labels : list L) : option (list (list Z)) :=
  let classes := set_iter labels in
  let classes_dict : gmap L vec :=
    foldl (λ d '(i, c), <[c := eye (length classes) !!! i]> d) ∅
          (zip (seq 0 (length classes)) classes) in
  rows ← mapM (λ l, classes_dict !! l) labels;
  mapM (mapM long) rows.

End EncodeOnehot.

(** ** The edge list ([load_data_new], lines 323-335) *)

Section EdgeList.

(** [line.rstrip().split('\t')] and [int(s)] ([None] when it raises). *)
Variable fields : string → list string.
Variable int : string → option Z.

(** [graph_dict[k].append(v)] on a [defaultdict(list)]. *)
Definition dict_append (graph_dict : gmap Z (list Z)) (k v : Z) : gmap Z (list Z) :=
  <[k := default [] (graph_dict !! k) ++ [v]]> graph_dict.

(** The body of the loop over the lines of the edge file: the assertion
    on the number of fields, then the two appends. *)
Definition add_edge (graph_dict : gmap Z (list Z)) (line : string)
    : option (gmap Z (list Z)) :=
  let line := fields line in
  if decide (length line = 2%nat) then
    a ← line !! 0%nat; u ← int a;
    b ← line !! 1%nat; v ← int b;
    let graph_dict := dict_append graph_dict u v in
    Some (dict_append graph_dict v u)
  else None.

Fixpoint read_edges (graph_dict : gmap Z (list Z)) (lines : list string)
    : option (gmap Z (list Z)) :=
  match lines with
  | [] => Some graph_dict
  | line :: lines' => d ← add_edge graph_dict line; read_edges d lines'
  end.

(** Lines 323-330: [readline()] skips the header of the file. *)
Definition graph_dict_of (file : list string) : option (gmap Z (list Z)) :=
  read_edges ∅ (tail file).

End EdgeList.

(** Lines 332-335: the keys in increasing order, each with its sorted
    list of neighbours. *)
Definition graph_dict_ordered (graph_dict : gmap Z (list Z)) : list (Z * list Z) :=
  (λ key, (key, merge_sort Z.le (default [] (graph_dict !! key))))
    <$> merge_sort Z.le (elements (dom graph_dict)).

(** ** Node indices of a split ([load_data_new], lines 388-390 and
    409-411; the training script, lines 544-557) *)

(** [np.where(mask == v)[0]]: the positions that hold [v], in increasing
    order. *)
Definition np_where_eq (mask : list Z) (v : Z) : list Z :=
  (λ p, Z.of_nat p.1) <$> filter (λ p, p.2 = v) (zip (seq 0 (length mask)) mask).

(** [t[idx]] for an index tensor [idx]: one entry of [t] per index. *)
Definition index_select {A : Type} (t : list A) (idx : list Z) : option (list A) :=
  mapM (py_index t) idx.

(** ** The training loop (lines 534-583)

    Parameter tensors live in a store; a state dictionary maps parameter
    names to locations of the store.  [model.state_dict()] returns the
    locations of the live tensors themselves, [optimizer.step()] and
    [load_state_dict] write to them in place, [deepcopy] allocates fresh
    ones. *)

Abbreviation loc := nat.
Abbreviation state_dict := (list (string * loc)).

(** The contents a state dictionary refers to, by name. *)
Definition read {tensor : Type} (h : gmap loc tensor) (sd : state_dict)
    : list (string * tensor) :=
  omap (λ kl, (λ t, (kl.1, t)) <$> h !! kl.2) sd.

Definition locs (sd : state_dict) : list loc := snd <$> sd.

(** In-place update of the tensors of [sd] with new contents. *)
Definition write_all {tensor : Type} (h : gmap loc tensor) (sd : state_dict)
    (vals : list tensor) : gmap loc tensor :=
  foldl (λ h (lv : loc * tensor), <[lv.1 := lv.2]> h) h (zip (locs sd) vals).

(** [deepcopy] of a state dictionary: each tensor is copied to a location
    that is not in use. *)
Fixpoint deepcopy {tensor : Type} (h : gmap loc tensor) (sd : state_dict)
    : gmap loc tensor * state_dict :=
  match sd with
  | [] => (h, [])
  | (k, l) :: sd' =>
      match h !! l with
      | Some t =>
          let l' := fresh (dom h) in
          let '(h', copy) := deepcopy (<[l' := t]> h) sd' in
          (h', (k, l') :: copy)
      | None => deepcopy h sd'
      end
  end.

(** [model.load_state_dict(sd)]: the contents of [sd] are copied into the
    live tensors, in the order of [live]. *)
Definition load_state_dict {tensor : Type} (h : gmap loc tensor)
    (live sd : state_dict) : gmap loc tensor :=
  write_all h live (snd <$> read h sd).

(** What the script fixes before the loop starts.  [tensor] is the content
    of a parameter tensor, [logits] the model output. *)
Record Trainer (tensor logits : Type) : Type := mkTrainer {
  (** the model's own state dictionary *)
  live : state_dict;
  (** [model(features, adj)] in training mode at a given epoch and in
      evaluation mode, on the given parameter contents; [None] when the
      pass raises *)
  forward_train : nat → list (string * tensor) → option logits;
  forward_eval : list (string * tensor) → option logits;
  (** [metric] on the training and on the validation nodes; [None] when it
      raises *)
  metric_train : logits → option Qc;
  metric_val : logits → option Qc;
  (** the parameter contents after [loss_train.backward()] and
      [optimizer.step()] *)
  step_values : nat → list (string * tensor) → logits → list tensor;
  (** [args.fastmode], [args.early_stopping], [args.epochs] *)
  fastmode : bool;
  early_stopping : Z;
  epochs : nat;
}.

Arguments mkTrainer {tensor logits}.
Arguments live {tensor logits} _.
Arguments forward_train {tensor logits} _ _ _.
Arguments forward_eval {tensor logits} _ _.
Arguments metric_train {tensor logits} _ _.
Arguments metric_val {tensor logits} _ _.
Arguments step_values {tensor logits} _ _ _ _.
Arguments fastmode {tensor logits} _.
Arguments early_stopping {tensor logits} _.
Arguments epochs {tensor logits} _.

(** The variables of the loop.  [epochs_run] counts the iterations begun
    (it is [epoch + 1] once the loop has been entered). *)
Record loop_state (tensor : Type) : Type := mkLoopState {
  heap : gmap loc tensor;
  best_metric : Qc;
  patience : Z;
  best_params : option state_dict;
  epochs_run : nat;
}.

Arguments mkLoopState {tensor}.
Arguments heap {tensor} _.
Arguments best_metric {tensor} _.
Arguments patience {tensor} _.
Arguments best_params {tensor} _.
Arguments epochs_run {tensor} _.

Definition init_state {tensor : Type} (h : gmap loc tensor) : loop_state tensor :=
  {| heap := h; best_metric := 0; patience := 0%Z; best_params := None;
     epochs_run := 0 |}.

(** How one iteration ends. *)
Inductive control (tensor : Type) : Type :=
  | Raise
  | Break (s : loop_state tensor)
  | Continue (s : loop_state tensor).

Arguments Raise {tensor}.
Arguments Break {tensor} s.
Arguments Continue {tensor} s.

(** Lines 540-559: the training step and the validation metric.  [None] is
    an exception that leaves the loop; [Some (h, None)] is a validation
    metric that raised inside the [try]. *)
Definition train_and_eval {tensor logits : Type} (c : Trainer tensor logits)
    (epoch : nat) (s : loop_state tensor)
    : option (gmap loc tensor * option Qc) :=
  let params := read (heap s) (live c) in
  output ← forward_train c epoch params;
  metric_train_value ← metric_train c output;
  let h := write_all (heap s) (live c) (step_values c epoch params output) in
  output ← (if fastmode c then Some output else forward_eval c (read h (live c)));
  Some (h, metric_val c output).

(** One iteration of the [for] loop. *)
Definition epoch_body {tensor logits : Type} (c : Trainer tensor logits)
    (epoch : nat) (s : loop_state tensor) : control tensor :=
  match train_and_eval c epoch s with
  | None => Raise
  | Some (h, None) =>
      Break {| heap := h; best_metric := best_metric s;
               patience := patience s; best_params := best_params s;
               epochs_run := S (epochs_run s) |}
  | Some (h, Some metric_value) =>
      let s' :=
        if decide (best_metric s < metric_value) then
          let '(h', copy) := deepcopy h (live c) in
          {| heap := h'; best_metric := metric_value; patience := 0%Z;
             best_params := Some copy; epochs_run := S (epochs_run s) |}
        else
          {| heap := h; best_metric := best_metric s;
             patience := (patience s + 1)%Z; best_params := best_params s;
             epochs_run := S (epochs_run s) |} in
      if decide (early_stopping c ≤ patience s')%Z then Break s' else Continue s'
  end.

(** [for epoch in range(...)] over the remaining epoch indices; [None] when
    an exception leaves the loop. *)
Fixpoint train_loop {tensor logits : Type} (c : Trainer tensor logits)
    (idx : list nat) (s : loop_state tensor) : option (loop_state tensor) :=
  match idx with
  | [] => Some s
  | epoch :: idx' =>
      match epoch_body c epoch s with
      | Raise => None
      | Break s' => Some s'
      | Continue s' => train_loop c idx' s'
      end
  end.

Definition train {tensor logits : Type} (c : Trainer tensor logits)
    (h : gmap loc tensor) : option (loop_state tensor) :=
  train_loop c (seq 0 (epochs c)) (init_state h).

(** Line 583: loading the best parameters raises when no snapshot was ever
    taken. *)
Definition load_best {tensor logits : Type} (c : Trainer tensor logits)
    (s : loop_state tensor) : option (gmap loc tensor) :=
  sd ← best_params s; Some (load_state_dict (heap s) (live c) sd).

(** ** Dataset splits ([JacobiConv/datasets.py]) *)

(** *** [BaseGraph] *)

(** [x] holds one row per node, [edge_index] the two rows of end points,
    [mask] the split of every node: 0, 1 or 2 for train, valid, test. *)
Record BaseGraph : Type := mkBaseGraph {
  bg_x : matrix;
  bg_edge_index : list (list Z);
  bg_edge_attr : vec;
  bg_y : list Z;
  bg_num_classes : nat;
  bg_num_nodes : nat;
  bg_mask : list Z;
}.

(** [v[m]] for a boolean mask [m]: the entries of [v] where [m] is true;
    raises unless [m] has the shape of [v]. *)
Definition bool_index {A : Type} (v : list A) (m : list bool) : option (list A) :=
  if decide (length m = length v)
  then Some (fst <$> filter (λ p, p.2 = true) (zip v m))
  else None.

(** The dictionary literal of [get_split]. *)
Definition split_codes : gmap string Z :=
  <["train" := 0%Z]> (<["valid" := 1%Z]> (<["test" := 2%Z]> ∅)).

Definition get_split (self : BaseGraph) (split : string)
    : option (list (list Z) * vec * list bool * list Z) :=
  tar_mask ← split_codes !! split;
  let tmask := (λ v, bool_decide (v = tar_mask)) <$> bg_mask self in
  y ← bool_index (bg_y self) tmask;
  Some (bg_edge_index self, bg_edge_attr self, tmask, y).

(** *** [split] *)

(** [mask[sel] = v] for a boolean mask [sel]: raises unless [sel] has the
    shape of [mask]. *)
Definition masked_fill (mask : list Z) (sel : list bool) (v : Z) : option (list Z) :=
  if decide (length sel = length mask)
  then Some (zip_with (λ (b : bool) old, if b then v else old) sel mask)
  else None.

(** Lines 76-81: the node masks written over a tensor that [torch.empty]
    leaves uninitialised; [uninit] is what that tensor happens to hold. *)
Definition split_mask (uninit : list Z) (train_mask val_mask test_mask : list bool)
    : option (list Z) :=
  mask ← masked_fill uninit train_mask 0;
  mask ← masked_fill mask val_mask 1;
  masked_fill mask test_mask 2.

(** The data object [split] reads: the features, the labels, the number
    of classes and, when the data set ships its own splits, one mask
    column per split ([None]: the attribute is missing). *)
Record Data : Type := mkData {
  data_x : matrix;
  data_y : list Z;
  data_num_classes : Z;
  data_train_mask : option (list (list bool));
  data_val_mask : option (list (list bool));
  data_test_mask : option (list (list bool));
}.

(** [m[:, j]]: column [j] of a mask with one row per node.  A mask
    without rows has no number of columns in this representation: its
    column is empty for every [j]. *)
Definition column_at (m : list (list bool)) (j : Z) : option (list bool) :=
  mapM (λ r, py_index r j) m.

(** [torch.empty(n, dtype=torch.int8)]: [n] entries that are not
    initialised; [uninit i] is what entry [i] happens to hold. *)
Definition torch_empty (uninit : nat → Z) (n : nat) : list Z := uninit <$> seq 0 n.

Section Split.

(** [du.random_planetoid_splits], which is not part of the sources at
    hand, the two sizes [split] computes for it in floating point
    ([None]: the division by [num_classes = 0] raises), and the content of
    the memory [torch.empty] returns. *)
Variable random_planetoid_splits :
  Data → Z → Z → Z → option (list bool * list bool * list bool).
Variable percls_trn : Q → nat → Z → option Z.
Variable val_lb : Q → nat → Z.
Variable uninit : nat → Z.

Definition split (data : Data) (split : string) (split_id : Z) : option (list Z) :=
  let dense_split := (6 # 10, 2 # 10)%Q in
  let sparse_split := (25 # 1000, 25 # 1000)%Q in
  masks ←
    (if decide (split = "default") then
       train_mask ← data_train_mask data;
       val_mask ← data_val_mask data;
       test_mask ← data_test_mask data;
       train_mask ← column_at train_mask split_id;
       val_mask ← column_at val_mask split_id;
       test_mask ← column_at test_mask split_id;
       Some (train_mask, val_mask, test_mask)
     else
       u_split ←
         (if decide (split = "dense") then Some dense_split
          else if decide (split = "sparse") then Some sparse_split
          else None);
       percls ← percls_trn u_split.1 (length (data_y data)) (data_num_classes data);
       let lb := val_lb u_split.2 (length (data_y data)) in
       random_planetoid_splits data (data_num_classes data) percls lb);
  let '(train_mask, val_mask, test_mask) := masks in
  split_mask (torch_empty uninit (length (data_x data)))
    train_mask val_mask test_mask.

End Split.

(** * Specification-side definitions

    The formulas and predicates the specification states, to be compared
    with the embedding above. *)

(** ** Propagation (section 4.2) *)

(** [A^k R] obtained the way section 4.2 prescribes, by [k] successive
    products with [A] starting from [R]. *)
Definition apply_pow (A : matrix) (k : nat) (R : matrix) : matrix :=
  Nat.iter k (spmm A) R.

(** [R + Σ_{k=1}^{K} A^k R], the terms added in increasing order of [k]. *)
Definition spec_order1 (A R : matrix) (K : nat) : matrix :=
  foldl madd R ((λ k, apply_pow A k R) <$> seq 1 K).

(** [A^k] for [k ≥ 1] as a matrix: [A^1 = A], [A^(k+1) = A · A^k]. *)
Definition mpow (A : matrix) (k : nat) : matrix := Nat.iter (k - 1) (mm A) A.

(** Row vectors: sum, multiple, product with a matrix of [c] columns, and
    the combination [Σ_k r_k · B_k] of the rows of [B]. *)
Definition vadd (u v : vec) : vec := zip_with nadd u v.
Definition vscale (a : num) (v : vec) : vec := nmul a <$> v.

Definition vm (c : nat) (r : vec) (B : matrix) : vec :=
  (λ j, dot r (column j B)) <$> seq 0 c.

Fixpoint lincomb (c : nat) (r : vec) (B : matrix) : vec :=
  match r, B with
  | x :: r', b :: B' => vadd (vscale x b) (lincomb c r' B')
  | _, _ => replicate c (Fin 0)
  end.

(** What [__init__] guarantees about the attributes the propagation and
    normalisation steps index. *)
Record model_wf (m : MLP_NORM) : Prop := mk_model_wf {
  wf_orders_weight : length (orders_weight m) = orders m;
  wf_matrix2 : shape (orders m) (orders m) (orders_weight_matrix2 m);
  wf_class_eye : class_eye m = eye (nclass m);
  wf_diag_weight : length (diag_weight m) = nclass m;
}.

(** ** The normalisation step against its formula (section 4.3) *)

Section SpecFormula.

Variables (alpha beta gamma : num) (C : nat) (X H0 : matrix).

Definition spec_coe : num := ndiv (Fin 1) (nadd alpha beta).
Definition spec_coe1 : num := nsub (Fin 1) gamma.
Definition spec_coe2 : num := ndiv (Fin 1) spec_coe1.

(** [G = Xᵗ X] *)
Definition spec_gram : matrix := mm (transpose X) X.

(** [coe2² · I_C + coe · G], the matrix that is inverted. *)
Definition spec_ridge : matrix :=
  madd (mscale (nmul spec_coe2 spec_coe2) (eye C)) (mscale spec_coe spec_gram).

(** [corrected = coe1·coe·X - coe1·coe²·X·(inv·G)] *)
Definition spec_corrected (inv : matrix) : matrix :=
  msub (mscale (nmul spec_coe1 spec_coe) X)
       (mscale (nmul spec_coe1 (nmul spec_coe spec_coe))
               (mm X (mm inv spec_gram))).

(** [tmp = Xᵗ · corrected] *)
Definition spec_tmp (corrected : matrix) : matrix := mm (transpose X) corrected.

(** [X' = coe1·(X·tmp) + beta·propagated - gamma·coe1·(H0·tmp) + gamma·H0] *)
Definition spec_update (tmp propagated : matrix) : matrix :=
  madd (msub (madd (mscale spec_coe1 (mm X tmp)) (mscale beta propagated))
             (mscale (nmul gamma spec_coe1) (mm H0 tmp)))
       (mscale gamma H0).

(** Variant B: [corrected] and [tmp] scaled by the per-class weights. *)
Definition spec_corrected_B (d : vec) (inv : matrix) : matrix :=
  mul_cols (spec_corrected inv) d.

Definition spec_tmp_B (d : vec) (corrected : matrix) : matrix :=
  mul_rows d (spec_tmp corrected).

End SpecFormula.

Section VariantB.

Variable inverse : matrix → option matrix.

(** *** Variant B and its trailing [z] block *)

(** [norm_func2] with the block after [# calculate z] deleted. *)
Definition norm_func2_no_z (m : MLP_NORM) (x h0 adj : matrix) : option matrix :=
  let coe := ndiv (Fin 1) (nadd (alpha m) (beta m)) in
  let coe1 := nsub (Fin 1) (gamma m) in
  let coe2 := ndiv (Fin 1) coe1 in
  let res := mm (transpose x) x in
  inv ← inverse (madd (mscale (nmul coe2 coe2) (class_eye m)) (mscale coe res));
  let res := mm inv res in
  let res := mul_cols (msub (mscale (nmul coe1 coe) x)
                            (mscale (nmul (nmul coe1 coe) coe) (mm x res)))
                      (diag_weight m) in
  let tmp := mul_rows (diag_weight m) (mm (transpose x) res) in
  sum_orders ← order_func m x res adj;
  let res := madd (msub (madd (mscale coe1 (mm x tmp))
                              (mscale (beta m) sum_orders))
                        (mscale (nmul (gamma m) coe1) (mm h0 tmp)))
                  (mscale (gamma m) h0) in
  Some res.

(** The block after [# calculate z] on its own: the value of [z], or
    [None] when the block raises. *)
Definition z_block (m : MLP_NORM) (x h0 adj : matrix) : option matrix :=
  let coe1 := nsub (Fin 1) (gamma m) in
  let xx := mm x (transpose x) in
  let hx := mm h0 (transpose x) in
  (* adj.to_dense() holds the same entries *)
  let adjk := adj in
  w0 ← orders_weight m !! 0%nat;
  let a_sum := mscale_r adjk w0 in
  st ← for_each (λ i '(adjk, a_sum),
                  let adjk := mm adjk adj in
                  wi ← orders_weight m !! i;
                  Some (adjk, madd a_sum (mscale_r adjk wi)))
                (seq 1 (orders m - 1)) (adjk, a_sum);
  let a_sum := snd st in
  inv_n ← inverse (madd (mscale (nmul coe1 coe1) xx)
                        (mscale (nadd (alpha m) (beta m)) (nodes_eye m)));
  Some (mm (msub (madd (mscale coe1 xx) (mscale (beta m) a_sum))
                 (mscale (nmul (gamma m) coe1) hx)) inv_n).

End VariantB.

(** ** The hidden embedding of the forward pass (section 4.4) *)

(** [X0] as section 4.4 words it: the features go through dropout before
    [Linear1], the mixed activation goes through dropout after the ReLU. *)
Definition spec_forward_hidden (m : MLP_NORM) (training : bool)
    (mask1 mask2 : list (list bool)) (x adj : matrix) : matrix :=
  F_dropout mask2
    (mrelu (madd (mscale (delta m)
                    (linear (fc1 m) (F_dropout mask1 x (dropout m) training)))
                 (mscale (nsub (Fin 1) (delta m)) (linear (fc3 m) adj))))
    (dropout m) training.

(** ** Row normalisation (section 4.1) *)




(** ** NaN in the normalisation step *)

(** The matrix of [n] rows and [c] columns whose entries are all NaN. *)
Definition nans (n c : nat) : matrix := replicate n (replicate c NaN).

(** Some entry of [M] is NaN. *)
Definition has_nan (M : matrix) : Prop :=
  ∃ i j r, M !! i = Some r ∧ r !! j = Some NaN.

(** *** Training loop *)

(** Every live tensor is allocated. *)
Definition live_alloc {tensor logits : Type} (c : Trainer tensor logits)
    (h : gmap loc tensor) : Prop :=
  ∀ l, l ∈ locs (live c) → l ∈ dom h.

(** [h'] keeps what [h] stores outside the live tensors. *)
Definition extends {tensor logits : Type} (c : Trainer tensor logits)
    (h h' : gmap loc tensor) : Prop :=
  (∀ l, l ∈ dom h → l ∈ dom h')
  ∧ (∀ l, l ∈ dom h → l ∉ locs (live c) → h' !! l = h !! l).

(** What an iteration that reaches the validation metric [v] does to the
    loop variables (lines 568-573). *)
Definition observe {tensor logits : Type} (c : Trainer tensor logits)
    (s : loop_state tensor) (h : gmap loc tensor) (v : Qc) : loop_state tensor :=
  if decide (best_metric s < v) then
    let '(h', copy) := deepcopy h (live c) in
    {| heap := h'; best_metric := v; patience := 0%Z;
       best_params := Some copy; epochs_run := S (epochs_run s) |}
  else
    {| heap := h; best_metric := best_metric s;
       patience := (patience s + 1)%Z; best_params := best_params s;
       epochs_run := S (epochs_run s) |}.

(** ** Closed forms and predicates for the rest of the code *)

(** *** Propagation strategies 2 and 3 *)

(** [Σ_{k=1}^{K} (A^k R) · w_{k-1}], the terms added in increasing order of
    [k] ([K ≥ 1]). *)
Definition spec_order2 (A R : matrix) (w : vec) (K : nat) : matrix :=
  foldl madd (mscale_r (apply_pow A 1 R) (w !!! 0%nat))
        ((λ k, mscale_r (apply_pow A (S k) R) (w !!! k)) <$> seq 1 (K - 1)).

(** The per-node weights of strategy 3: row [k] holds, for every node, the
    weight of the term of order [k + 1]. *)
Definition orders_para (m : MLP_NORM) (x : matrix) : matrix :=
  transpose (mm (mrelu (mm x (orders_weight_matrix m))) (orders_weight_matrix2 m)).

(** [Σ_{k=1}^{K} diag(p_{k-1}) · (A^k R)] ([K ≥ 1]). *)
Definition spec_order3 (A R P : matrix) (K : nat) : matrix :=
  foldl madd (mul_rows (P !!! 0%nat) (apply_pow A 1 R))
        ((λ k, mul_rows (P !!! k) (apply_pow A (S k) R)) <$> seq 1 (K - 1)).

(** *** Layers *)

(** What [nn.Linear(in_features, out_features)] guarantees about its
    parameters. *)
Definition linear_wf (l : Linear) (in_features out_features : nat) : Prop :=
  shape out_features in_features (weight l) ∧ length (bias l) = out_features.

(** A dense layer [x W + b] with the weights of a graph convolution. *)
Definition dense (l : GraphConvolution) (x : matrix) : matrix :=
  add_bias (gc_bias l) (mm x (gc_weight l)).

(** *** Metrics and labels *)

(** Row [r] is classified as [g]: [g] is the position of the first largest
    entry of [r]. *)
Definition first_max (r : list Qc) (g : nat) : Prop :=
  ∃ m, r !! g = Some m
    ∧ (∀ j x, r !! j = Some x → x ≤ m)
    ∧ (∀ j x, r !! j = Some x → (j < g)%nat → x < m).

Definition count_true (bs : list bool) : nat := length (filter (λ b, b = true) bs).

(** Row [k] of the identity of size [n], as integers. *)
Definition unit_row (n k : nat) : list Z :=
  (λ j, if decide (k = j) then 1%Z else 0%Z) <$> seq 0 n.

(** The class a label is decoded to when there are [C] classes. *)
Definition wrap_label (C l : Z) : Z := if decide (l < 0)%Z then (l + C)%Z else l.

(** *** Edge lists *)

(** The neighbours recorded for a node. *)
Definition neighbours (d : gmap Z (list Z)) (u : Z) : list Z := default [] (d !! u).

(** *** Invariants of the training loop *)

(** [best_metric] is still the initial 0 and no snapshot exists, or it is a
    positive validation metric that was computed and a snapshot exists. *)
Definition best_inv {tensor logits : Type} (c : Trainer tensor logits)
    (s : loop_state tensor) : Prop :=
  (best_metric s = 0 ∧ best_params s = None)
  ∨ (0 < best_metric s ∧ is_Some (best_params s)
     ∧ ∃ output, metric_val c output = Some (best_metric s)).

(** [patience] counts some of the iterations run so far. *)
Definition patience_inv {tensor : Type} (s : loop_state tensor) : Prop :=
  (0 ≤ patience s ≤ Z.of_nat (epochs_run s))%Z.

(** The live tensors are allocated, and a snapshot has the keys of the
    state dict and storage of its own. *)
Definition snapshot_inv {tensor logits : Type} (c : Trainer tensor logits)
    (s : loop_state tensor) : Prop :=
  live_alloc c (heap s)
  ∧ ∀ sd, best_params s = Some sd →
      fst <$> sd = fst <$> live c
      ∧ ∀ l, l ∈ locs sd → l ∈ dom (heap s) ∧ l ∉ locs (live c).

(** *** Dataset splits *)

(** The split a node ends in: the last assignment wins, a node that no
    mask selects keeps the uninitialised value. *)
Definition split_of (u : Z) (tr va te : bool) : Z :=
  if te then 2%Z else if va then 1%Z else if tr then 0%Z else u.

Fixpoint zip4_with {A B C D E : Type} (f : A → B → C → D → E)
    (a : list A) (b : list B) (c : list C) (d : list D) : list E :=
  match a, b, c, d with
  | x :: a', y :: b', z :: c', w :: d' => f x y z w :: zip4_with f a' b' c' d'
  | _, _, _, _ => []
  end.

(** The labels [get_split] selects for a code. *)
Definition selected (y : list Z) (mask : list Z) (code : Z) : list Z :=
  fst <$> filter (λ p, p.2 = true)
            (zip y ((λ v, bool_decide (v = code)) <$> mask)).

(** The three node masks select every node exactly once. *)
Definition one_split (a b d : bool) : Prop :=
  (a = true ∧ b = false ∧ d = false)
  ∨ (a = false ∧ b = true ∧ d = false)
  ∨ (a = false ∧ b = false ∧ d = true).

(** * Properties *)

(** ** Arithmetic of the extended rationals *)

Lemma Qc_eq_Qeq (a b : Qc) : a = b ↔ (this a == this b)%Q.
Proof. split; [by intros ->|apply Qc_is_canon]. Qed.

(** Turns a goal about signs of [Qc] products and sums into one about
    [Q], where [nra] decides it. *)
Ltac qc_to_q :=
  repeat match goal with
  | H : context [@eq Qc _ _] |- _ => rewrite Qc_eq_Qeq in H
  | |- context [@eq Qc _ _] => rewrite Qc_eq_Qeq
  end;
  unfold Qclt, Qcle, Qcmult, Qcplus, Qcopp, Q2Qc in *; simpl in *;
  rewrite ?Qred_correct in *.

Lemma nmul_assoc (x y z : num) : nmul (nmul x y) z = nmul x (nmul y z).
Proof.
  destruct x, y, z; simpl;
    repeat (try unfold signed_inf; case_decide; simpl);
    try done; try (f_equal; ring); exfalso; qc_to_q; nra.
Qed.

(** ** Propagation strategies *)

Lemma order_func1_loop (A R acc : matrix) (j n : nat) :
  foldl (λ '(tmp_orders, sum_orders) (_ : nat),
           let tmp_orders := spmm A tmp_orders in
           (tmp_orders, madd sum_orders tmp_orders))
        (apply_pow A j R, acc) (seq j n)
  = (apply_pow A (j + n) R,
     foldl madd acc ((λ k, apply_pow A k R) <$> seq (S j) n)).
Proof.
  revert j acc. induction n as [|n IH]; intros j acc; simpl.
  - by rewrite Nat.add_0_r.
  - change (spmm A (apply_pow A j R)) with (apply_pow A (S j) R).
    rewrite IH. by rewrite Nat.add_succ_r.
Qed.

Lemma order_func1_unfold (m : MLP_NORM) (x R A : matrix) :
  order_func1 m x R A = spec_order1 A R (orders m).
Proof.
  unfold order_func1, spec_order1. cbv zeta.
  pose proof (order_func1_loop A R R 0 (orders m)) as H. cbv zeta in H.
  change (apply_pow A 0 R) with R in H. by rewrite H.
Qed.

Lemma order_func1_orders0 (m : MLP_NORM) (x R A : matrix) :
  orders m = 0%nat → order_func1 m x R A = R.
Proof. intros H0. rewrite order_func1_unfold, H0. done. Qed.

Lemma MLP_NORM_init_wf nnodes C l1 l2 l3 p a b g d nid nl K oid W1 W2 :
  shape K K W2 →
  model_wf (MLP_NORM_init nnodes C l1 l2 l3 p a b g d nid nl K oid W1 W2).
Proof.
  intros HW2. split; simpl; auto using length_replicate.
Qed.

Lemma for_each_is_Some {S : Type} (body : nat → S → option S) idx s :
  (∀ i s', i ∈ idx → is_Some (body i s')) → is_Some (for_each body idx s).
Proof.
  revert s. induction idx as [|i idx IH]; intros s Hb; simpl; [by eexists|].
  destruct (Hb i s) as [s' Hs']; [set_solver|].
  rewrite Hs'. simpl. apply IH. intros; apply Hb; set_solver.
Qed.

Lemma length_transpose (M : matrix) : length (transpose M) = ncols M.
Proof. unfold transpose. by rewrite length_fmap, length_seq. Qed.

Lemma shape_ncols n c (M : matrix) : shape n c M → (0 < n)%nat → ncols M = c.
Proof.
  intros [Hn Hc] Hpos. destruct M as [|r M]; simpl in *; [lia|].
  by inversion Hc.
Qed.

Lemma length_mm (A B : matrix) : length (mm A B) = length A.
Proof. unfold mm. by rewrite length_fmap. Qed.

Lemma ncols_mm (A B : matrix) : A ≠ [] → ncols (mm A B) = ncols B.
Proof.
  destruct A as [|r A]; [done|]. intros _. simpl.
  by rewrite length_fmap, length_transpose.
Qed.

Lemma mrelu_nonempty (M : matrix) : M ≠ [] → mrelu M ≠ [].
Proof. by destruct M. Qed.

Lemma mm_nonempty (A B : matrix) : A ≠ [] → mm A B ≠ [].
Proof. by destruct A. Qed.

Lemma order_func2_orders0 (m : MLP_NORM) (x res adj : matrix) :
  orders_weight m = [] → order_func2 m x res adj = None.
Proof. intros H. unfold order_func2. by rewrite H. Qed.

Lemma order_func3_orders0 (m : MLP_NORM) (x res adj : matrix) :
  orders_weight_matrix2 m = [] → order_func3 m x res adj = None.
Proof.
  intros H. unfold order_func3. rewrite H.
  assert (Hp : transpose (mm (mrelu (mm x (orders_weight_matrix m))) []) = []).
  { apply length_zero_iff_nil. rewrite length_transpose.
    destruct (mrelu (mm x (orders_weight_matrix m))); done. }
  by rewrite Hp.
Qed.

Lemma order_func2_is_Some (m : MLP_NORM) (x res adj : matrix) :
  length (orders_weight m) = orders m → (1 ≤ orders m)%nat →
  is_Some (order_func2 m x res adj).
Proof.
  intros Hlen Hk. unfold order_func2.
  destruct (lookup_lt_is_Some_2 (orders_weight m) 0%nat) as [w0 Hw0]; [lia|].
  rewrite Hw0. simpl.
  match goal with |- is_Some (mbind _ (for_each ?b ?i ?s)) =>
    destruct (for_each_is_Some b i s) as [st Hst] end.
  - intros i [t u] Hi. apply elem_of_seq in Hi.
    destruct (lookup_lt_is_Some_2 (orders_weight m) i) as [wi Hwi]; [lia|].
    rewrite Hwi. by eexists.
  - rewrite Hst. by eexists.
Qed.

Lemma order_func3_is_Some (m : MLP_NORM) (x res adj : matrix) :
  shape (orders m) (orders m) (orders_weight_matrix2 m) →
  (1 ≤ orders m)%nat → x ≠ [] →
  is_Some (order_func3 m x res adj).
Proof.
  intros HW2 Hk Hx. unfold order_func3.
  set (P := transpose _).
  assert (HP : length P = orders m).
  { unfold P. rewrite length_transpose, ncols_mm.
    - apply (shape_ncols _ _ _ HW2). lia.
    - by apply mrelu_nonempty, mm_nonempty. }
  destruct (lookup_lt_is_Some_2 P 0%nat) as [p0 Hp0]; [lia|].
  rewrite Hp0. simpl.
  match goal with |- is_Some (mbind _ (for_each ?b ?i ?s)) =>
    destruct (for_each_is_Some b i s) as [st Hst] end.
  - intros i [t u] Hi. apply elem_of_seq in Hi.
    destruct (lookup_lt_is_Some_2 P i) as [pi Hpi]; [lia|].
    rewrite Hpi. by eexists.
  - rewrite Hst. by eexists.
Qed.

(** C10: with [orders = 0] strategies 2 and 3 fail on their first index
    into the per-order weights while strategy 1 returns the residual
    unchanged; with [orders ≥ 1] every strategy returns a matrix. *)
Theorem orders_precondition (m : MLP_NORM) (x res adj : matrix) :
  model_wf m → x ≠ [] →
  (orders m = 0%nat →
     order_func2 m x res adj = None
     ∧ order_func3 m x res adj = None
     ∧ order_func1 m x res adj = res)
  ∧ ((1 ≤ orders m)%nat →
     is_Some (order_func2 m x res adj)
     ∧ is_Some (order_func3 m x res adj)
     ∧ is_Some (order_func m x res adj)).
Proof.
  intros [Hw HW2 _ _] Hx. split.
  - intros H0. rewrite H0 in Hw, HW2.
    apply length_zero_iff_nil in Hw. destruct HW2 as [HW2 _].
    apply length_zero_iff_nil in HW2.
    split; [by apply order_func2_orders0|].
    split; [by apply order_func3_orders0|].
    by apply order_func1_orders0.
  - intros Hk.
    pose proof (order_func2_is_Some m x res adj Hw Hk) as H2.
    pose proof (order_func3_is_Some m x res adj HW2 Hk Hx) as H3.
    split; [done|]. split; [done|].
    unfold order_func. repeat case_decide; [by eexists|done|done].
Qed.

(** ** The normalisation step *)

Section NormalisationStep.

Variable inverse : matrix → option matrix.

(** C1: one application of [norm_func1] returns the update of section
    4.3, computed from the inverse of the ridge matrix and from the
    selected propagation of [corrected]. *)
Theorem norm_func1_spec (m : MLP_NORM) (X H0 A inv propagated : matrix) :
  class_eye m = eye (nclass m) →
  inverse (spec_ridge (alpha m) (beta m) (gamma m) (nclass m) X) = Some inv →
  order_func m X (spec_corrected (alpha m) (beta m) (gamma m) X inv) A
    = Some propagated →
  norm_func1 inverse m X H0 A
    = Some (spec_update (beta m) (gamma m) X H0
              (spec_tmp X (spec_corrected (alpha m) (beta m) (gamma m) X inv))
              propagated).
Proof.
  intros Heye Hinv Hprop. unfold norm_func1. cbv zeta.
  rewrite Heye.
  change (inverse _) with
    (inverse (spec_ridge (alpha m) (beta m) (gamma m) (nclass m) X)).
  rewrite Hinv. unfold mbind, option_bind. cbv beta iota.
  assert (Hc : msub (mscale (nmul (nsub (Fin 1) (gamma m))
                                  (ndiv (Fin 1) (nadd (alpha m) (beta m)))) X)
                    (mscale (nmul (nmul (nsub (Fin 1) (gamma m))
                                        (ndiv (Fin 1) (nadd (alpha m) (beta m))))
                                  (ndiv (Fin 1) (nadd (alpha m) (beta m))))
                            (mm X (mm inv (mm (transpose X) X))))
               = spec_corrected (alpha m) (beta m) (gamma m) X inv).
  { unfold spec_corrected, spec_coe1, spec_coe, spec_gram.
    by rewrite nmul_assoc. }
  rewrite Hc, Hprop. done.
Qed.

Lemma norm_func2_split (m : MLP_NORM) (x h0 adj : matrix) :
  norm_func2 inverse m x h0 adj
  = r ← norm_func2_no_z inverse m x h0 adj; _ ← z_block inverse m x h0 adj; Some r.
Proof.
  unfold norm_func2, norm_func2_no_z, z_block. cbv zeta.
  unfold mbind, option_bind.
  repeat case_match; simplify_eq; done.
Qed.

Lemma norm_func2_no_z_formula (m : MLP_NORM) (X H0 A inv propagated : matrix) :
  class_eye m = eye (nclass m) →
  inverse (spec_ridge (alpha m) (beta m) (gamma m) (nclass m) X) = Some inv →
  order_func m X
    (spec_corrected_B (alpha m) (beta m) (gamma m) X (diag_weight m) inv) A
    = Some propagated →
  norm_func2_no_z inverse m X H0 A
    = Some (spec_update (beta m) (gamma m) X H0
              (spec_tmp_B X (diag_weight m)
                 (spec_corrected_B (alpha m) (beta m) (gamma m) X
                    (diag_weight m) inv))
              propagated).
Proof.
  intros Heye Hinv Hprop. unfold norm_func2_no_z. cbv zeta.
  rewrite Heye.
  change (inverse _) with
    (inverse (spec_ridge (alpha m) (beta m) (gamma m) (nclass m) X)).
  rewrite Hinv. unfold mbind, option_bind. cbv beta iota.
  assert (Hc : mul_cols
                 (msub (mscale (nmul (nsub (Fin 1) (gamma m))
                                     (ndiv (Fin 1) (nadd (alpha m) (beta m)))) X)
                       (mscale (nmul (nmul (nsub (Fin 1) (gamma m))
                                           (ndiv (Fin 1) (nadd (alpha m) (beta m))))
                                     (ndiv (Fin 1) (nadd (alpha m) (beta m))))
                               (mm X (mm inv (mm (transpose X) X)))))
                 (diag_weight m)
               = spec_corrected_B (alpha m) (beta m) (gamma m) X
                   (diag_weight m) inv).
  { unfold spec_corrected_B, spec_corrected, spec_coe1, spec_coe, spec_gram.
    by rewrite nmul_assoc. }
  rewrite Hc, Hprop. done.
Qed.

(** C5 (amended): [norm_func2] returns a matrix exactly when the version
    without the [z] block returns it and the [z] block does not raise;
    the matrix is the variant-B update. *)
Theorem norm_func2_z_dead (m : MLP_NORM) (X H0 A : matrix) :
  (∀ r, norm_func2 inverse m X H0 A = Some r
        ↔ norm_func2_no_z inverse m X H0 A = Some r ∧ is_Some (z_block inverse m X H0 A))
  ∧ (∀ inv propagated,
       class_eye m = eye (nclass m) →
       inverse (spec_ridge (alpha m) (beta m) (gamma m) (nclass m) X) = Some inv →
       order_func m X
         (spec_corrected_B (alpha m) (beta m) (gamma m) X (diag_weight m) inv) A
         = Some propagated →
       is_Some (z_block inverse m X H0 A) →
       norm_func2 inverse m X H0 A
         = Some (spec_update (beta m) (gamma m) X H0
                   (spec_tmp_B X (diag_weight m)
                      (spec_corrected_B (alpha m) (beta m) (gamma m) X
                         (diag_weight m) inv))
                   propagated)).
Proof.
  split.
  - intros r. rewrite norm_func2_split.
    destruct (norm_func2_no_z inverse m X H0 A) as [r'|]; simpl.
    + destruct (z_block inverse m X H0 A) as [z|]; simpl.
      * split; [intros [= ->]; split; [done|by eexists]|by intros [? _]].
      * split; [done|]. intros [_ [? ?]]. done.
    + split; [done|by intros [? _]].
  - intros inv propagated Heye Hinv Hprop [z Hz].
    rewrite norm_func2_split.
    rewrite (norm_func2_no_z_formula m X H0 A inv propagated Heye Hinv Hprop).
    simpl. by rewrite Hz.
Qed.

End NormalisationStep.

(** ** The forward pass *)

(** The first dropout of [forward] is overwritten before it is read:
    [fc1] is applied to the features themselves. *)
Lemma forward_hidden_unfold (m : MLP_NORM) (training : bool)
    (mask1 mask2 : list (list bool)) (x adj : matrix) :
  forward_hidden m training mask1 mask2 x adj
  = F_dropout mask2
      (mrelu (madd (mscale (delta m) (linear (fc1 m) x))
                   (mscale (nsub (Fin 1) (delta m)) (linear (fc3 m) adj))))
      (dropout m) training.
Proof. reflexivity. Qed.

Lemma forward_hidden_mask1 (m : MLP_NORM) (training : bool)
    (mask1 mask1' mask2 : list (list bool)) (x adj : matrix) :
  forward_hidden m training mask1 mask2 x adj
  = forward_hidden m training mask1' mask2 x adj.
Proof. reflexivity. Qed.

(** At evaluation time both dropouts are the identity and the code
    agrees with section 4.4. *)
Lemma forward_hidden_eval (m : MLP_NORM)
    (mask1 mask2 : list (list bool)) (x adj : matrix) :
  forward_hidden m false mask1 mask2 x adj
  = spec_forward_hidden m false mask1 mask2 x adj
  ∧ forward_hidden m false mask1 mask2 x adj
    = mrelu (madd (mscale (delta m) (linear (fc1 m) x))
                  (mscale (nsub (Fin 1) (delta m)) (linear (fc3 m) adj))).
Proof. split; reflexivity. Qed.

(** ** Quotients and the identity matrix *)

Lemma ndiv_Fin (q t : Qc) : t ≠ 0 → ndiv (Fin q) (Fin t) = Fin (q / t).
Proof. intros Ht. unfold ndiv. by rewrite decide_False. Qed.

Lemma lookup_eye (n i : nat) :
  (i < n)%nat →
  eye n !! i = Some ((λ j, if decide (i = j) then Fin 1 else Fin 0) <$> seq 0 n).
Proof.
  intros Hi. unfold eye. rewrite list_lookup_fmap, lookup_seq_lt by done. done.
Qed.

(** ** Row normalisation in binary64 *)











Section NormalizeProperties.

Variable np_sum : list PrimFloat.float → PrimFloat.float.






End NormalizeProperties.

(** ** Shapes and finiteness of matrix expressions *)

Lemma shape_ncols' n c (M : matrix) : shape n c M → (n = 0%nat → c = 0%nat) → ncols M = c.
Proof.
intros [Hn Hc] H0. destruct M as [|r M]; simpl in *; [by rewrite H0|].
by inversion Hc.
Qed.

Lemma shape_fmap n c (f : vec → vec) (M : matrix) :
shape n c M → (∀ r, length (f r) = length r) → shape n c (f <$> M).
Proof.
intros [Hn Hc] Hf. split; [by rewrite length_fmap|].
apply Forall_fmap. eapply Forall_impl; [exact Hc|].
intros r Hr. simpl. by rewrite Hf.
Qed.

Lemma shape_mscale n c k (M : matrix) : shape n c M → shape n c (mscale k M).
Proof. intros H. apply shape_fmap; [done|]. intros r. apply length_fmap. Qed.

Lemma shape_mm n (A B : matrix) : length A = n → shape n (ncols B) (mm A B).
Proof.
intros Hn. split; [by rewrite length_mm|].
apply Forall_fmap, Forall_forall. intros r _. simpl.
by rewrite length_fmap, length_transpose.
Qed.

Lemma length_column j (M : matrix) : length (column j M) = length M.
Proof. apply length_fmap. Qed.

Lemma shape_transpose n c (M : matrix) :
shape n c M → (n = 0%nat → c = 0%nat) → shape c n (transpose M).
Proof.
intros HM H0. pose proof (shape_ncols' _ _ _ HM H0) as Hc.
split; [by rewrite length_transpose|].
apply Forall_fmap, Forall_forall. intros j _. simpl.
rewrite length_column. apply HM.
Qed.

Lemma is_finite_nadd x y : is_finite x → is_finite y → is_finite (nadd x y).
Proof. by destruct x, y. Qed.

Lemma is_finite_nmul x y : is_finite x → is_finite y → is_finite (nmul x y).
Proof. by destruct x, y. Qed.

Lemma vfinite_zip_with (f : num → num → num) (u v : vec) :
(∀ x y, is_finite x → is_finite y → is_finite (f x y)) →
vfinite u → vfinite v → vfinite (zip_with f u v).
Proof.
intros Hf Hu. revert v. induction Hu as [|x u Hx _ IH]; intros v Hv; [constructor|].
destruct Hv as [|y v Hy Hv]; simpl; [constructor|].
constructor; [by apply Hf|by apply IH].
Qed.

Lemma foldl_nadd_finite (a : num) (l : vec) :
is_finite a → vfinite l → is_finite (foldl nadd a l).
Proof.
intros Ha Hl. revert a Ha. induction Hl as [|x l Hx _ IH]; intros a Ha; simpl; [done|].
apply IH. by apply is_finite_nadd.
Qed.

Lemma dot_finite (u v : vec) : vfinite u → vfinite v → is_finite (dot u v).
Proof.
intros Hu Hv. apply foldl_nadd_finite; [done|].
by apply vfinite_zip_with; [apply is_finite_nmul| |].
Qed.

Lemma vfinite_lookup_total (r : vec) j : vfinite r → is_finite (r !!! j).
Proof.
intros Hr. rewrite list_lookup_total_alt.
destruct (r !! j) as [x|] eqn:Hx; simpl; [|done].
by eapply Forall_lookup_1.
Qed.

Lemma mfinite_transpose (M : matrix) : mfinite M → mfinite (transpose M).
Proof.
intros HM. apply Forall_fmap, Forall_forall. intros j _. simpl.
apply Forall_fmap. eapply Forall_impl; [exact HM|].
intros r Hr. simpl. by apply vfinite_lookup_total.
Qed.

Lemma mfinite_mm (A B : matrix) : mfinite A → mfinite B → mfinite (mm A B).
Proof.
intros HA HB. apply Forall_fmap. eapply Forall_impl; [exact HA|].
intros r Hr. simpl. apply Forall_fmap.
eapply Forall_impl; [exact (mfinite_transpose B HB)|].
intros c Hc. simpl. by apply dot_finite.
Qed.

Lemma nmul_zero_l (x : num) : is_finite x → nmul (Fin 0) x = Fin 0.
Proof. destruct x; try done. intros _. simpl. f_equal. ring. Qed.

Lemma nmul_zero_r (x : num) : is_finite x → nmul x (Fin 0) = Fin 0.
Proof. destruct x; try done. intros _. simpl. f_equal. ring. Qed.

Lemma nadd_zero_l (x : num) : nadd (Fin 0) x = x.
Proof. destruct x; try done. simpl. f_equal. ring. Qed.

Lemma foldl_nadd_zeros (l : vec) :
Forall (λ a, a = Fin 0) l → foldl nadd (Fin 0) l = Fin 0.
Proof.
induction 1 as [|x l -> _ IH]; [done|].
change (foldl nadd (nadd (Fin 0) (Fin 0)) l = Fin 0).
by rewrite nadd_zero_l.
Qed.

(** ** Products of matrices with finite entries *)

Lemma nadd_assoc (x y z : num) : nadd (nadd x y) z = nadd x (nadd y z).
Proof. destruct x, y, z; simpl; try done. f_equal. ring. Qed.

Lemma nadd_zero_r (x : num) : nadd x (Fin 0) = x.
Proof. destruct x; try done. simpl. f_equal. ring. Qed.

Lemma nmul_nadd_distr (a x y : num) :
  is_finite a → is_finite x → is_finite y →
  nmul a (nadd x y) = nadd (nmul a x) (nmul a y).
Proof. destruct a, x, y; try done. intros _ _ _. simpl. f_equal. ring. Qed.

Lemma nmul_nadd_distr_r (x y w : num) :
  is_finite x → is_finite y → is_finite w →
  nmul (nadd x y) w = nadd (nmul x w) (nmul y w).
Proof. destruct x, y, w; try done. intros _ _ _. simpl. f_equal. ring. Qed.

Lemma foldl_nadd_start (a : num) (l : vec) :
  foldl nadd a l = nadd a (foldl nadd (Fin 0) l).
Proof.
  revert a. induction l as [|x l IH]; intros a.
  - simpl. by rewrite nadd_zero_r.
  - change (foldl nadd (nadd a x) l = nadd a (foldl nadd (nadd (Fin 0) x) l)).
    rewrite (IH (nadd a x)), (IH (nadd (Fin 0) x)), nadd_zero_l.
    apply nadd_assoc.
Qed.

Lemma dot_cons (x y : num) (u v : vec) :
  dot (x :: u) (y :: v) = nadd (nmul x y) (dot u v).
Proof.
  unfold dot.
  change (foldl nadd (nadd (Fin 0) (nmul x y)) (zip_with nmul u v)
          = nadd (nmul x y) (foldl nadd (Fin 0) (zip_with nmul u v))).
  by rewrite nadd_zero_l, foldl_nadd_start.
Qed.

Lemma dot_nil_l (v : vec) : dot [] v = Fin 0.
Proof. done. Qed.

Lemma dot_nil_r (u : vec) : dot u [] = Fin 0.
Proof. by destruct u. Qed.

Lemma fmap_lookup_total_seq (b : vec) :
  (λ j, b !!! j) <$> seq 0 (length b) = b.
Proof.
  apply list_eq. intros i. rewrite list_lookup_fmap.
  destruct (decide (i < length b)%nat) as [Hi|Hi].
  - rewrite lookup_seq_lt by done. simpl.
    destruct (lookup_lt_is_Some_2 b i Hi) as [x Hx].
    by rewrite (list_lookup_total_correct _ _ _ Hx), Hx.
  - rewrite lookup_seq_ge by lia. simpl. symmetry. apply lookup_ge_None. lia.
Qed.

Lemma vm_nil_l (c : nat) (B : matrix) : vm c [] B = replicate c (Fin 0).
Proof.
  unfold vm. generalize 0%nat. induction c as [|c IH]; intros s; simpl; [done|].
  by rewrite IH.
Qed.

Lemma vm_nil_r (c : nat) (r : vec) : vm c r [] = replicate c (Fin 0).
Proof.
  unfold vm. generalize 0%nat. induction c as [|c IH]; intros s; simpl; [done|].
  by rewrite IH, dot_nil_r.
Qed.

Lemma vm_cons (c : nat) (x : num) (r b : vec) (B : matrix) :
  length b = c → vm c (x :: r) (b :: B) = vadd (vscale x b) (vm c r B).
Proof.
  intros <-. unfold vm, vadd, vscale.
  trans (zip_with nadd (nmul x <$> ((λ j, b !!! j) <$> seq 0 (length b)))
           ((λ j, dot r (column j B)) <$> seq 0 (length b)));
    [|by rewrite fmap_lookup_total_seq].
  rewrite <- list_fmap_compose, zip_with_fmap_l, zip_with_fmap_r, zip_with_diag.
  apply list_fmap_ext. intros i j _. simpl. apply dot_cons.
Qed.

Lemma vm_lincomb (c : nat) (r : vec) (B : matrix) :
  Forall (λ b, length b = c) B → vm c r B = lincomb c r B.
Proof.
  intros HB. revert r. induction HB as [|b B Hb _ IH]; intros r.
  - destruct r; simpl; apply vm_nil_r.
  - destruct r as [|x r]; simpl; [apply vm_nil_l|].
    by rewrite vm_cons, IH.
Qed.

Lemma length_vm c r B : length (vm c r B) = c.
Proof. unfold vm. by rewrite length_fmap, length_seq. Qed.

Lemma mm_vm (A B : matrix) : mm A B = (λ r, vm (ncols B) r B) <$> A.
Proof.
  unfold mm, vm, transpose. apply list_fmap_ext. intros i r _. simpl.
  by rewrite <- list_fmap_compose.
Qed.

Lemma dot_vadd (u v w : vec) :
  length u = length v → vfinite u → vfinite v → vfinite w →
  dot (vadd u v) w = nadd (dot u w) (dot v w).
Proof.
  intros Hl Hu. revert v w Hl.
  induction Hu as [|x u Hx Hu IH]; intros v w Hl Hv Hw.
  - destruct v; [|done]. simpl. rewrite dot_nil_l. done.
  - destruct Hv as [|y v Hy Hv]; [done|].
    destruct Hw as [|z w Hz Hw].
    + by rewrite !dot_nil_r.
    + change (vadd (x :: u) (y :: v)) with (nadd x y :: vadd u v).
      rewrite !dot_cons, IH by (done || by injection Hl).
      rewrite nmul_nadd_distr_r by done.
      rewrite !nadd_assoc. f_equal.
      rewrite <- !nadd_assoc. f_equal.
      destruct (nmul y z), (dot u w); simpl; try done. f_equal. ring.
Qed.

Lemma dot_vscale (a : num) (u w : vec) :
  is_finite a → vfinite u → vfinite w →
  dot (vscale a u) w = nmul a (dot u w).
Proof.
  intros Ha Hu. revert w. induction Hu as [|x u Hx Hu IH]; intros w Hw.
  - simpl. rewrite dot_nil_l. symmetry. by apply nmul_zero_r.
  - destruct Hw as [|z w Hz Hw].
    + rewrite !dot_nil_r. symmetry. by apply nmul_zero_r.
    + change (vscale a (x :: u)) with (nmul a x :: vscale a u).
      rewrite !dot_cons, IH by done.
      rewrite nmul_nadd_distr; [|done|by apply is_finite_nmul|by apply dot_finite].
      f_equal. apply nmul_assoc.
Qed.

Lemma vfinite_column j (B : matrix) : mfinite B → vfinite (column j B).
Proof.
  intros HB. apply Forall_fmap. eapply Forall_impl; [exact HB|].
  intros r Hr. simpl. by apply vfinite_lookup_total.
Qed.

Lemma vm_vadd c (u v : vec) (B : matrix) :
  length u = length v → vfinite u → vfinite v → mfinite B →
  vm c (vadd u v) B = vadd (vm c u B) (vm c v B).
Proof.
  intros Hl Hu Hv HB. unfold vm at 2 3. unfold vadd at 2.
  rewrite zip_with_fmap_l, zip_with_fmap_r, zip_with_diag.
  apply list_fmap_ext. intros i j _. simpl.
  apply dot_vadd; try done. by apply vfinite_column.
Qed.

Lemma vm_vscale c (a : num) (u : vec) (B : matrix) :
  is_finite a → vfinite u → mfinite B →
  vm c (vscale a u) B = vscale a (vm c u B).
Proof.
  intros Ha Hu HB. unfold vm at 2. unfold vscale at 2.
  rewrite <- list_fmap_compose.
  apply list_fmap_ext. intros i j _. simpl.
  apply dot_vscale; try done. by apply vfinite_column.
Qed.

Lemma dot_zeros_l (w : vec) k : vfinite w → dot (replicate k (Fin 0)) w = Fin 0.
Proof.
  intros Hw. apply foldl_nadd_zeros.
  revert k. induction Hw as [|x w Hx _ IH]; intros [|k]; simpl; try constructor.
  - by apply nmul_zero_l.
  - apply IH.
Qed.

Lemma vm_zeros c c' (C : matrix) :
  mfinite C → vm c' (replicate c (Fin 0)) C = replicate c' (Fin 0).
Proof.
  intros HC. unfold vm.
  trans ((λ _ : nat, Fin 0) <$> seq 0 c').
  - apply list_fmap_ext. intros i j _. simpl.
    apply dot_zeros_l. by apply vfinite_column.
  - generalize 0%nat. induction c' as [|c' IH]; intros s; simpl; [done|].
    by rewrite IH.
Qed.

Lemma length_lincomb c (r : vec) (B : matrix) :
  Forall (λ b, length b = c) B → length (lincomb c r B) = c.
Proof.
  intros HB. rewrite <- vm_lincomb by done. apply length_vm.
Qed.

Lemma vfinite_vscale a (u : vec) : is_finite a → vfinite u → vfinite (vscale a u).
Proof.
  intros Ha Hu. apply Forall_fmap. eapply Forall_impl; [exact Hu|].
  intros x Hx. simpl. by apply is_finite_nmul.
Qed.

Lemma vfinite_vm c (r : vec) (B : matrix) :
  vfinite r → mfinite B → vfinite (vm c r B).
Proof.
  intros Hr HB. apply Forall_fmap, Forall_forall. intros j _. simpl.
  apply dot_finite; [done|by apply vfinite_column].
Qed.

Lemma vm_lincomb_assoc c c' (r : vec) (B C : matrix) :
  Forall (λ b, length b = c) B → vfinite r → mfinite B → mfinite C →
  vm c' (lincomb c r B) C = lincomb c' r ((λ b, vm c' b C) <$> B).
Proof.
  intros HB Hr. revert B HB.
  induction Hr as [|x r Hx Hr IH]; intros B HB HBf HC.
  - destruct B; simpl; by apply vm_zeros.
  - destruct HB as [|b B Hb HB]; [by apply vm_zeros|].
    inversion HBf as [|? ? Hbf HBf']; subst. simpl.
    rewrite vm_vadd, vm_vscale, IH; try done.
    + unfold vscale. rewrite length_fmap. by rewrite length_lincomb.
    + by apply vfinite_vscale.
    + rewrite <- vm_lincomb by done. by apply vfinite_vm.
Qed.

Lemma mm_assoc (A B C : matrix) :
  B ≠ [] → Forall (λ b, length b = ncols B) B →
  mfinite A → mfinite B → mfinite C →
  mm (mm A B) C = mm A (mm B C).
Proof.
  intros HBne HB HAf HBf HCf.
  rewrite (mm_vm (mm A B) C), (mm_vm A B), (mm_vm A (mm B C)).
  rewrite ncols_mm by done.
  rewrite <- list_fmap_compose. apply list_fmap_ext. intros i r Hr. simpl.
  assert (Hrf : vfinite r) by exact (Forall_lookup_1 _ _ _ _ HAf Hr).
  rewrite (vm_lincomb (ncols B)) by done.
  rewrite vm_lincomb_assoc by done.
  rewrite <- vm_lincomb.
  - by rewrite mm_vm.
  - apply Forall_fmap, Forall_forall. intros b _. simpl. apply length_vm.
Qed.

Lemma mpow_succ (A : matrix) (k : nat) :
  (1 ≤ k)%nat → mpow A (S k) = mm A (mpow A k).
Proof.
  intros Hk. unfold mpow. destruct k as [|k]; [lia|].
  simpl. by rewrite Nat.sub_0_r.
Qed.

Lemma mpow_shape_finite n (A : matrix) (k : nat) :
  (1 ≤ n)%nat → shape n n A → mfinite A →
  shape n n (mpow A k) ∧ mfinite (mpow A k).
Proof.
  intros Hn HA HAf. unfold mpow. induction (k - 1)%nat as [|j [IHs IHf]]; simpl.
  - done.
  - split; [|by apply mfinite_mm].
    pose proof (shape_mm n A (Nat.iter j (mm A) A) (proj1 HA)) as H.
    rewrite (shape_ncols n n) in H; [done|done|lia].
Qed.

Lemma apply_pow_mpow n (A R : matrix) (k : nat) :
  (1 ≤ n)%nat → shape n n A → mfinite A → mfinite R → (1 ≤ k)%nat →
  apply_pow A k R = mm (mpow A k) R.
Proof.
  intros Hn HA HAf HRf Hk. induction k as [|k IH]; [lia|].
  destruct (decide (k = 0%nat)) as [->|Hk0]; [done|].
  rewrite mpow_succ by lia.
  change (apply_pow A (S k) R) with (mm A (apply_pow A k R)).
  rewrite IH by lia.
  destruct (mpow_shape_finite n A k Hn HA HAf) as [[Hlen Hrows] Hf].
  symmetry. apply mm_assoc; try done.
  - intros Hnil. rewrite Hnil in Hlen. simpl in Hlen. lia.
  - rewrite (shape_ncols n n); [done|by split|lia].
Qed.

(** C2: strategy 1 returns [R + Σ_{k=1}^{K} A^k R], the raw residual
    included unweighted and followed by [K] terms; for [K = 0] it returns
    [R]; on matrices with finite entries [A^k R] is the product of the
    matrix power [A^k] with [R]. *)
Theorem order_func1_spec (m : MLP_NORM) (x R A : matrix) :
  order_func1 m x R A = spec_order1 A R (orders m)
  ∧ length ((λ k, apply_pow A k R) <$> seq 1 (orders m)) = orders m
  ∧ (orders m = 0%nat → order_func1 m x R A = R)
  ∧ (∀ n, (1 ≤ n)%nat → shape n n A → mfinite A → mfinite R →
       order_func1 m x R A
       = foldl madd R ((λ k, mm (mpow A k) R) <$> seq 1 (orders m))).
Proof.
  split; [apply order_func1_unfold|]. split; [|split].
  - by rewrite length_fmap, length_seq.
  - apply order_func1_orders0.
  - intros n Hn HA HAf HRf. rewrite order_func1_unfold. unfold spec_order1.
    f_equal. apply list_fmap_ext. intros i k Hk. simpl.
    apply lookup_seq in Hk as [-> _].
    apply (apply_pow_mpow n); try done. lia.
Qed.

Lemma nmul_comm (x y : num) : nmul x y = nmul y x.
Proof. destruct x, y; simpl; try done. f_equal. ring. Qed.

(** ** Properties of the store operations *)

Section StoreProperties.

Context {tensor : Type}.
Implicit Types (h : gmap loc tensor) (sd : state_dict).

Lemma write_all_frame h sd vals l :
  l ∉ locs sd → write_all h sd vals !! l = h !! l.
Proof.
  unfold write_all. generalize (locs sd) as ls. intros ls. revert h vals.
  induction ls as [|l0 ls IH]; intros h vals Hl; [done|].
  destruct vals as [|v vals]; [done|]. simpl.
  rewrite IH by set_solver. apply lookup_insert_ne. set_solver.
Qed.

Lemma write_all_dom h sd vals l :
  l ∈ dom h → l ∈ dom (write_all h sd vals).
Proof.
  unfold write_all. generalize (locs sd) as ls. intros ls. revert h vals.
  induction ls as [|l0 ls IH]; intros h vals Hl; [done|].
  destruct vals as [|v vals]; [done|]. simpl.
  apply IH. rewrite dom_insert. set_solver.
Qed.

Lemma read_cons h k l sd :
  read h ((k, l) :: sd)
  = match h !! l with Some t => (k, t) :: read h sd | None => read h sd end.
Proof. unfold read. simpl. by destruct (h !! l). Qed.

Lemma read_ext h h' sd :
  (∀ l, l ∈ locs sd → h' !! l = h !! l) → read h' sd = read h sd.
Proof.
  induction sd as [|[k l] sd IH]; intros Hl; [done|].
  rewrite !read_cons, (Hl l) by (unfold locs; set_solver).
  rewrite IH; [done|]. intros l' Hl'. apply Hl. unfold locs in *. set_solver.
Qed.

Lemma deepcopy_spec sd : ∀ h h' copy,
  (∀ l, l ∈ locs sd → l ∈ dom h) →
  deepcopy h sd = (h', copy) →
  (∀ l, l ∈ dom h → h' !! l = h !! l)
  ∧ (∀ l, l ∈ locs copy → l ∉ dom h ∧ l ∈ dom h')
  ∧ read h' copy = read h sd.
Proof.
  induction sd as [|[k l] sd IH]; intros h h' copy Hal Hd; simpl in Hd.
  { injection Hd as <- <-. split; [done|]. split; [|done].
    intros l Hl. by apply elem_of_nil in Hl. }
  destruct (h !! l) as [t|] eqn:Hl.
  2:{ exfalso. apply not_elem_of_dom in Hl. apply Hl, Hal. set_solver. }
  set (l' := fresh (dom h)) in *.
  assert (Hfresh : l' ∉ dom h) by apply is_fresh.
  destruct (deepcopy (<[l':=t]> h) sd) as [h1 copy1] eqn:Hd1.
  injection Hd as <- <-.
  assert (Hal1 : ∀ l0, l0 ∈ locs sd → l0 ∈ dom (<[l':=t]> h)).
  { intros l0 H0. rewrite dom_insert. apply elem_of_union_r, Hal. set_solver. }
  destruct (IH _ _ _ Hal1 Hd1) as (Hfr & Hnew & Hrd).
  assert (Hl' : h1 !! l' = Some t).
  { rewrite Hfr; [apply lookup_insert_eq|]. rewrite dom_insert. set_solver. }
  split; [|split].
  - intros l0 H0. rewrite Hfr by (rewrite dom_insert; set_solver).
    apply lookup_insert_ne. intros ->. done.
  - intros l0 H0. unfold locs in H0. simpl in H0.
    apply elem_of_cons in H0 as [->|H0].
    + split; [done|]. apply elem_of_dom. by eexists.
    + destruct (Hnew l0 H0) as [Hn1 Hn2]. split; [|done].
      intros Hin. apply Hn1. rewrite dom_insert. set_solver.
  - rewrite !read_cons, Hl', Hl, Hrd. f_equal.
    apply read_ext. intros l0 H0. apply lookup_insert_ne.
    intros <-. apply Hfresh, Hal. unfold locs in *. set_solver.
Qed.

End StoreProperties.

(** ** Properties of the training loop *)

Section TrainingProperties.

Context {tensor logits : Type}.
Variable c : Trainer tensor logits.

Implicit Types (s : loop_state tensor) (h : gmap loc tensor).

Lemma extends_refl h : extends c h h.
Proof. by split. Qed.

Lemma extends_trans h1 h2 h3 : extends c h1 h2 → extends c h2 h3 → extends c h1 h3.
Proof.
  intros [Hd1 Hf1] [Hd2 Hf2]. split; [by auto|].
  intros l Hl Hn. rewrite Hf2, Hf1; auto.
Qed.

Lemma extends_write_all h vals : extends c h (write_all h (live c) vals).
Proof.
  split; [intros l; apply write_all_dom|].
  intros l _ Hn. by apply write_all_frame.
Qed.

Lemma train_and_eval_extends epoch s h mv :
  train_and_eval c epoch s = Some (h, mv) → extends c (heap s) h.
Proof.
  unfold train_and_eval. cbv zeta. intros H.
  destruct (forward_train c _ _) as [o|]; simpl in H; [|done].
  destruct (metric_train c o) as [mt|]; simpl in H; [|done].
  destruct (if fastmode c then _ else _) as [o'|]; simpl in H; [|done].
  injection H as <- _. apply extends_write_all.
Qed.

Lemma live_alloc_extends h h' : extends c h h' → live_alloc c h → live_alloc c h'.
Proof. intros [Hd _] Ha l Hl. by apply Hd, Ha. Qed.

Lemma epoch_body_observe epoch s h v :
  train_and_eval c epoch s = Some (h, Some v) →
  epoch_body c epoch s
  = if decide (early_stopping c ≤ patience (observe c s h v))%Z
    then Break (observe c s h v) else Continue (observe c s h v).
Proof. intros H. unfold epoch_body. rewrite H. done. Qed.

Lemma epoch_body_metric_error epoch s h :
  train_and_eval c epoch s = Some (h, None) →
  epoch_body c epoch s
  = Break {| heap := h; best_metric := best_metric s;
             patience := patience s; best_params := best_params s;
             epochs_run := S (epochs_run s) |}.
Proof. intros H. unfold epoch_body. by rewrite H. Qed.

Lemma observe_extends s h v :
  live_alloc c h → extends c h (heap (observe c s h v)).
Proof.
  intros Ha. unfold observe. case_decide; [|apply extends_refl].
  destruct (deepcopy h (live c)) as [h' copy] eqn:Hd. simpl.
  destruct (deepcopy_spec (live c) h h' copy Ha Hd) as (Hfr & Hnew & _).
  split; [|by auto].
  intros l Hl. apply elem_of_dom. rewrite Hfr by done. by apply elem_of_dom.
Qed.

Lemma epoch_body_extends epoch s s' :
  live_alloc c (heap s) →
  epoch_body c epoch s = Break s' ∨ epoch_body c epoch s = Continue s' →
  extends c (heap s) (heap s') ∧ epochs_run s' = S (epochs_run s).
Proof.
  intros Ha Hb.
  destruct (train_and_eval c epoch s) as [[h [v|]]|] eqn:Hte.
  - pose proof (train_and_eval_extends _ _ _ _ Hte) as Hext.
    rewrite (epoch_body_observe _ _ _ _ Hte) in Hb.
    assert (s' = observe c s h v) as ->.
    { case_decide; destruct Hb as [Hb|Hb]; congruence. }
    split.
    + eapply extends_trans; [exact Hext|].
      apply observe_extends. by eapply live_alloc_extends.
    + clear. unfold observe. destruct (decide _); [|done].
      by destruct (deepcopy h (live c)).
  - pose proof (train_and_eval_extends _ _ _ _ Hte) as Hext.
    rewrite (epoch_body_metric_error _ _ _ Hte) in Hb.
    destruct Hb as [[= <-]|[=]]. by split.
  - unfold epoch_body in Hb. rewrite Hte in Hb. by destruct Hb as [?|?].
Qed.

Lemma train_loop_extends idx : ∀ s s',
  live_alloc c (heap s) → train_loop c idx s = Some s' →
  extends c (heap s) (heap s')
  ∧ (epochs_run s ≤ epochs_run s' ≤ epochs_run s + length idx)%nat.
Proof.
  induction idx as [|e idx IH]; intros s s' Ha Hl; simpl in Hl.
  { injection Hl as <-. split; [apply extends_refl|lia]. }
  destruct (epoch_body c e s) as [|s1|s1] eqn:Hb; [done| |].
  - injection Hl as <-.
    destruct (epoch_body_extends e s s1 Ha (or_introl Hb)) as [Hext Hrun].
    split; [done|]. simpl. lia.
  - destruct (epoch_body_extends e s s1 Ha (or_intror Hb)) as [Hext Hrun].
    destruct (IH s1 s' (live_alloc_extends _ _ Hext Ha) Hl) as [Hext' Hrun'].
    split; [by eapply extends_trans|]. simpl. lia.
Qed.

Lemma read_extends h h' sd :
  extends c h h' → (∀ l, l ∈ locs sd → l ∈ dom h ∧ l ∉ locs (live c)) →
  read h' sd = read h sd.
Proof.
  intros [_ Hf] Hsd. apply read_ext. intros l Hl.
  destruct (Hsd l Hl). by apply Hf.
Qed.

(** C9: a validation metric that raises ends the loop at once; the
    exception does not leave the loop and no later epoch runs. *)
Theorem metric_error_breaks (epoch : nat) (idx : list nat) s h :
  train_and_eval c epoch s = Some (h, None) →
  train_loop c (epoch :: idx) s
  = Some {| heap := h; best_metric := best_metric s;
            patience := patience s; best_params := best_params s;
            epochs_run := S (epochs_run s) |}.
Proof. intros H. simpl. by rewrite (epoch_body_metric_error _ _ _ H). Qed.

(** C8: the snapshot is taken exactly when the validation metric
    strictly exceeds [best_metric]; it holds the contents of the live
    parameters in fresh locations, and neither an optimizer step nor any
    later part of the loop changes what it holds. *)
Theorem snapshot_isolated :
  (∀ epoch s h v,
     live_alloc c (heap s) →
     train_and_eval c epoch s = Some (h, Some v) →
     ∃ s', (epoch_body c epoch s = Break s' ∨ epoch_body c epoch s = Continue s')
       ∧ (best_metric s < v →
            ∃ copy, best_params s' = Some copy ∧ best_metric s' = v
              ∧ read (heap s') copy = read h (live c)
              ∧ (∀ l, l ∈ locs copy → l ∈ dom (heap s') ∧ l ∉ locs (live c)))
       ∧ (¬ best_metric s < v →
            best_params s' = best_params s ∧ best_metric s' = best_metric s))
  ∧ (∀ h sd vals,
       (∀ l, l ∈ locs sd → l ∉ locs (live c)) →
       read (write_all h (live c) vals) sd = read h sd)
  ∧ (∀ idx s s' sd,
       live_alloc c (heap s) →
       (∀ l, l ∈ locs sd → l ∈ dom (heap s) ∧ l ∉ locs (live c)) →
       train_loop c idx s = Some s' →
       read (heap s') sd = read (heap s) sd).
Proof.
  split; [|split].
  - intros epoch s h v Ha Hte. exists (observe c s h v). split; [|split].
    + rewrite (epoch_body_observe _ _ _ _ Hte). case_decide; auto.
    + intros Hlt. unfold observe. rewrite decide_True by done.
      destruct (deepcopy h (live c)) as [h' copy] eqn:Hd. simpl.
      assert (Ha' : live_alloc c h).
      { eapply live_alloc_extends; [|exact Ha].
        by eapply train_and_eval_extends. }
      destruct (deepcopy_spec (live c) h h' copy Ha' Hd) as (Hfr & Hnew & Hrd).
      exists copy. repeat split; try done.
      * by apply Hnew.
      * intros Hl. destruct (Hnew l H) as [Hn _]. by apply Hn, Ha'.
    + intros Hlt. unfold observe. by rewrite decide_False.
  - intros h sd vals Hsd. apply read_ext. intros l Hl.
    apply write_all_frame. by apply Hsd.
  - intros idx s s' sd Ha Hsd Hl.
    destruct (train_loop_extends idx s s' Ha Hl) as [Hext _].
    by apply read_extends.
Qed.

(** Epochs whose validation metric does not exceed [best_metric]: the
    counter grows by one per epoch until it reaches the limit [p] or the
    indices run out. *)
Lemma stagnation (p : nat) (b : Qc) :
  early_stopping c = Z.of_nat p →
  ∀ (n e j : nat) s,
    (∀ k st, (e ≤ k)%nat → best_metric st = b →
       ∃ h v, train_and_eval c k st = Some (h, Some v) ∧ ¬ b < v) →
    best_metric s = b → patience s = Z.of_nat j → (j < p)%nat →
    ∃ s', train_loop c (seq e n) s = Some s'
      ∧ epochs_run s' = (epochs_run s + n `min` (p - j))%nat
      ∧ patience s' = Z.of_nat (j + n `min` (p - j))
      ∧ best_metric s' = b ∧ best_params s' = best_params s.
Proof.
  intros Hp. induction n as [|n IH]; intros e j s Hseq Hb Hj Hjp.
  { exists s. simpl. rewrite !Nat.add_0_r. done. }
  destruct (Hseq e s (le_n e) Hb) as (h & v & Hte & Hv).
  remember (S n `min` (p - j))%nat as mn eqn:Hmn.
  simpl. rewrite (epoch_body_observe _ _ _ _ Hte).
  assert (Ho : observe c s h v
               = {| heap := h; best_metric := best_metric s;
                    patience := (patience s + 1)%Z;
                    best_params := best_params s;
                    epochs_run := S (epochs_run s) |}).
  { unfold observe. rewrite decide_False; [done|by rewrite Hb]. }
  rewrite Ho. cbn [patience]. case_decide as Hstop.
  - eexists. split; [done|]. cbn [epochs_run patience best_metric best_params].
    repeat split; try done; lia.
  - destruct (IH (S e) (S j)
                {| heap := h; best_metric := best_metric s;
                   patience := (patience s + 1)%Z;
                   best_params := best_params s;
                   epochs_run := S (epochs_run s) |})
      as (s' & Hl & Hrun & Hpat & Hbest & Hpar).
    + intros k st Hk. apply Hseq. lia.
    + done.
    + cbn [patience]. lia.
    + lia.
    + exists s'. split; [done|].
      cbn [epochs_run patience best_metric best_params] in *.
      repeat split; try done; lia.
Qed.

(** C7: the counter is reset by a strict improvement and incremented by
    any other evaluation; the loop breaks as soon as the counter reaches
    the limit and then runs no further epoch; so, when the metric does
    not improve any more, the loop halts exactly [early_stopping]
    evaluations after the last improvement, unless the epochs run out
    first. *)
Theorem early_stopping_exact :
  (∀ epoch s h v,
     train_and_eval c epoch s = Some (h, Some v) →
     ∃ s', patience s'
           = (if decide (best_metric s < v) then 0%Z else (patience s + 1)%Z)
       ∧ epochs_run s' = S (epochs_run s)
       ∧ epoch_body c epoch s
         = if decide (early_stopping c ≤ patience s')%Z
           then Break s' else Continue s')
  ∧ (∀ epoch s h v,
       (early_stopping c ≤ 0)%Z → (0 ≤ patience s)%Z →
       train_and_eval c epoch s = Some (h, Some v) →
       ∃ s', epoch_body c epoch s = Break s')
  ∧ (∀ epoch idx s s',
       epoch_body c epoch s = Break s' →
       train_loop c (epoch :: idx) s = Some s')
  ∧ (∀ (p n e : nat) s,
       early_stopping c = Z.of_nat p → (1 ≤ p)%nat →
       patience s = 0%Z →
       (∀ k st, (e ≤ k)%nat → best_metric st = best_metric s →
          ∃ h v, train_and_eval c k st = Some (h, Some v)
                 ∧ ¬ best_metric s < v) →
       ∃ s', train_loop c (seq e n) s = Some s'
         ∧ best_metric s' = best_metric s
         ∧ best_params s' = best_params s
         ∧ ((p ≤ n)%nat →
              epochs_run s' = (epochs_run s + p)%nat
              ∧ patience s' = Z.of_nat p)
         ∧ ((n < p)%nat →
              epochs_run s' = (epochs_run s + n)%nat
              ∧ patience s' = Z.of_nat n)).
Proof.
  split; [|split; [|split]].
  - intros epoch s h v Hte. exists (observe c s h v).
    split; [|split].
    + unfold observe. case_decide; [|done]. by destruct (deepcopy h (live c)).
    + unfold observe. case_decide; [|done]. by destruct (deepcopy h (live c)).
    + by apply epoch_body_observe.
  - intros epoch s h v Hes Hpat Hte. exists (observe c s h v).
    rewrite (epoch_body_observe _ _ _ _ Hte). rewrite decide_True; [done|].
    unfold observe. destruct (decide _); [|simpl; lia].
    destruct (deepcopy h (live c)). simpl. lia.
  - intros epoch idx s s' Hb. simpl. by rewrite Hb.
  - intros p n e s Hp Hp1 Hpat Hseq.
    destruct (stagnation p (best_metric s) Hp n e 0%nat s Hseq eq_refl Hpat)
      as (s' & Hl & Hrun & Hpat' & Hbest & Hpar); [lia|].
    exists s'. split; [done|]. split; [done|]. split; [done|].
    rewrite Nat.sub_0_r in Hrun, Hpat'. simpl in Hpat'.
    split; intros Hn.
    + by rewrite Nat.min_r in Hrun, Hpat' by lia.
    + by rewrite Nat.min_l in Hrun, Hpat' by lia.
Qed.

End TrainingProperties.

(** X4: a validation metric that raises in the first epoch ends the loop with
    no snapshot, and loading the best parameters then raises. *)
Theorem first_epoch_metric_error {tensor logits : Type} (c : Trainer tensor logits)
    (h h1 : gmap loc tensor) :
  (1 ≤ epochs c)%nat →
  train_and_eval c 0 (init_state h) = Some (h1, None) →
  ∃ s, train c h = Some s ∧ best_params s = None ∧ load_best c s = None.
Proof.
  intros He Hte. unfold train. destruct (epochs c) as [|n]; [lia|].
  simpl. unfold epoch_body. rewrite Hte. eexists. split; [done|]. by split.
Qed.

(** ** Propagation strategies 2 and 3 in closed form *)

Lemma weighted_loop {W : Type} `{Inhabited W} (ws : list W)
    (scale : matrix → W → matrix) (A R : matrix) (n : nat) : ∀ j acc,
  (j + n ≤ length ws)%nat →
  for_each (λ i '(tmp_orders, sum_orders),
              let tmp_orders := spmm A tmp_orders in
              wi ← ws !! i;
              Some (tmp_orders, madd sum_orders (scale tmp_orders wi)))
           (seq j n) (apply_pow A j R, acc)
  = Some (apply_pow A (j + n) R,
          foldl madd acc ((λ k, scale (apply_pow A (S k) R) (ws !!! k)) <$> seq j n)).
Proof.
  induction n as [|n IH]; intros j acc Hlen.
  - simpl. by rewrite Nat.add_0_r.
  - cbn [seq for_each]. cbv zeta.
    destruct (lookup_lt_is_Some_2 ws j) as [wj Hwj]; [lia|].
    rewrite Hwj. cbn [mbind option_bind].
    change (spmm A (apply_pow A j R)) with (apply_pow A (S j) R).
    rewrite IH by lia. cbn [fmap list_fmap foldl].
    rewrite (list_lookup_total_correct _ _ _ Hwj).
    by rewrite Nat.add_succ_r.
Qed.

Lemma order_func2_unfold (m : MLP_NORM) (x R A : matrix) :
  (1 ≤ orders m)%nat → (orders m ≤ length (orders_weight m))%nat →
  order_func2 m x R A = Some (spec_order2 A R (orders_weight m) (orders m)).
Proof.
  intros Hk Hlen. unfold order_func2, spec_order2. cbv zeta.
  destruct (lookup_lt_is_Some_2 (orders_weight m) 0%nat) as [w0 Hw0]; [lia|].
  rewrite Hw0. cbn [mbind option_bind].
  change (spmm A R) with (apply_pow A 1 R).
  rewrite (weighted_loop (orders_weight m) mscale_r A R (orders m - 1) 1) by lia.
  cbn [mbind option_bind snd].
  by rewrite (list_lookup_total_correct _ _ _ Hw0).
Qed.

(** X5: with [1 ≤ orders ≤ len(orders_weight)] strategy 2 returns
    [Σ_{k=1}^{orders} (A^k R) · orders_weight[k-1]], the terms added in
    increasing order of [k] and each [A^k R] obtained by [k] sparse
    products; for a square finite [A] and a finite [R] the terms are the
    products of the matrix powers [A^k] with [R]. *)
Theorem order_func2_spec (m : MLP_NORM) (x R A : matrix) :
  (1 ≤ orders m)%nat → (orders m ≤ length (orders_weight m))%nat →
  order_func2 m x R A = Some (spec_order2 A R (orders_weight m) (orders m))
  ∧ (∀ n, (1 ≤ n)%nat → shape n n A → mfinite A → mfinite R →
       order_func2 m x R A
       = Some (foldl madd (mscale_r (mm (mpow A 1) R) (orders_weight m !!! 0%nat))
                 ((λ k, mscale_r (mm (mpow A (S k)) R) (orders_weight m !!! k))
                    <$> seq 1 (orders m - 1)))).
Proof.
  intros Hk Hlen. split; [by apply order_func2_unfold|].
  intros n Hn HA HAf HRf. rewrite order_func2_unfold by done.
  assert (Hpow : ∀ k, (1 ≤ k)%nat → apply_pow A k R = mm (mpow A k) R).
  { intros k Hk1. by apply (apply_pow_mpow n). }
  unfold spec_order2. rewrite (Hpow 1%nat) by lia. do 2 f_equal.
  apply list_fmap_ext. intros i k Hi. cbv beta. rewrite (Hpow (S k)); [done|lia].
Qed.

Lemma order_func3_unfold (m : MLP_NORM) (x R A : matrix) :
  (1 ≤ orders m)%nat → shape (orders m) (orders m) (orders_weight_matrix2 m) →
  x ≠ [] →
  order_func3 m x R A = Some (spec_order3 A R (orders_para m x) (orders m)).
Proof.
  intros Hk HW2 Hx. unfold order_func3, spec_order3. cbv zeta.
  fold (orders_para m x).
  assert (HP : length (orders_para m x) = orders m).
  { unfold orders_para. rewrite length_transpose, ncols_mm.
    - apply (shape_ncols _ _ _ HW2). lia.
    - by apply mrelu_nonempty, mm_nonempty. }
  destruct (lookup_lt_is_Some_2 (orders_para m x) 0%nat) as [p0 Hp0]; [lia|].
  rewrite Hp0. cbn [mbind option_bind].
  change (spmm A R) with (apply_pow A 1 R).
  rewrite (weighted_loop (orders_para m x) (λ T p, mul_rows p T) A R
             (orders m - 1) 1) by lia.
  cbn [mbind option_bind snd].
  by rewrite (list_lookup_total_correct _ _ _ Hp0).
Qed.

Lemma shape_orders_para (m : MLP_NORM) (x : matrix) :
  shape (orders m) (orders m) (orders_weight_matrix2 m) → x ≠ [] →
  (1 ≤ orders m)%nat →
  shape (orders m) (length x) (orders_para m x).
Proof.
  intros HW2 Hx Hk. unfold orders_para. split.
  - rewrite length_transpose, ncols_mm.
    + apply (shape_ncols _ _ _ HW2). lia.
    + by apply mrelu_nonempty, mm_nonempty.
  - unfold transpose. apply Forall_fmap, Forall_forall. intros j _. simpl.
    rewrite length_column. rewrite length_mm. unfold mrelu.
    by rewrite length_fmap, length_mm.
Qed.

(** X6: with [orders ≥ 1], [orders_weight_matrix2] of shape
    [(orders, orders)] and at least one node, strategy 3 returns
    [Σ_{k=1}^{orders} diag(p_{k-1}) · (A^k R)], where row [k] of
    [p = (relu(x W) W2)^T] holds one weight per node: [p] has shape
    [(orders, number of nodes)]. *)
Theorem order_func3_spec (m : MLP_NORM) (x R A : matrix) :
  (1 ≤ orders m)%nat → shape (orders m) (orders m) (orders_weight_matrix2 m) →
  x ≠ [] →
  order_func3 m x R A = Some (spec_order3 A R (orders_para m x) (orders m))
  ∧ shape (orders m) (length x) (orders_para m x).
Proof.
  intros Hk HW2 Hx. split; [by apply order_func3_unfold|].
  by apply shape_orders_para.
Qed.

Lemma nmul_one_r (v : num) : nmul v (Fin 1) = v.
Proof.
  destruct v; simpl; try done.
  - f_equal. ring.
Qed.

(** ** Shapes through the normalisation step and the forward pass *)

Lemma shape_zip_with n c (f : num → num → num) (A B : matrix) :
  shape n c A → shape n c B → shape n c (zip_with (zip_with f) A B).
Proof.
  intros [HnA HcA] [HnB HcB]. split.
  - rewrite length_zip_with. lia.
  - clear HnA HnB. revert B HcB.
    induction HcA as [|a A Ha _ IH]; intros B HcB; [constructor|].
    destruct HcB as [|b B Hb HcB]; simpl; constructor.
    + rewrite length_zip_with. lia.
    + by apply IH.
Qed.

Lemma shape_madd n c (A B : matrix) :
  shape n c A → shape n c B → shape n c (madd A B).
Proof. apply shape_zip_with. Qed.

Lemma shape_msub n c (A B : matrix) :
  shape n c A → shape n c B → shape n c (msub A B).
Proof. apply shape_zip_with. Qed.

Lemma shape_mscale_r n c (M : matrix) k : shape n c M → shape n c (mscale_r M k).
Proof. intros H. apply shape_fmap; [done|]. intros r. apply length_fmap. Qed.

Lemma shape_mul_cols n c (M : matrix) (d : vec) :
  shape n c M → length d = c → shape n c (mul_cols M d).
Proof.
  intros [Hn Hc] Hd. split; [unfold mul_cols; by rewrite length_fmap|].
  apply Forall_fmap. eapply Forall_impl; [exact Hc|].
  intros r Hr. simpl in *. rewrite length_zip_with. lia.
Qed.

Lemma shape_mul_rows n c (d : vec) (M : matrix) :
  shape n c M → length d = n → shape n c (mul_rows d M).
Proof.
  intros [Hn Hc] Hd. unfold mul_rows. split.
  - rewrite length_zip_with. lia.
  - clear Hn Hd. revert d. induction Hc as [|r M Hr _ IH]; intros [|a d]; simpl;
      constructor; [by rewrite length_fmap|apply IH].
Qed.

Lemma shape_mm' n k c (A B : matrix) :
  shape n k A → shape k c B → (k = 0%nat → c = 0%nat) → shape n c (mm A B).
Proof.
  intros [HnA _] HB H0. rewrite <- (shape_ncols' _ _ _ HB H0).
  by apply shape_mm.
Qed.

Lemma shape_apply_pow n c (A R : matrix) (k : nat) :
  (1 ≤ n)%nat → shape n n A → shape n c R → shape n c (apply_pow A k R).
Proof.
  intros Hn HA HR. induction k as [|k IH]; [done|].
  change (apply_pow A (S k) R) with (mm A (apply_pow A k R)).
  apply (shape_mm' n n c); try done. lia.
Qed.

Lemma shape_foldl_madd n c (a : matrix) (l : list matrix) :
  shape n c a → Forall (shape n c) l → shape n c (foldl madd a l).
Proof.
  intros Ha Hl. revert a Ha. induction Hl as [|t l Ht _ IH]; intros a Ha; [done|].
  simpl. apply IH. by apply shape_madd.
Qed.

Lemma shape_order_func (m : MLP_NORM) (x R A s : matrix) (n c : nat) :
  model_wf m → (1 ≤ n)%nat → length x = n → shape n n A → shape n c R →
  order_func m x R A = Some s → shape n c s.
Proof.
  intros Hwf Hn Hx HA HR. unfold order_func.
  assert (Hxne : x ≠ []) by (intros ->; simpl in Hx; lia).
  destruct (decide (orders m = 0%nat)) as [H0|H0].
  { repeat case_decide.
    - intros [= <-]. rewrite order_func1_orders0; done.
    - rewrite order_func2_orders0; [done|].
      apply length_zero_iff_nil. by rewrite (wf_orders_weight m Hwf).
    - rewrite order_func3_orders0; [done|].
      apply length_zero_iff_nil. destruct (wf_matrix2 m Hwf) as [Hl _]. lia. }
  repeat case_decide.
  - intros [= <-]. rewrite order_func1_unfold. unfold spec_order1.
    apply shape_foldl_madd; [done|].
    apply Forall_fmap, Forall_forall. intros k _. cbv beta.
    by apply shape_apply_pow.
  - rewrite order_func2_unfold; [|lia|by rewrite (wf_orders_weight m Hwf)].
    intros [= <-]. unfold spec_order2.
    apply shape_foldl_madd.
    + by apply shape_mscale_r, shape_apply_pow.
    + apply Forall_fmap, Forall_forall. intros k _. cbv beta.
      by apply shape_mscale_r, shape_apply_pow.
  - pose proof (wf_matrix2 m Hwf) as HW2.
    rewrite order_func3_unfold; [|lia|done|done].
    intros [= <-]. unfold spec_order3.
    destruct (shape_orders_para m x HW2 Hxne) as [HPn HPc]; [lia|].
    assert (HP : ∀ k, (k < orders m)%nat → length (orders_para m x !!! k) = n).
    { intros k Hk.
      destruct (lookup_lt_is_Some_2 (orders_para m x) k) as [p Hp]; [lia|].
      rewrite (list_lookup_total_correct _ _ _ Hp).
      rewrite <- Hx. exact (Forall_lookup_1 _ _ _ _ HPc Hp). }
    apply shape_foldl_madd.
    + apply shape_mul_rows; [by apply shape_apply_pow|]. apply HP. lia.
    + apply Forall_fmap, Forall_forall. intros k Hk. cbv beta.
      apply elem_of_seq in Hk.
      apply shape_mul_rows; [by apply shape_apply_pow|]. apply HP. lia.
Qed.

Lemma inverse_exact_shape (M inv : matrix) :
  inverse_exact M = Some inv → shape (length M) (length M) inv.
Proof.
  unfold inverse_exact. cbv zeta. repeat case_decide; try done.
  intros [= <-]. split.
  - by rewrite length_fmap, length_seq.
  - apply Forall_fmap, Forall_forall. intros i _. simpl.
    by rewrite length_fmap, length_seq.
Qed.

Section NormShape.

Variable inverse : matrix → option matrix.

(** [torch.inverse] returns a matrix of the shape of its (square) argument. *)
Hypothesis inverse_shape :
  ∀ M inv, inverse M = Some inv → shape (length M) (length M) inv.

Lemma shape_norm_update (m : MLP_NORM) (x h0 res s : matrix) (n c : nat)
    (k1 k2 k3 k4 : num) (f : matrix → matrix) :
  (1 ≤ n)%nat → shape n c x → shape n c h0 → shape n c res → shape n c s →
  (∀ M, shape c c M → shape c c (f M)) →
  shape n c (madd (msub (madd (mscale k1 (mm x (f (mm (transpose x) res))))
                              (mscale k2 s))
                        (mscale k3 (mm h0 (f (mm (transpose x) res)))))
                  (mscale k4 h0)).
Proof.
  intros Hn Hx Hh0 Hres Hs Hf.
  assert (Htmp : shape c c (f (mm (transpose x) res))).
  { apply Hf. apply (shape_mm' c n c); [|done|lia].
    apply shape_transpose; [done|lia]. }
  apply shape_madd; [|by apply shape_mscale].
  apply shape_msub.
  - apply shape_madd; apply shape_mscale; [|done].
    by apply (shape_mm' n c c).
  - apply shape_mscale. by apply (shape_mm' n c c).
Qed.

Lemma shape_corrected (m : MLP_NORM) (x inv : matrix) (n c : nat) (k1 k2 : num) :
  (1 ≤ n)%nat → shape n c x → shape c c inv →
  shape n c (msub (mscale k1 x)
                  (mscale k2 (mm x (mm inv (mm (transpose x) x))))).
Proof.
  intros Hn Hx Hinv. apply shape_msub; apply shape_mscale; [done|].
  apply (shape_mm' n c c); [done| |done].
  apply (shape_mm' c c c); [done| |done].
  apply (shape_mm' c n c); [|done|lia].
  apply shape_transpose; [done|lia].
Qed.

Lemma length_ridge (m : MLP_NORM) (x : matrix) (n c : nat) (k1 k2 : num) :
  (1 ≤ n)%nat → shape n c x → class_eye m = eye c →
  length (madd (mscale k1 (class_eye m)) (mscale k2 (mm (transpose x) x))) = c.
Proof.
  intros Hn Hx Heye. unfold madd, mscale.
  rewrite length_zip_with, !length_fmap, length_mm, length_transpose, Heye.
  unfold eye. rewrite length_fmap, length_seq.
  rewrite (shape_ncols' _ _ _ Hx) by lia. lia.
Qed.

(** A normalisation step keeps the shape of the class scores. *)
Lemma norm_preserves_shape (m : MLP_NORM) (x h0 adj r : matrix) (n : nat) :
  model_wf m → (1 ≤ n)%nat →
  shape n (nclass m) x → shape n (nclass m) h0 → shape n n adj →
  norm inverse m x h0 adj = Some r →
  shape n (nclass m) r.
Proof.
  intros Hwf Hn Hx Hh0 Hadj. unfold norm.
  pose proof (wf_class_eye m Hwf) as Heye.
  case_decide.
  - unfold norm_func1. cbv zeta.
    destruct (inverse _) as [inv|] eqn:Hinv; [|done].
    apply inverse_shape in Hinv.
    rewrite (length_ridge m x n (nclass m)) in Hinv by done.
    cbn [mbind option_bind].
    destruct (order_func _ _ _ _) as [s|] eqn:Hs; [|done].
    cbn [mbind option_bind]. intros [= <-].
    apply (shape_order_func m x _ adj s n (nclass m)) in Hs;
      [|done|done|apply Hx|done|by apply shape_corrected].
    apply (shape_norm_update m x h0 _ s n (nclass m) _ _ _ _ (λ M, M));
      try done.
    by apply shape_corrected.
  - rewrite norm_func2_split. unfold norm_func2_no_z. cbv zeta.
    destruct (inverse _) as [inv|] eqn:Hinv; [|done].
    apply inverse_shape in Hinv.
    rewrite (length_ridge m x n (nclass m)) in Hinv by done.
    cbn [mbind option_bind].
    pose proof (wf_diag_weight m Hwf) as Hd.
    assert (Hcor : shape n (nclass m)
      (mul_cols
         (msub (mscale (nmul (nsub (Fin 1) (gamma m))
                             (ndiv (Fin 1) (nadd (alpha m) (beta m)))) x)
            (mscale (nmul (nmul (nsub (Fin 1) (gamma m))
                                (ndiv (Fin 1) (nadd (alpha m) (beta m))))
                          (ndiv (Fin 1) (nadd (alpha m) (beta m))))
               (mm x (mm inv (mm (transpose x) x)))))
         (diag_weight m))).
    { apply shape_mul_cols; [|done]. by apply shape_corrected. }
    destruct (order_func _ _ _ _) as [s|] eqn:Hs; [|done].
    cbn [mbind option_bind].
    destruct (z_block inverse m x h0 adj) as [z|]; [|done].
    cbn [mbind option_bind]. intros [= <-].
    apply (shape_order_func m x _ adj s n (nclass m)) in Hs;
      [|done|done|apply Hx|done|done].
    apply (shape_norm_update m x h0 _ s n (nclass m) _ _ _ _
             (mul_rows (diag_weight m))); try done.
    intros M HM. by apply shape_mul_rows.
Qed.

End NormShape.

Lemma shape_linear (l : Linear) (x : matrix) (n f h : nat) :
  (1 ≤ f)%nat → (1 ≤ h)%nat → linear_wf l f h → shape n f x →
  shape n h (linear l x).
Proof.
  intros Hf Hh [HW Hb] Hx. unfold linear.
  assert (Hmm : shape n h (mm x (transpose (weight l)))).
  { apply (shape_mm' n f h); [done| |lia].
    apply shape_transpose; [done|lia]. }
  destruct Hmm as [Hn Hc]. split; [by rewrite length_fmap|].
  apply Forall_fmap. eapply Forall_impl; [exact Hc|].
  intros r Hr. simpl in *. rewrite length_zip_with. lia.
Qed.

Lemma shape_F_dropout (mask : list (list bool)) (x : matrix) (p : num)
    (training : bool) (n c : nat) :
  shape n c x →
  (training = true → length mask = n ∧ Forall (λ r, length r = c) mask) →
  shape n c (F_dropout mask x p training).
Proof.
  intros [Hn Hc] Hm. unfold F_dropout. destruct training; [|done].
  destruct (Hm eq_refl) as [Hmn Hmc]. split.
  - rewrite length_zip_with. lia.
  - clear Hn Hmn Hm. revert x Hc.
    induction Hmc as [|mr mask Hmr _ IH]; intros x Hc; [constructor|].
    destruct Hc as [|r x Hr Hc]; simpl; constructor.
    + rewrite length_zip_with. lia.
    + by apply IH.
Qed.

Section ForwardShape.

Variable inverse : matrix → option matrix.
Variable log_softmax : matrix → matrix.

Hypothesis inverse_shape :
  ∀ M inv, inverse M = Some inv → shape (length M) (length M) inv.

Lemma norm_layers_shape (m : MLP_NORM) (h0 adj : matrix) (n : nat) (idx : list nat) :
  model_wf m → (1 ≤ n)%nat → shape n (nclass m) h0 → shape n n adj →
  ∀ x x', shape n (nclass m) x →
    for_each (λ _ x, norm inverse m x h0 adj) idx x = Some x' →
    shape n (nclass m) x'.
Proof.
  intros Hwf Hn Hh0 Hadj. induction idx as [|i idx IH]; intros x x' Hx Hrun.
  { simpl in Hrun. by injection Hrun as <-. }
  cbn [for_each] in Hrun.
  destruct (norm inverse m x h0 adj) as [x1|] eqn:Hstep; [|done].
  cbn [mbind option_bind] in Hrun. apply (IH x1 x'); [|done].
  by apply (norm_preserves_shape inverse inverse_shape m x h0 adj x1 n).
Qed.

(** X1: the forward pass keeps the shape of the class scores.  For a model
    built by [__init__] with [fc1 : nfeat → nhid], [fc2 : nhid → nclass] and
    [fc3 : n → nhid], features of shape [(n, nfeat)] and an adjacency of
    shape [(n, n)], whatever [forward] returns is [log_softmax] of a matrix
    of shape [(n, nclass)], for both normalisation variants, the three
    propagation strategies and any number of layers.  [torch.inverse] is
    taken to return a matrix of the shape of its argument. *)
Theorem forward_shape (m : MLP_NORM) (training : bool)
    (mask1 mask2 : list (list bool)) (x adj out : matrix) (n nfeat nhid : nat) :
  model_wf m → (1 ≤ n)%nat → (1 ≤ nfeat)%nat → (1 ≤ nhid)%nat →
  (1 ≤ nclass m)%nat →
  linear_wf (fc1 m) nfeat nhid → linear_wf (fc2 m) nhid (nclass m) →
  linear_wf (fc3 m) n nhid →
  shape n nfeat x → shape n n adj →
  (training = true → length mask2 = n ∧ Forall (λ r, length r = nhid) mask2) →
  forward inverse log_softmax m training mask1 mask2 x adj = Some out →
  ∃ logits, out = log_softmax logits ∧ shape n (nclass m) logits.
Proof.
  intros Hwf Hn Hf Hh Hc H1 H2 H3 Hx Hadj Hmask. unfold forward. cbv zeta.
  assert (Hhid : shape n nhid (forward_hidden m training mask1 mask2 x adj)).
  { rewrite forward_hidden_unfold. apply shape_F_dropout; [|done].
    apply shape_fmap; [|intros r; apply length_fmap].
    apply shape_madd; apply shape_mscale.
    - by apply (shape_linear _ _ n nfeat nhid).
    - by apply (shape_linear _ _ n n nhid). }
  assert (Hh0 : shape n (nclass m)
                  (linear (fc2 m) (forward_hidden m training mask1 mask2 x adj))).
  { by apply (shape_linear _ _ n nhid (nclass m)). }
  destruct (for_each _ _ _) as [x'|] eqn:Hrun; [|done].
  cbn [mbind option_bind]. intros [= <-]. exists x'. split; [done|].
  by apply (norm_layers_shape m _ adj n _ Hwf Hn Hh0 Hadj _ x' Hh0 Hrun).
Qed.

End ForwardShape.

(** ** The step at [gamma = 1] *)

Lemma nadd_nan_r (x : num) : nadd x NaN = NaN.
Proof. by destruct x. Qed.

Lemma nsub_nan_r (x : num) : nsub x NaN = NaN.
Proof. by destruct x. Qed.

Lemma nmul_nan_r (x : num) : nmul x NaN = NaN.
Proof. by destruct x. Qed.

Lemma foldl_nadd_nan_acc (l : vec) : foldl nadd NaN l = NaN.
Proof. induction l as [|y l IH]; [done|]. simpl. exact IH. Qed.

Lemma foldl_nadd_nan (l : vec) : ∀ a, NaN ∈ l → foldl nadd a l = NaN.
Proof.
  induction l as [|y l IH]; intros a Hin; [by apply elem_of_nil in Hin|].
  apply elem_of_cons in Hin as [<-|Hin]; cbn [foldl].
  - rewrite nadd_nan_r. apply foldl_nadd_nan_acc.
  - by apply IH.
Qed.

Lemma dot_nan_l (u v : vec) (k : nat) :
  u !! k = Some NaN → (k < length v)%nat → dot u v = NaN.
Proof.
  intros Hu Hk. unfold dot. apply foldl_nadd_nan.
  destruct (lookup_lt_is_Some_2 v k Hk) as [y Hy].
  apply (list_elem_of_lookup_2 _ k). rewrite lookup_zip_with, Hu, Hy. done.
Qed.

Lemma dot_nan_r (u v : vec) (k : nat) :
  v !! k = Some NaN → (k < length u)%nat → dot u v = NaN.
Proof.
  intros Hv Hk. unfold dot. apply foldl_nadd_nan.
  destruct (lookup_lt_is_Some_2 u k Hk) as [x Hx].
  apply (list_elem_of_lookup_2 _ k). rewrite lookup_zip_with, Hx, Hv. simpl.
  by rewrite nmul_nan_r.
Qed.

Lemma shape_nans n c : shape n c (nans n c).
Proof.
  split; [apply length_replicate|]. apply Forall_replicate, length_replicate.
Qed.

Lemma fmap_const_replicate {A B : Type} (f : A → B) (b : B) (l : list A) :
  (∀ a, a ∈ l → f a = b) → f <$> l = replicate (length l) b.
Proof.
  induction l as [|a l IH]; intros Hf; [done|]. simpl. f_equal.
  - apply Hf. by left.
  - apply IH. intros a' Ha'. apply Hf. by right.
Qed.

Lemma nans_unique n c (M : matrix) :
  length M = n → (∀ r, r ∈ M → r = replicate c NaN) → M = nans n c.
Proof.
  intros <- Hr. unfold nans. rewrite <- (list_fmap_id M) at 1.
  by apply fmap_const_replicate.
Qed.

(** A row of the left factor that holds a NaN gives a row of NaN. *)
Lemma mm_row_nan (r : vec) (B : matrix) (k : nat) :
  r !! k = Some NaN → (k < length B)%nat →
  (λ c, dot r c) <$> transpose B = replicate (ncols B) NaN.
Proof.
  intros Hr Hk. rewrite <- (length_transpose B).
  apply fmap_const_replicate. intros col Hcol. unfold transpose in Hcol.
  apply list_elem_of_fmap in Hcol as (j & -> & _).
  apply (dot_nan_l _ _ k); [done|]. by rewrite length_column.
Qed.

(** A row of NaN in the right factor gives a product of NaN. *)
Lemma mm_nans_r (A B : matrix) (n k c i0 : nat) :
  shape n k A → shape k c B → (i0 < k)%nat →
  B !! i0 = Some (replicate c NaN) → mm A B = nans n c.
Proof.
  intros [HAn HAk] HB Hi Hrow.
  assert (Hc : ncols B = c) by (apply (shape_ncols k); [done|lia]).
  apply nans_unique; [by rewrite length_mm|].
  intros row Hin. unfold mm in Hin. apply list_elem_of_fmap in Hin as (r & -> & Hr).
  rewrite Forall_forall in HAk. specialize (HAk r Hr). simpl in HAk.
  rewrite <- Hc, <- (length_transpose B).
  apply fmap_const_replicate. intros col Hcol. unfold transpose in Hcol.
  apply list_elem_of_fmap in Hcol as (j & -> & Hj). apply elem_of_seq in Hj.
  apply (dot_nan_r _ _ i0); [|lia].
  unfold column. rewrite list_lookup_fmap, Hrow. simpl. f_equal.
  apply list_lookup_total_correct, lookup_replicate_2. lia.
Qed.

Lemma mscale_nans k n c : mscale k (nans n c) = nans n c.
Proof.
  unfold mscale, nans. rewrite fmap_replicate. f_equal.
  rewrite fmap_replicate. by rewrite nmul_nan_r.
Qed.

Lemma zip_with_nans_l (f : num → num → num) (n c : nat) (B : matrix) :
  (∀ y, f NaN y = NaN) → shape n c B →
  zip_with (zip_with f) (nans n c) B = nans n c.
Proof.
  intros Hf [Hn Hc]. subst n. unfold nans.
  induction Hc as [|r B Hr _ IH]; [done|]. simpl. f_equal; [|exact IH].
  clear IH. revert c Hr. induction r as [|y r IHr]; intros c <-; [done|].
  simpl. f_equal; [apply Hf|by apply IHr].
Qed.

Lemma zip_with_nans_r (f : num → num → num) (n c : nat) (B : matrix) :
  (∀ x, f x NaN = NaN) → shape n c B →
  zip_with (zip_with f) B (nans n c) = nans n c.
Proof.
  intros Hf [Hn Hc]. subst n. unfold nans.
  induction Hc as [|r B Hr _ IH]; [done|]. simpl. f_equal; [|exact IH].
  clear IH. revert c Hr. induction r as [|y r IHr]; intros c <-; [done|].
  simpl. f_equal; [apply Hf|by apply IHr].
Qed.

Lemma nans_not_finite (n c : nat) (M : matrix) :
  (1 ≤ n)%nat → (1 ≤ c)%nat → mfinite M → M ≠ nans n c.
Proof.
  intros Hn Hc Hf ->. destruct n as [|n]; [lia|]. destruct c as [|c]; [lia|].
  unfold nans in Hf. simpl in Hf.
  apply Forall_cons in Hf as [Hr _]. apply Forall_cons in Hr as [H _]. done.
Qed.
Section GammaOne.

Variable inverse : matrix → option matrix.

(** The off-diagonal entries of the matrix that is inverted. *)
Lemma ridge_gamma1 (a b : num) (C : nat) (X : matrix) (i j : nat) :
  (i < C)%nat → (j < C)%nat → i ≠ j →
  length (spec_gram X) = C → Forall (λ r, length r = C) (spec_gram X) →
  ∃ r, spec_ridge a b (Fin 1) C X !! i = Some r ∧ r !! j = Some NaN.
Proof.
  intros Hi Hj Hij HG HGc. unfold spec_ridge, madd.
  destruct (lookup_lt_is_Some_2 (spec_gram X) i) as [g Hg]; [lia|].
  assert (Hgl : length g = C).
  { rewrite Forall_forall in HGc. apply HGc. by eapply list_elem_of_lookup_2. }
  destruct (lookup_lt_is_Some_2 g j) as [y Hy]; [lia|].
  eexists. split.
  - rewrite lookup_zip_with. unfold mscale.
    rewrite !list_lookup_fmap, lookup_eye, Hg by done.
    cbn [fmap option_fmap option_map mbind option_bind]. reflexivity.
  - rewrite lookup_zip_with, !list_lookup_fmap, lookup_seq_lt by done.
    rewrite Hy. cbn [fmap option_fmap option_map mbind option_bind].
    rewrite decide_False by done.
    assert (Hinf : nmul (spec_coe2 (Fin 1)) (spec_coe2 (Fin 1)) = PInf).
    { apply (bool_decide_unpack _). vm_compute. exact I. }
    rewrite Hinf. done.
Qed.

Lemma norm_func1_nan_inverse (m : MLP_NORM) (X H0 A inv : matrix) (N : nat) :
  model_wf m → (1 ≤ N)%nat → (1 ≤ nclass m)%nat →
  shape N (nclass m) X → shape N (nclass m) H0 → shape N N A →
  inverse (spec_ridge (alpha m) (beta m) (gamma m) (nclass m) X) = Some inv →
  shape (nclass m) (nclass m) inv → has_nan inv →
  norm_func1 inverse m X H0 A
  = (_ ← order_func m X (nans N (nclass m)) A; Some (nans N (nclass m))).
Proof.
  intros Hwf HN HC HX HH0 HA Hinv Hinvs (i0 & j0 & r0 & Hr0 & Hnan).
  unfold norm_func1. cbv zeta. rewrite (wf_class_eye m Hwf).
  change (inverse _) with
    (inverse (spec_ridge (alpha m) (beta m) (gamma m) (nclass m) X)).
  rewrite Hinv. cbn [mbind option_bind].
  set (C := nclass m) in *.
  assert (HXn : length X = N) by apply HX.
  assert (HtX : shape C N (transpose X)) by (apply shape_transpose; [done|lia]).
  assert (HG : shape C C (mm (transpose X) X)).
  { pose proof (shape_mm C (transpose X) X (proj1 HtX)) as H.
    rewrite (shape_ncols' N C X) in H; [done|done|lia]. }
  assert (Hi0 : (i0 < C)%nat).
  { apply lookup_lt_Some in Hr0. by rewrite (proj1 Hinvs) in Hr0. }
  assert (Hr0l : length r0 = C).
  { destruct Hinvs as [_ Hc]. rewrite Forall_forall in Hc. apply Hc.
    by eapply list_elem_of_lookup_2. }
  assert (Hj0 : (j0 < C)%nat).
  { apply lookup_lt_Some in Hnan. by rewrite Hr0l in Hnan. }
  assert (HiG : shape C C (mm inv (mm (transpose X) X))).
  { pose proof (shape_mm C inv (mm (transpose X) X) (proj1 Hinvs)) as H.
    rewrite (shape_ncols' C C) in H; done. }
  assert (HiGrow : mm inv (mm (transpose X) X) !! i0 = Some (replicate C NaN)).
  { unfold mm at 1. rewrite list_lookup_fmap, Hr0. simpl. f_equal.
    rewrite (mm_row_nan r0 _ j0); [|done|by rewrite (proj1 HG)].
    by rewrite (shape_ncols' C C _ HG). }
  assert (HY : mm X (mm inv (mm (transpose X) X)) = nans N C).
  { by apply (mm_nans_r _ _ N C C i0). }
  rewrite HY, mscale_nans.
  assert (Hcor : ∀ k, msub (mscale k X) (nans N C) = nans N C).
  { intros k. unfold msub. apply zip_with_nans_r; [apply nsub_nan_r|].
    by apply shape_mscale. }
  rewrite Hcor.
  assert (Hrow0 : nans N C !! 0%nat = Some (replicate C NaN)).
  { unfold nans. apply lookup_replicate_2. lia. }
  assert (Htmp : mm (transpose X) (nans N C) = nans C C).
  { apply (mm_nans_r _ _ C N C 0); [done|apply shape_nans|lia|done]. }
  rewrite Htmp.
  assert (Hrow0' : nans C C !! 0%nat = Some (replicate C NaN)).
  { unfold nans. apply lookup_replicate_2. lia. }
  rewrite (mm_nans_r X (nans C C) N C C 0) by (done || apply shape_nans || lia).
  rewrite (mm_nans_r H0 (nans C C) N C C 0) by (done || apply shape_nans || lia).
  destruct (order_func m X (nans N C) A) as [s|] eqn:Hs; [|done].
  cbn [mbind option_bind]. f_equal.
  assert (Hss : shape N C s).
  { apply (shape_order_func m X (nans N C) A s N C); try done. apply shape_nans. }
  rewrite !mscale_nans. unfold madd, msub.
  rewrite (zip_with_nans_l nadd N C) by (done || by apply shape_mscale).
  rewrite (zip_with_nans_l nsub N C) by (done || apply shape_nans).
  by rewrite (zip_with_nans_l nadd N C) by (done || by apply shape_mscale).
Qed.

(** C4 (amended): with [gamma = 1] and at least two classes, whatever
    [alpha], [beta], [X], [H0] and [A] are, the matrix handed to
    [torch.inverse] holds NaN at every off-diagonal position
    ([coe2 = 1/0] is infinite and multiplies the zeros of the identity).
    When the inversion fails so does the step; when it returns a matrix that
    holds a NaN, every entry of the result of the step is NaN (provided the
    propagation returns): the update does not collapse to a finite [H0]. *)
Theorem norm_func1_gamma1 (m : MLP_NORM) (X H0 A : matrix) (N : nat) :
  model_wf m → gamma m = Fin 1 → (1 ≤ N)%nat → (2 ≤ nclass m)%nat →
  shape N (nclass m) X → shape N (nclass m) H0 → shape N N A →
  (∀ i j, (i < nclass m)%nat → (j < nclass m)%nat → i ≠ j →
     ∃ r, spec_ridge (alpha m) (beta m) (gamma m) (nclass m) X !! i = Some r
          ∧ r !! j = Some NaN)
  ∧ (inverse (spec_ridge (alpha m) (beta m) (gamma m) (nclass m) X) = None →
     norm_func1 inverse m X H0 A = None)
  ∧ (∀ inv,
       inverse (spec_ridge (alpha m) (beta m) (gamma m) (nclass m) X) = Some inv →
       shape (nclass m) (nclass m) inv → has_nan inv →
       norm_func1 inverse m X H0 A
       = (_ ← order_func m X (nans N (nclass m)) A; Some (nans N (nclass m)))
       ∧ (mfinite H0 → norm_func1 inverse m X H0 A ≠ Some H0)).
Proof.
  intros Hwf Hg HN HC HX HH0 HA.
  assert (HtX : shape (nclass m) N (transpose X)) by (apply shape_transpose; [done|lia]).
  assert (HG : shape (nclass m) (nclass m) (spec_gram X)).
  { unfold spec_gram.
    pose proof (shape_mm (nclass m) (transpose X) X (proj1 HtX)) as H.
    rewrite (shape_ncols' N (nclass m) X) in H; [done|done|lia]. }
  split; [|split].
  - intros i j Hi Hj Hij. rewrite Hg.
    by apply ridge_gamma1; [..|apply HG|apply HG].
  - intros Hnone. unfold norm_func1. cbv zeta. rewrite (wf_class_eye m Hwf).
    change (inverse _) with
      (inverse (spec_ridge (alpha m) (beta m) (gamma m) (nclass m) X)).
    by rewrite Hnone.
  - intros inv Hinv Hinvs Hnan.
    assert (Heq := norm_func1_nan_inverse m X H0 A inv N Hwf HN ltac:(lia)
                     HX HH0 HA Hinv Hinvs Hnan).
    split; [done|]. intros Hfin. rewrite Heq.
    destruct (order_func m X (nans N (nclass m)) A); [|done].
    cbn [mbind option_bind]. intros [= Habs].
    by apply (nans_not_finite N (nclass m) H0 ltac:(lia) ltac:(lia) Hfin).
Qed.

End GammaOne.

(** ** Variant 2 without propagation orders *)

Lemma norm_func2_orders0 (inverse : matrix → option matrix)
    (m : MLP_NORM) (x h0 adj : matrix) :
  orders_weight m = [] → norm_func2 inverse m x h0 adj = None.
Proof.
  intros Hw. rewrite norm_func2_split.
  destruct (norm_func2_no_z inverse m x h0 adj); [|done].
  cbn [mbind option_bind]. unfold z_block. cbv zeta. by rewrite Hw.
Qed.

Lemma norm_variant2_orders0 (inverse : matrix → option matrix)
    (m : MLP_NORM) (x h0 adj : matrix) :
  model_wf m → orders m = 0%nat → norm_func_id m ≠ 1%Z →
  norm inverse m x h0 adj = None.
Proof.
  intros Hwf H0 Hid. unfold norm. rewrite decide_False by done.
  apply norm_func2_orders0.
  apply length_zero_iff_nil. by rewrite (wf_orders_weight m Hwf).
Qed.

(** X8: with [orders = 0], a normalisation variant other than 1 and at
    least one layer, [forward] raises for every input and in both modes:
    [norm_func2] indexes the empty [orders_weight]. *)
Theorem forward_variant2_orders0 (inverse : matrix → option matrix)
    (log_softmax : matrix → matrix) (m : MLP_NORM) (training : bool)
    (mask1 mask2 : list (list bool)) (x adj : matrix) :
  model_wf m → orders m = 0%nat → norm_func_id m ≠ 1%Z →
  (1 ≤ norm_layers m)%nat →
  forward inverse log_softmax m training mask1 mask2 x adj = None.
Proof.
  intros Hwf H0 Hid Hl. unfold forward. cbv zeta.
  destruct (norm_layers m) as [|L]; [lia|].
  cbn [seq for_each]. by rewrite norm_variant2_orders0.
Qed.

(** ** The graph convolution and the [GCN] model *)

Lemma vscale_one (b : vec) : vscale (Fin 1) b = b.
Proof.
  unfold vscale. rewrite <- (list_fmap_id b) at 2.
  apply list_fmap_ext. intros i v _. cbv beta.
  rewrite nmul_comm. apply nmul_one_r.
Qed.

Lemma vscale_zero (b : vec) : vfinite b → vscale (Fin 0) b = replicate (length b) (Fin 0).
Proof.
  induction 1 as [|v b Hv _ IH]; [done|].
  cbn [vscale fmap list_fmap length replicate].
  rewrite nmul_zero_l by done. f_equal. apply IH.
Qed.

Lemma vadd_zeros_l (v : vec) : vadd (replicate (length v) (Fin 0)) v = v.
Proof.
  induction v as [|a v IH]; [done|].
  cbn [length replicate vadd zip_with]. rewrite nadd_zero_l. f_equal. apply IH.
Qed.

Lemma vadd_zeros_r (v : vec) : vadd v (replicate (length v) (Fin 0)) = v.
Proof.
  induction v as [|a v IH]; [done|].
  cbn [length replicate vadd zip_with]. rewrite nadd_zero_r. f_equal. apply IH.
Qed.

Lemma lincomb_unit (c i : nat) (M : matrix) : ∀ s,
  Forall (λ b, length b = c) M → mfinite M →
  lincomb c ((λ j, if decide (i = j) then Fin 1 else Fin 0) <$> seq s (length M)) M
  = if decide (s ≤ i < s + length M)%nat
    then default (replicate c (Fin 0)) (M !! (i - s)%nat)
    else replicate c (Fin 0).
Proof.
  induction M as [|b M IH]; intros s Hlen Hfin.
  { simpl. case_decide; [lia|done]. }
  inversion Hlen as [|? ? Hb HM]; inversion Hfin as [|? ? Hbf HMf]; subst.
  cbn [length seq fmap list_fmap lincomb].
  rewrite (IH (S s)) by done.
  destruct (decide (i = s)) as [->|Hne].
  - rewrite decide_False by lia. rewrite decide_True by lia.
    rewrite Nat.sub_diag. simpl. rewrite vscale_one. apply vadd_zeros_r.
  - rewrite vscale_zero by done.
    destruct (decide (S s ≤ i < S s + length M)%nat) as [Hin|Hout].
    + rewrite decide_True by lia.
      replace (i - s)%nat with (S (i - S s)) by lia. simpl.
      destruct (lookup_lt_is_Some_2 M (i - S s)) as [r Hr]; [lia|].
      rewrite Hr. simpl.
      assert (Hrl : length r = length b) by exact (Forall_lookup_1 _ _ _ _ HM Hr).
      rewrite <- Hrl. apply vadd_zeros_l.
    + rewrite decide_False by lia.
      rewrite <- (length_replicate (length b) (Fin 0)) at 1.
      apply vadd_zeros_l.
Qed.

Lemma mm_eye_l (n c : nat) (M : matrix) :
  shape n c M → mfinite M → mm (eye n) M = M.
Proof.
  intros [Hn Hc] Hf. rewrite mm_vm. apply list_eq. intros i.
  rewrite list_lookup_fmap.
  destruct (decide (i < n)%nat) as [Hi|Hi].
  - rewrite lookup_eye by done. simpl.
    destruct (lookup_lt_is_Some_2 M i) as [r Hr]; [lia|].
    rewrite Hr. f_equal.
    assert (HcM : ncols M = c).
    { apply (shape_ncols n); [by split|lia]. }
    rewrite HcM, vm_lincomb by done.
    rewrite <- Hn. rewrite (lincomb_unit c i M 0) by done.
    rewrite decide_True by lia. by rewrite Nat.sub_0_r, Hr.
  - rewrite (proj2 (lookup_ge_None _ _)).
    + simpl. symmetry. apply lookup_ge_None. lia.
    + unfold eye. rewrite length_fmap, length_seq. lia.
Qed.

Lemma vfinite_zip_with_nadd (u v : vec) :
  vfinite u → vfinite v → vfinite (zip_with nadd u v).
Proof. intros. by apply vfinite_zip_with; [apply is_finite_nadd| |]. Qed.

Lemma mfinite_add_bias (b : option vec) (M : matrix) :
  mfinite M → (∀ v, b = Some v → vfinite v) → mfinite (add_bias b M).
Proof.
  intros HM Hb. destruct b as [v|]; [|done]. simpl.
  apply Forall_fmap. eapply Forall_impl; [exact HM|].
  intros r Hr. simpl. apply vfinite_zip_with_nadd; [done|by apply Hb].
Qed.

Lemma shape_add_bias n c (b : option vec) (M : matrix) :
  shape n c M → (∀ v, b = Some v → length v = c) → shape n c (add_bias b M).
Proof.
  intros HM Hb. destruct b as [v|]; [|done]. simpl.
  destruct HM as [Hn Hc]. split; [by rewrite length_fmap|].
  apply Forall_fmap. eapply Forall_impl; [exact Hc|].
  intros r Hr. simpl in *. rewrite length_zip_with, (Hb v) by done. lia.
Qed.

Lemma mfinite_mrelu (M : matrix) : mfinite M → mfinite (mrelu M).
Proof.
  intros HM. apply Forall_fmap. eapply Forall_impl; [exact HM|].
  intros r Hr. simpl. apply Forall_fmap. eapply Forall_impl; [exact Hr|].
  intros v Hv. simpl. destruct v; try done. simpl. by case_decide.
Qed.

Lemma shape_mrelu n c (M : matrix) : shape n c M → shape n c (mrelu M).
Proof. intros H. apply shape_fmap; [done|]. intros r. apply length_fmap. Qed.

Lemma GraphConvolution_forward_eye (l : GraphConvolution) (input : matrix) (n c : nat) :
  length input = n → shape (ncols input) c (gc_weight l) → (ncols input = 0%nat → c = 0%nat) →
  mfinite input → mfinite (gc_weight l) →
  GraphConvolution_forward l input (eye n) = dense l input.
Proof.
  intros Hn HW H0 Hi Hw. unfold GraphConvolution_forward, dense. cbv zeta.
  f_equal. unfold spmm. apply (mm_eye_l n c); [|by apply mfinite_mm].
  rewrite <- (shape_ncols' _ _ _ HW H0). by apply shape_mm.
Qed.

(** X10: on the identity adjacency the [GCN] in evaluation mode is a
    two-layer perceptron: it returns
    [log_softmax(relu(x W1 + b1) W2 + b2)] for finite inputs and weights of
    matching shapes (the bias of the second layer is not constrained). *)
Theorem GCN_forward_identity_adj (log_softmax : matrix → matrix) (m : GCN)
    (mask : list (list bool)) (x : matrix) (n f h c : nat) :
  (1 ≤ f)%nat → (1 ≤ h)%nat →
  shape n f x → shape f h (gc_weight (gc1 m)) → shape h c (gc_weight (gc2 m)) →
  (∀ b, gc_bias (gc1 m) = Some b → length b = h ∧ vfinite b) →
  mfinite x → mfinite (gc_weight (gc1 m)) → mfinite (gc_weight (gc2 m)) →
  GCN_forward log_softmax m false mask x (eye n)
  = log_softmax (dense (gc2 m) (mrelu (dense (gc1 m) x))).
Proof.
  intros Hf Hh Hx HW1 HW2 Hb1 Hxf HW1f HW2f. unfold GCN_forward. cbv zeta.
  f_equal. unfold F_dropout.
  destruct (decide (n = 0%nat)) as [->|Hn0].
  { destruct Hx as [Hx _]. apply length_zero_iff_nil in Hx. subst x.
    unfold GraphConvolution_forward, dense, add_bias.
    by destruct (gc_bias (gc1 m)), (gc_bias (gc2 m)). }
  assert (Hcx : ncols x = f) by (apply (shape_ncols n); [done|lia]).
  assert (E1 : GraphConvolution_forward (gc1 m) x (eye n) = dense (gc1 m) x).
  { apply (GraphConvolution_forward_eye _ _ n h); try done.
    - apply Hx.
    - by rewrite Hcx.
    - lia. }
  rewrite E1.
  assert (Hd : shape n h (dense (gc1 m) x) ∧ mfinite (dense (gc1 m) x)).
  { unfold dense. split.
    - apply shape_add_bias; [|by intros v Hv; apply Hb1].
      apply (shape_mm' n f h); [done|done|lia].
    - apply mfinite_add_bias; [by apply mfinite_mm|by intros v Hv; apply Hb1]. }
  destruct Hd as [Hds Hdf].
  assert (Hch : ncols (mrelu (dense (gc1 m) x)) = h).
  { apply (shape_ncols n); [by apply shape_mrelu|lia]. }
  apply (GraphConvolution_forward_eye _ _ n c).
  - rewrite <- (proj1 Hds). unfold mrelu. by rewrite length_fmap.
  - by rewrite Hch.
  - lia.
  - by apply mfinite_mrelu.
  - done.
Qed.

(** ** Accuracy *)

Lemma argmax_from_lt {A : Type} (better : A → A → bool) (r : list A) :
  ∀ best bv i, (best < i)%nat →
    (argmax_from better best bv i r < i + length r)%nat.
Proof.
  induction r as [|a r IH]; intros best bv i Hb; simpl; [lia|].
  destruct (better a bv).
  - specialize (IH i a (S i)). lia.
  - specialize (IH best bv (S i)). lia.
Qed.

Lemma argmax_from_first_max (r : list Qc) : ∀ (pre : list Qc) best m,
  pre !! best = Some m →
  (∀ j x, pre !! j = Some x → x ≤ m) →
  (∀ j x, pre !! j = Some x → (j < best)%nat → x < m) →
  first_max (pre ++ r)
    (argmax_from float_better best (Fin m) (length pre) (Fin <$> r)).
Proof.
  induction r as [|a r IH]; intros pre best m Hb Hle Hlt.
  - simpl. rewrite app_nil_r. by exists m.
  - cbn [fmap list_fmap argmax_from float_better].
    replace (pre ++ a :: r) with ((pre ++ [a]) ++ r) by (by rewrite <- app_assoc).
    replace (S (length pre)) with (length (pre ++ [a]))
      by (rewrite length_app; simpl; lia).
    case_bool_decide as Hma.
    + apply IH.
      * rewrite lookup_app_r by lia.
        by rewrite Nat.sub_diag.
      * intros j x Hj. apply lookup_app_Some in Hj as [Hj|[_ Hj]].
        -- apply Qclt_le_weak. eapply Qcle_lt_trans; [|exact Hma]. by eapply Hle.
        -- apply list_lookup_singleton_Some in Hj as [_ <-]. apply Qcle_refl.
      * intros j x Hj Hjl. apply lookup_app_Some in Hj as [Hj|[Hge _]]; [|lia].
        eapply Qcle_lt_trans; [|exact Hma]. by eapply Hle.
    + apply IH.
      * apply lookup_app_l_Some. done.
      * intros j x Hj. apply lookup_app_Some in Hj as [Hj|[_ Hj]].
        -- by eapply Hle.
        -- apply list_lookup_singleton_Some in Hj as [_ <-].
           by apply Qcnot_lt_le.
      * intros j x Hj Hjl. apply lookup_app_Some in Hj as [Hj|[Hge _]].
        -- by eapply Hlt.
        -- apply lookup_lt_Some in Hb. lia.
Qed.

Lemma argmax_first_max (r : list Qc) (g : nat) :
  argmax (Fin <$> r) = Some g → first_max r g.
Proof.
  destruct r as [|a r]; [done|]. intros [= <-].
  apply (argmax_from_first_max r [a] 0 a).
  - done.
  - intros [|j] x Hj; simplify_eq/=. apply Qcle_refl.
  - intros j x _ Hj. lia.
Qed.

Lemma argmax_is_Some (r : vec) : r ≠ [] ↔ is_Some (argmax r).
Proof.
  destruct r; split; try done.
  by intros [? ?].
Qed.

Lemma count_true_cons (b : bool) (bs : list bool) :
  count_true (b :: bs) = ((if b then 1 else 0) + count_true bs)%nat.
Proof.
  unfold count_true. destruct b.
  - by rewrite filter_cons_True.
  - by rewrite filter_cons_False.
Qed.

Lemma foldl_nadd_float (a : Z) (bs : list bool) :
  foldl nadd (Fin (Qc_of_Z a)) (float <$> bs)
  = Fin (Qc_of_Z (a + Z.of_nat (count_true bs))).
Proof.
  revert a. induction bs as [|b bs IH]; intros a.
  - simpl. by rewrite Z.add_0_r.
  - cbn [fmap list_fmap foldl]. rewrite count_true_cons.
    destruct b; cbn [float nadd].
    + rewrite <- Z2Qc_inj_1, <- Z2Qc_inj_add, IH.
      replace (a + 1 + Z.of_nat (count_true bs))%Z
        with (a + Z.of_nat (1 + count_true bs))%Z by lia. done.
    + by rewrite Qcplus_0_r, IH.
Qed.

Lemma count_true_le (bs : list bool) : (count_true bs ≤ length bs)%nat.
Proof. apply length_filter. Qed.

Lemma count_true_all (bs : list bool) :
  count_true bs = length bs ↔ Forall (λ b, b = true) bs.
Proof.
  unfold count_true. induction bs as [|b bs IH]; [done|].
  destruct b.
  - rewrite filter_cons_True by done. simpl. rewrite Forall_cons.
    split; [intros [= Hl]; split; [done|by apply IH]|].
    intros [_ Hall]. f_equal. by apply IH.
  - rewrite filter_cons_False by done. simpl. rewrite Forall_cons.
    pose proof (length_filter (λ b, b = true) bs). split; [lia|].
    by intros [? _].
Qed.

Lemma count_true_none (bs : list bool) :
  count_true bs = 0%nat ↔ Forall (λ b, b = false) bs.
Proof.
  unfold count_true. induction bs as [|b bs IH]; [done|].
  destruct b.
  - rewrite filter_cons_True by done. simpl. rewrite Forall_cons.
    split; [done|]. by intros [? _].
  - rewrite filter_cons_False by done. rewrite Forall_cons.
    split; [intros Hl; split; [done|by apply IH]|].
    intros [_ Hall]. by apply IH.
Qed.

Lemma Qc_div_range (a b : Qc) :
  0 ≤ a → a ≤ b → 0 < b →
  0 ≤ a / b ∧ a / b ≤ 1 ∧ (a / b = 1 ↔ a = b) ∧ (a / b = 0 ↔ a = 0).
Proof.
  intros Ha Hab Hb.
  assert (Hb0 : b ≠ 0) by (intros ->; by apply (Qclt_not_eq 0 0)).
  pose proof (test_field a b Hb0) as Hq.
  set (q := a / b) in *.
  split; [|split; [|split]].
  - clearbody q. qc_to_q. nra.
  - clearbody q. qc_to_q. nra.
  - split; intros H.
    + rewrite <- Hq, H. ring.
    + unfold q. rewrite H. by field.
  - split; intros H.
    + rewrite <- Hq, H. ring.
    + unfold q. rewrite H. by field.
Qed.

Lemma mean_float (bs : list bool) :
  bs ≠ [] →
  ∃ q, mean (float <$> bs) = Fin q ∧ 0 ≤ q ∧ q ≤ 1
    ∧ (q = 1 ↔ Forall (λ b, b = true) bs)
    ∧ (q = 0 ↔ Forall (λ b, b = false) bs).
Proof.
  intros Hne. unfold mean.
  rewrite <- Z2Qc_inj_0, foldl_nadd_float, length_fmap, Z.add_0_l.
  set (k := count_true bs). set (n := length bs).
  assert (Hn : (0 < n)%nat) by (unfold n; destruct bs; simpl; [done|lia]).
  assert (Hk : (k ≤ n)%nat) by apply count_true_le.
  assert (Hb0 : 0 < Qc_of_Z (Z.of_nat n)).
  { rewrite <- Z2Qc_inj_0. apply (proj1 (Z2Qc_inj_lt _ _)). lia. }
  assert (Ha0 : 0 ≤ Qc_of_Z (Z.of_nat k)).
  { rewrite <- Z2Qc_inj_0. apply (proj1 (Z2Qc_inj_le _ _)). lia. }
  assert (Hab : Qc_of_Z (Z.of_nat k) ≤ Qc_of_Z (Z.of_nat n)).
  { apply (proj1 (Z2Qc_inj_le _ _)). lia. }
  rewrite ndiv_Fin by (intros H0; rewrite H0 in Hb0; by apply (Qclt_not_eq 0 0)).
  destruct (Qc_div_range _ _ Ha0 Hab Hb0) as (H1 & H2 & H3 & H4).
  eexists. split; [done|]. split; [done|]. split; [done|]. split.
  - rewrite H3, <- count_true_all. fold k n.
    split; [intros H%Z2Qc_inj; lia|by intros ->].
  - rewrite Z2Qc_inj_0, H4, <- count_true_none. fold k.
    rewrite <- Z2Qc_inj_0.
    split; [intros H%Z2Qc_inj; lia|by intros ->].
Qed.

Lemma mean_nil : mean [] = NaN.
Proof. by apply (bool_decide_unpack _). Qed.

Lemma hits_all (pred : list nat) (gt : list Z) :
  length pred = length gt →
  Forall (λ b, b = true)
    (zip_with (λ p g, bool_decide (Z.of_nat p = g)) pred gt)
  ↔ Forall2 (λ p g, Z.of_nat p = g) pred gt.
Proof.
  revert gt. induction pred as [|p pred IH]; intros [|g gt] Hl; try done.
  simpl. rewrite Forall_cons, Forall2_cons, IH by (simpl in Hl; lia).
  by rewrite bool_decide_eq_true.
Qed.

Lemma hits_none (pred : list nat) (gt : list Z) :
  length pred = length gt →
  Forall (λ b, b = false)
    (zip_with (λ p g, bool_decide (Z.of_nat p = g)) pred gt)
  ↔ Forall2 (λ p g, Z.of_nat p ≠ g) pred gt.
Proof.
  revert gt. induction pred as [|p pred IH]; intros [|g gt] Hl; try done.
  simpl. rewrite Forall_cons, Forall2_cons, IH by (simpl in Hl; lia).
  by rewrite bool_decide_eq_false.
Qed.

Lemma Forall2_argmax (P : nat → Z → Prop) (pr : matrix) (pred : list nat) :
  Forall2 (λ r p, argmax r = Some p) pr pred →
  ∀ gt, Forall2 P pred gt
        ↔ Forall2 (λ r g, ∃ p, argmax r = Some p ∧ P p g) pr gt.
Proof.
  induction 1 as [|r p pr pred Hr _ IH]; intros gt.
  - split; intros H; apply Forall2_nil_inv_l in H as ->; constructor.
  - split; intros H.
    + apply Forall2_cons_inv_l in H as (g & gt' & HP & Hrest & ->).
      constructor; [by exists p|by apply IH].
    + apply Forall2_cons_inv_l in H as (g & gt' & (p' & Hp' & HP) & Hrest & ->).
      simplify_eq. constructor; [done|by apply IH].
Qed.

(** X14: with as many labels as rows of logits, [accuracy] returns a value
    exactly when no row is empty; with no row at all the value is NaN (the
    mean of nothing); otherwise it is a rational between 0 and 1 that is 1
    exactly when the arg max of every row is its label and 0 exactly when
    the arg max of no row is.  The arg max of a row of finite entries is the
    position of its first largest entry. *)
Theorem accuracy_spec (pr_logits : matrix) (gt_labels : list Z) :
  length pr_logits = length gt_labels →
  (Forall (λ r, r ≠ []) pr_logits ↔ is_Some (accuracy pr_logits gt_labels))
  ∧ (pr_logits = [] → accuracy pr_logits gt_labels = Some NaN)
  ∧ (pr_logits ≠ [] → ∀ a, accuracy pr_logits gt_labels = Some a →
       ∃ q, a = Fin q ∧ 0 ≤ q ∧ q ≤ 1
         ∧ (q = 1 ↔ Forall2 (λ r g, ∃ p, argmax r = Some p ∧ Z.of_nat p = g)
                      pr_logits gt_labels)
         ∧ (q = 0 ↔ Forall2 (λ r g, ∃ p, argmax r = Some p ∧ Z.of_nat p ≠ g)
                      pr_logits gt_labels))
  ∧ (∀ (r : list Qc) (g : nat), argmax (Fin <$> r) = Some g → first_max r g).
Proof.
  intros Hlen. split; [|split; [|split]].
  - unfold accuracy. split.
    + intros Hne.
      destruct (mapM argmax pr_logits) as [pred|] eqn:Hm.
      * cbn [mbind option_bind]. unfold tensor_eq.
        rewrite decide_True; [by eexists|].
        apply length_mapM in Hm. lia.
      * exfalso. apply eq_None_not_Some in Hm. apply Hm, mapM_is_Some.
        eapply Forall_impl; [exact Hne|]. intros r Hr. by apply argmax_is_Some.
    + intros [a Ha].
      destruct (mapM argmax pr_logits) as [pred|] eqn:Hm; [|done].
      assert (Hs : is_Some (mapM argmax pr_logits)) by (by eexists).
      apply mapM_is_Some in Hs. eapply Forall_impl; [exact Hs|].
      intros r Hr. by apply argmax_is_Some.
  - intros ->. destruct gt_labels; [|done]. unfold accuracy. simpl.
    by rewrite mean_nil.
  - intros Hne a. unfold accuracy.
    destruct (mapM argmax pr_logits) as [pred|] eqn:Hm; [|done].
    cbn [mbind option_bind]. unfold tensor_eq.
    pose proof (length_mapM _ _ _ Hm) as Hpl.
    rewrite decide_True by lia. cbn [mbind option_bind]. intros [= <-].
    apply mapM_Some_1 in Hm.
    destruct (mean_float (zip_with (λ p g, bool_decide (Z.of_nat p = g))
                            pred gt_labels)) as (q & Hq & H0 & H1 & Hall & Hnone).
    { destruct pr_logits; [done|]. destruct pred, gt_labels; simpl in *; try lia.
      done. }
    exists q. split; [done|]. split; [done|]. split; [done|]. split.
    + rewrite Hall, hits_all by lia. by apply Forall2_argmax.
    + rewrite Hnone, hits_none by lia. by apply Forall2_argmax.
  - apply argmax_first_max.
Qed.

(** ** One-hot labels *)

Lemma foldl_max_ge (x : Z) (l : list Z) :
  (x ≤ foldl Z.max x l)%Z ∧ Forall (λ y, (y ≤ foldl Z.max x l)%Z) l.
Proof.
  revert x. induction l as [|y l IH]; intros x; simpl; [split; [lia|constructor]|].
  destruct (IH (Z.max x y)) as [H1 H2]. split; [lia|].
  constructor; [lia|done].
Qed.

Lemma py_max_ge (l : list Z) (m : Z) :
  py_max l = Some m → Forall (λ y, (y ≤ m)%Z) l.
Proof.
  destruct l as [|x l]; [done|]. intros [= <-].
  destruct (foldl_max_ge x l). by constructor.
Qed.

Lemma foldl_max_elem (x : Z) (l : list Z) : foldl Z.max x l ∈ x :: l.
Proof.
  revert x. induction l as [|y l IH]; intros x; simpl; [set_solver|].
  specialize (IH (Z.max x y)).
  destruct (Z.max_spec x y) as [[_ Hm]|[_ Hm]]; rewrite Hm in IH |- *; set_solver.
Qed.

Lemma py_max_elem (l : list Z) (m : Z) : py_max l = Some m → m ∈ l.
Proof. destruct l as [|x l]; [done|]. intros [= <-]. apply foldl_max_elem. Qed.

Lemma long_0 : long (Fin 0) = Some 0%Z.
Proof. reflexivity. Qed.

Lemma long_1 : long (Fin 1) = Some 1%Z.
Proof. reflexivity. Qed.

Lemma mapM_long_eye_row (n k : nat) :
  mapM long ((λ j, if decide (k = j) then Fin 1 else Fin 0) <$> seq 0 n)
  = Some (unit_row n k).
Proof.
  unfold unit_row. apply mapM_Some_2, Forall2_fmap, Forall_Forall2_diag.
  apply Forall_forall. intros j _. case_decide; [apply long_1|apply long_0].
Qed.

Lemma argmax_from_unit (k : nat) (n : nat) : ∀ i best (bv : Z),
  bv = 0%Z ∨ bv = 1%Z →
  argmax_from long_better best bv i
    ((λ j, if decide (k = j) then 1%Z else 0%Z) <$> seq i n)
  = if decide (bv = 0%Z ∧ (i ≤ k < i + n)%nat) then k else best.
Proof.
  induction n as [|n IH]; intros i best bv Hbv.
  { simpl. case_decide; [lia|done]. }
  cbn [seq fmap list_fmap argmax_from]. unfold long_better at 1.
  destruct (decide (k = i)) as [->|Hne].
  - case_bool_decide as Hlt.
    + rewrite IH by auto. rewrite decide_False by lia.
      rewrite decide_True; [done|lia].
    + rewrite IH by done. assert (bv = 1%Z) as -> by lia.
      rewrite !decide_False; [done|lia|lia].
  - rewrite bool_decide_eq_false_2 by lia.
    rewrite IH by done.
    destruct (decide (bv = 0%Z ∧ (S i ≤ k < S i + n)%nat)).
    + rewrite decide_True; [done|lia].
    + rewrite decide_False; [done|lia].
Qed.

Lemma argmax_unit_row (n k : nat) :
  (k < n)%nat → argmax_by long_better (unit_row n k) = Some k.
Proof.
  intros Hk. unfold unit_row. destruct n as [|n]; [lia|].
  cbn [seq fmap list_fmap argmax_by]. f_equal.
  rewrite argmax_from_unit by (case_decide; auto).
  repeat case_decide; lia.
Qed.

Lemma py_index_eye (C : nat) (l : Z) :
  (- Z.of_nat C ≤ l < Z.of_nat C)%Z →
  py_index (eye C) l
  = Some ((λ j, if decide (Z.to_nat (wrap_label (Z.of_nat C) l) = j)
                then Fin 1 else Fin 0) <$> seq 0 C).
Proof.
  intros Hl. unfold py_index. cbv zeta.
  assert (Hlen : length (eye C) = C).
  { unfold eye. by rewrite length_fmap, length_seq. }
  rewrite Hlen. unfold wrap_label.
  destruct (decide (l < 0)%Z) as [Hneg|Hpos].
  - rewrite decide_False by lia. rewrite decide_True by lia.
    rewrite lookup_eye by lia.
    by replace (Z.of_nat C + l)%Z with (l + Z.of_nat C)%Z by lia.
  - rewrite decide_True by lia. by rewrite lookup_eye by lia.
Qed.

Lemma labels_onehot_rows (labels_list : list Z) (C : nat) :
  Forall (λ l, (- Z.of_nat C ≤ l < Z.of_nat C)%Z) labels_list →
  mapM (py_index (eye C)) labels_list
  = Some ((λ l, (λ j, if decide (Z.to_nat (wrap_label (Z.of_nat C) l) = j)
                      then Fin 1 else Fin 0) <$> seq 0 C) <$> labels_list).
Proof.
  intros H. apply mapM_Some_2, Forall2_fmap_r, Forall_Forall2_diag.
  eapply Forall_impl; [exact H|]. intros l Hl. by apply py_index_eye.
Qed.

Lemma labels_onehot_negative (labels_list : list Z) :
  Forall (λ l, (l < 0)%Z) labels_list →
  (labels_onehot labels_list ≫= λ M, labels_tensor (Arr2 M)) = None
  ∧ (py_max labels_list = Some (-1)%Z →
       labels_onehot labels_list = Some (replicate (length labels_list) []))
  ∧ (∀ m, py_max labels_list = Some m → (m < -1)%Z →
       labels_onehot labels_list = None).
Proof.
  intros Hneg.
  assert (Hlow : ∀ m, py_max labels_list = Some m → (m < -1)%Z →
                   labels_onehot labels_list = None).
  { intros m Hmax Hm. unfold labels_onehot. rewrite Hmax.
    cbn [mbind option_bind]. cbv zeta. unfold np_eye.
    by rewrite decide_False by lia. }
  assert (Hone : py_max labels_list = Some (-1)%Z →
                 labels_onehot labels_list = Some (replicate (length labels_list) [])).
  { intros Hmax. unfold labels_onehot. rewrite Hmax. done. }
  split; [|by split].
  destruct (py_max labels_list) as [m|] eqn:Hmax.
  2:{ unfold labels_onehot. by rewrite Hmax. }
  pose proof (py_max_elem _ _ Hmax) as Hm.
  rewrite Forall_forall in Hneg. pose proof (Hneg m Hm) as Hm0. simpl in Hm0.
  destruct (decide (m = -1)%Z) as [->|Hm1].
  - rewrite (Hone eq_refl). cbn [mbind option_bind]. unfold labels_tensor.
    destruct labels_list as [|l labels_list]; [done|].
    cbn [length replicate mapM mbind option_bind fmap option_fmap option_map].
    destruct (mapM (mapM long) (replicate (length labels_list) []));
      cbn [mbind option_bind mapM argmax_by fmap option_fmap option_map]; done.
  - by rewrite (Hlow m eq_refl) by lia.
Qed.

(** X15: the one-hot encoding [np.eye(max + 1)[labels_list]] followed by
    [.long().argmax(dim=-1)] gives the labels back when they are
    non-negative; a negative label [l ≥ -C] is accepted and comes back as
    [l + C].  A list that holds negative labels only (or nothing) yields no
    labels: with the maximum -1 the encoding is an array without columns,
    whose arg max raises, and with a smaller maximum [np.eye] raises. *)
Theorem labels_roundtrip (labels_list : list Z) :
  (∀ C : Z,
     py_max labels_list = Some (C - 1)%Z → (1 ≤ C)%Z →
     Forall (λ l, (- C ≤ l)%Z) labels_list →
     ∃ M, labels_onehot labels_list = Some M
       ∧ shape (length labels_list) (Z.to_nat C) M
       ∧ labels_tensor (Arr2 M) = Some (wrap_label C <$> labels_list)
       ∧ (Forall (λ l, (0 ≤ l)%Z) labels_list →
            labels_tensor (Arr2 M) = Some labels_list))
  ∧ (Forall (λ l, (l < 0)%Z) labels_list →
       (labels_onehot labels_list ≫= λ M, labels_tensor (Arr2 M)) = None
       ∧ (py_max labels_list = Some (-1)%Z →
            labels_onehot labels_list = Some (replicate (length labels_list) []))
       ∧ (∀ m, py_max labels_list = Some m → (m < -1)%Z →
            labels_onehot labels_list = None)).
Proof.
  split; [|apply labels_onehot_negative].
  intros C Hmax HC Hlow.
  assert (Hrange : Forall (λ l, (- Z.of_nat (Z.to_nat C) ≤ l
                                  < Z.of_nat (Z.to_nat C))%Z) labels_list).
  { pose proof (py_max_ge _ _ Hmax) as Hhigh.
    rewrite Z2Nat.id by lia.
    apply Forall_forall. intros l Hl.
    rewrite Forall_forall in Hlow, Hhigh.
    specialize (Hlow l Hl). specialize (Hhigh l Hl). simpl in *. lia. }
  set (M := (λ l, (λ j, if decide (Z.to_nat (wrap_label (Z.of_nat (Z.to_nat C)) l) = j)
                      then Fin 1 else Fin 0) <$> seq 0 (Z.to_nat C))
            <$> labels_list).
  assert (H3 : labels_tensor (Arr2 M) = Some (wrap_label C <$> labels_list)).
  { unfold labels_tensor, M.
    rewrite (mapM_Some_2 (mapM long) _
               ((λ l, unit_row (Z.to_nat C)
                        (Z.to_nat (wrap_label (Z.of_nat (Z.to_nat C)) l)))
                  <$> labels_list)).
    2:{ apply Forall2_fmap, Forall_Forall2_diag, Forall_forall.
        intros l _. apply mapM_long_eye_row. }
    cbn [mbind option_bind].
    apply mapM_Some_2, Forall2_fmap, Forall_Forall2_diag.
    eapply Forall_impl; [exact Hrange|]. intros l Hl. cbv beta.
    rewrite argmax_unit_row.
    + cbn [fmap option_fmap option_map]. f_equal.
      rewrite Z2Nat.id in * by lia. unfold wrap_label in *.
      case_decide; lia.
    + rewrite Z2Nat.id in * by lia. unfold wrap_label. case_decide; lia. }
  exists M. split; [|split; [|split]].
  - unfold labels_onehot. rewrite Hmax. cbn [mbind option_bind]. cbv zeta.
    unfold np_eye. rewrite decide_True by lia. cbn [mbind option_bind].
    rewrite decide_False by lia.
    replace (C - 1 + 1)%Z with C by lia.
    by apply labels_onehot_rows.
  - split; [unfold M; by rewrite length_fmap|].
    apply Forall_fmap, Forall_forall. intros l _. simpl.
    by rewrite length_fmap, length_seq.
  - done.
  - intros Hnn. rewrite H3. f_equal.
    rewrite <- (list_fmap_id labels_list) at 2.
    apply Forall_fmap_ext_1. eapply Forall_impl; [exact Hnn|].
    intros l Hl. unfold wrap_label. simpl in *. by rewrite decide_False by lia.
Qed.

Section EncodeOnehotProperties.

Context {L : Type} `{Countable L}.
Variable set_iter : list L → list L.

Lemma dict_comprehension_notin {V : Type} (f : nat → V) (cs : list L) (c : L) :
  ∀ (idx : list nat) (d : gmap L V),
    c ∉ cs →
    foldl (λ d '(i, c), <[c := f i]> d) d (zip idx cs) !! c = d !! c.
Proof.
  induction cs as [|c0 cs IH]; intros idx d Hc.
  { by destruct idx. }
  destruct idx as [|i idx]; [done|]. simpl.
  rewrite IH by set_solver. apply lookup_insert_ne. set_solver.
Qed.

Lemma dict_comprehension_lookup {V : Type} (f : nat → V) (cs : list L) :
  ∀ (s k : nat) (c : L) (d : gmap L V),
    NoDup cs → cs !! k = Some c →
    foldl (λ d '(i, c), <[c := f i]> d) d (zip (seq s (length cs)) cs) !! c
    = Some (f (s + k)%nat).
Proof.
  induction cs as [|c0 cs IH]; intros s k c d Hnd Hk; [done|].
  apply NoDup_cons in Hnd as [Hc0 Hnd]. simpl.
  destruct k as [|k]; simpl in Hk.
  - injection Hk as ->. rewrite dict_comprehension_notin by done.
    rewrite lookup_insert_eq. by rewrite Nat.add_0_r.
  - rewrite (IH (S s) k c) by done. f_equal. f_equal. lia.
Qed.

Lemma eye_lookup_total (n k : nat) :
  (k < n)%nat →
  eye n !!! k = (λ j, if decide (k = j) then Fin 1 else Fin 0) <$> seq 0 n.
Proof. intros Hk. apply list_lookup_total_correct. by apply lookup_eye. Qed.

Lemma unit_row_inj (n k1 k2 : nat) :
  (k1 < n)%nat → unit_row n k1 = unit_row n k2 → k1 = k2.
Proof.
  intros Hk Heq. pose proof (f_equal (λ r, r !! k1) Heq) as Hl.
  unfold unit_row in Hl. simpl in Hl.
  rewrite !list_lookup_fmap, !lookup_seq_lt in Hl by done. simpl in Hl.
  rewrite decide_True in Hl by done. by case_decide.
Qed.

(** X16: [encode_onehot] maps every label to the row of the identity
    matrix at the position of the label in the iteration order of
    [set(labels)], so two nodes get the same row exactly when their labels
    are equal.  The iteration is taken to visit every distinct label once. *)
Theorem encode_onehot_spec (labels : list L) :
  NoDup (set_iter labels) → (∀ c, c ∈ set_iter labels ↔ c ∈ labels) →
  ∃ M, encode_onehot set_iter labels = Some M
    ∧ Forall2 (λ l r, ∃ k, set_iter labels !! k = Some l
                          ∧ r = unit_row (length (set_iter labels)) k) labels M
    ∧ (∀ i j li lj ri rj,
         labels !! i = Some li → labels !! j = Some lj →
         M !! i = Some ri → M !! j = Some rj →
         (ri = rj ↔ li = lj)).
Proof.
  intros Hnd Hel.
  set (classes := set_iter labels). set (n := length classes).
  assert (Hidx : ∀ l, l ∈ labels → ∃ k, classes !! k = Some l ∧ (k < n)%nat).
  { intros l Hl. apply Hel in Hl. apply list_elem_of_lookup in Hl as [k Hk].
    exists k. split; [done|]. by eapply lookup_lt_Some. }
  set (row := λ l : L, match list_find (l =.) classes with
                       | Some (k, _) => unit_row n k
                       | None => []
                       end).
  assert (Hrow : ∀ l k, classes !! k = Some l → row l = unit_row n k).
  { intros l k Hk. unfold row.
    destruct (list_find (eq l) classes) as [[k' c]|] eqn:Hf.
    - apply list_find_Some in Hf as (Hk' & <- & _).
      by rewrite (NoDup_lookup _ _ _ _ Hnd Hk Hk').
    - apply list_find_None in Hf. rewrite Forall_forall in Hf.
      exfalso. apply (Hf l); [|done]. by eapply list_elem_of_lookup_2. }
  assert (HM : encode_onehot set_iter labels = Some (row <$> labels)).
  { unfold encode_onehot. cbv zeta. fold classes. fold n.
    rewrite (mapM_Some_2 _ _ ((λ l, eye n !!! default 0%nat
                                 (fst <$> list_find (l =.) classes)) <$> labels)).
    - cbn [mbind option_bind]. apply mapM_Some_2.
      rewrite Forall2_fmap. apply Forall_Forall2_diag, Forall_forall.
      intros l Hl. destruct (Hidx l Hl) as (k & Hk & Hkn).
      rewrite (Hrow l k Hk).
      destruct (list_find (eq l) classes) as [[k' c]|] eqn:Hf.
      + apply list_find_Some in Hf as (Hk' & <- & _).
        rewrite (NoDup_lookup _ _ _ _ Hnd Hk' Hk). simpl.
        rewrite eye_lookup_total by done. apply mapM_long_eye_row.
      + apply list_find_None in Hf. rewrite Forall_forall in Hf.
        exfalso. apply (Hf l); [|done]. by eapply list_elem_of_lookup_2.
    - apply Forall2_fmap_r, Forall_Forall2_diag, Forall_forall.
      intros l Hl. destruct (Hidx l Hl) as (k & Hk & Hkn).
      unfold n. rewrite (dict_comprehension_lookup _ classes 0 k l) by done.
      f_equal. f_equal.
      destruct (list_find (eq l) classes) as [[k' c]|] eqn:Hf.
      + apply list_find_Some in Hf as (Hk' & <- & _). simpl.
        by rewrite (NoDup_lookup _ _ _ _ Hnd Hk Hk').
      + apply list_find_None in Hf. rewrite Forall_forall in Hf.
        exfalso. apply (Hf l); [|done]. by eapply list_elem_of_lookup_2. }
  exists (row <$> labels). split; [done|]. split.
  - apply Forall2_fmap_r, Forall_Forall2_diag, Forall_forall.
    intros l Hl. destruct (Hidx l Hl) as (k & Hk & Hkn).
    exists k. split; [done|]. by apply Hrow.
  - intros i j li lj ri rj Hi Hj Hri Hrj.
    rewrite list_lookup_fmap, Hi in Hri. rewrite list_lookup_fmap, Hj in Hrj.
    simpl in Hri, Hrj. injection Hri as <-. injection Hrj as <-.
    split; [|by intros ->].
    destruct (Hidx li) as (ki & Hki & Hkin); [by eapply list_elem_of_lookup_2|].
    destruct (Hidx lj) as (kj & Hkj & Hkjn); [by eapply list_elem_of_lookup_2|].
    rewrite (Hrow li ki Hki), (Hrow lj kj Hkj).
    intros Heq. apply unit_row_inj in Heq; [|done]. subst kj. congruence.
Qed.

End EncodeOnehotProperties.

(** ** The edge list *)

Lemma neighbours_dict_append (d : gmap Z (list Z)) (k x w : Z) :
  neighbours (dict_append d k x) w
  = if decide (w = k) then neighbours d k ++ [x] else neighbours d w.
Proof.
  unfold neighbours, dict_append. case_decide as Hw.
  - subst w. by rewrite lookup_insert_eq.
  - by rewrite lookup_insert_ne.
Qed.

Lemma elem_of_neighbours_step (d : gmap Z (list Z)) (u v w a : Z) :
  a ∈ neighbours (dict_append (dict_append d u v) v u) w
  ↔ a ∈ neighbours d w ∨ (w = u ∧ a = v) ∨ (w = v ∧ a = u).
Proof.
  rewrite !neighbours_dict_append.
  repeat case_decide; subst; rewrite ?elem_of_app, ?list_elem_of_singleton;
    naive_solver.
Qed.

Section EdgeListProperties.

Variable fields : string → list string.
Variable int : string → option Z.

Lemma add_edge_step (d d' : gmap Z (list Z)) (line : string) :
  add_edge fields int d line = Some d' →
  ∃ u v, d' = dict_append (dict_append d u v) v u.
Proof.
  unfold add_edge. cbv zeta. case_decide; [|done].
  destruct (fields line !! 0%nat) as [a|]; [|done]. cbn [mbind option_bind].
  destruct (int a) as [u|]; [|done]. cbn [mbind option_bind].
  destruct (fields line !! 1%nat) as [b|]; [|done]. cbn [mbind option_bind].
  destruct (int b) as [v|]; [|done]. cbn [mbind option_bind].
  intros [= <-]. by exists u, v.
Qed.

Lemma read_edges_symmetric (lines : list string) : ∀ d d',
  (∀ u v, v ∈ neighbours d u ↔ u ∈ neighbours d v) →
  read_edges fields int d lines = Some d' →
  ∀ u v, v ∈ neighbours d' u ↔ u ∈ neighbours d' v.
Proof.
  induction lines as [|line lines IH]; intros d d' Hsym Hr; simpl in Hr.
  { by injection Hr as <-. }
  destruct (add_edge fields int d line) as [d1|] eqn:Ha; [|done].
  cbn [mbind option_bind] in Hr. apply (IH d1 d'); [|done].
  apply add_edge_step in Ha as (a & b & ->).
  intros u v. rewrite !elem_of_neighbours_step, (Hsym u v). naive_solver.
Qed.

Lemma add_edge_arity (d : gmap Z (list Z)) (line : string) :
  length (fields line) ≠ 2%nat → add_edge fields int d line = None.
Proof. intros Hl. unfold add_edge. cbv zeta. by rewrite decide_False. Qed.

End EdgeListProperties.

Lemma StronglySorted_le_lt (l : list Z) :
  StronglySorted Z.le l → NoDup l → StronglySorted Z.lt l.
Proof.
  induction 1 as [|x l Hl IH Hx]; intros Hnd; [constructor|].
  apply NoDup_cons in Hnd as [Hxl Hnd]. constructor; [by apply IH|].
  rewrite Forall_forall in Hx |- *. intros y Hy.
  specialize (Hx y Hy). assert (x ≠ y) by (by intros ->). lia.
Qed.

Lemma graph_dict_ordered_keys (d : gmap Z (list Z)) :
  (graph_dict_ordered d).*1 = merge_sort Z.le (elements (dom d)).
Proof.
  unfold graph_dict_ordered. rewrite <- list_fmap_compose.
  etrans; [|apply list_fmap_id]. by apply list_fmap_ext.
Qed.

(** X17: the adjacency lists read from the edge file are symmetric ([v] is
    listed under [u] exactly when [u] is listed under [v]), both ends of
    every edge are keys, and [graph_dict_ordered] lists the keys in strictly
    increasing order, each with the sorted permutation of its neighbours. *)
Theorem graph_dict_undirected (fields : string → list string)
    (int : string → option Z) (file : list string) (d : gmap Z (list Z)) :
  graph_dict_of fields int file = Some d →
  (∀ u v, v ∈ neighbours d u ↔ u ∈ neighbours d v)
  ∧ (∀ u v, v ∈ neighbours d u → u ∈ dom d ∧ v ∈ dom d)
  ∧ StronglySorted Z.lt (graph_dict_ordered d).*1
  ∧ (∀ k, k ∈ (graph_dict_ordered d).*1 ↔ k ∈ dom d)
  ∧ Forall (λ kv, StronglySorted Z.le kv.2 ∧ kv.2 ≡ₚ neighbours d kv.1)
      (graph_dict_ordered d).
Proof.
  intros Hd. unfold graph_dict_of in Hd.
  assert (Hsym : ∀ u v, v ∈ neighbours d u ↔ u ∈ neighbours d v).
  { apply (read_edges_symmetric fields int (tail file) ∅ d); [|done].
    intros u v. unfold neighbours. rewrite !lookup_empty. simpl.
    split; intros H; by apply elem_of_nil in H. }
  assert (Hkey : ∀ u v, v ∈ neighbours d u → u ∈ dom d).
  { intros u v. unfold neighbours. destruct (d !! u) as [l|] eqn:Hu; simpl.
    - intros _. apply elem_of_dom. by eexists.
    - intros H. by apply elem_of_nil in H. }
  split; [done|]. split; [|split; [|split]].
  - intros u v Huv. split; [by eapply Hkey|].
    apply Hsym in Huv. by eapply Hkey.
  - rewrite graph_dict_ordered_keys. apply StronglySorted_le_lt.
    + apply StronglySorted_merge_sort; apply _.
    + rewrite merge_sort_Permutation. apply NoDup_elements.
  - intros k. rewrite graph_dict_ordered_keys, merge_sort_Permutation.
    apply elem_of_elements.
  - unfold graph_dict_ordered. apply Forall_fmap, Forall_forall.
    intros k _. simpl. split.
    + apply StronglySorted_merge_sort; apply _.
    + apply merge_sort_Permutation.
Qed.

(** ** Node indices of a split *)

Lemma mapM_cons {A B : Type} (f : A → option B) (x : A) (l : list A) :
  mapM f (x :: l) = y ← f x; k ← mapM f l; Some (y :: k).
Proof. done. Qed.

Lemma index_select_where {A : Type} (mask : list Z) (v : Z) : ∀ (pre t : list A),
  length t = length mask →
  mapM (py_index (pre ++ t))
    ((λ p, Z.of_nat p.1)
       <$> filter (λ p, p.2 = v) (zip (seq (length pre) (length mask)) mask))
  = Some (fst <$> filter (λ p, p.2 = v) (zip t mask)).
Proof.
  induction mask as [|w mask IH]; intros pre t Hl.
  { destruct t; done. }
  destruct t as [|o t]; [done|]. simpl in Hl.
  cbn [length seq zip zip_with].
  assert (Hnext : mapM (py_index (pre ++ o :: t))
            ((λ p, Z.of_nat p.1)
               <$> filter (λ p, p.2 = v) (zip (seq (S (length pre)) (length mask)) mask))
          = Some (fst <$> filter (λ p, p.2 = v) (zip t mask))).
  { specialize (IH (pre ++ [o]) t). rewrite length_app in IH. simpl in IH.
    rewrite Nat.add_1_r, <- app_assoc in IH. apply IH. lia. }
  destruct (decide (w = v)) as [Hw|Hw].
  - rewrite !filter_cons_True by done. cbn [fmap list_fmap].
    rewrite mapM_cons, Hnext. cbn [fst].
    assert (Hidx : py_index (pre ++ o :: t) (Z.of_nat (length pre)) = Some o).
    { unfold py_index. cbv zeta. rewrite decide_True.
      - rewrite Nat2Z.id, lookup_app_r by lia. by rewrite Nat.sub_diag.
      - rewrite length_app. simpl. lia. }
    by rewrite Hidx.
  - rewrite !filter_cons_False by done. exact Hnext.
Qed.

Lemma np_where_eq_bounds (mask : list Z) (v : Z) :
  Forall (λ i, (0 ≤ i < Z.of_nat (length mask))%Z) (np_where_eq mask v).
Proof.
  unfold np_where_eq. apply Forall_fmap, Forall_forall. intros [i w] Hin.
  apply list_elem_of_filter in Hin as [_ Hin].
  apply elem_of_zip_l in Hin. apply elem_of_seq in Hin. simpl. lia.
Qed.

(** X18: the indices [np.where(mask == v)[0]] are within range, and
    indexing a tensor of the length of the mask with them never raises: it
    keeps, in their order, the entries whose mask value is [v], as many as
    [v] occurs in the mask. *)
Theorem index_select_np_where {A : Type} (t : list A) (mask : list Z) (v : Z) :
  length t = length mask →
  index_select t (np_where_eq mask v)
  = Some (fst <$> filter (λ p, p.2 = v) (zip t mask))
  ∧ Forall (λ i, (0 ≤ i < Z.of_nat (length t))%Z) (np_where_eq mask v)
  ∧ ((length <$> index_select t (np_where_eq mask v))
     = Some (length (filter (λ w, w = v) mask))).
Proof.
  intros Hl. pose proof (index_select_where mask v [] t Hl) as Hs.
  split; [exact Hs|]. split.
  - rewrite Hl. apply np_where_eq_bounds.
  - unfold index_select, np_where_eq. simpl in Hs. rewrite Hs. simpl. f_equal.
    rewrite length_fmap. clear Hs. revert t Hl.
    induction mask as [|w mask IH]; intros [|o t] Hl; try done.
    simpl in Hl. cbn [zip zip_with].
    destruct (decide (w = v)).
    + rewrite !filter_cons_True by done. simpl. f_equal. apply IH. lia.
    + rewrite !filter_cons_False by done. apply IH. lia.
Qed.

(** ** Invariants of the training loop *)

Section StoreRoundTrip.

Context {tensor : Type}.
Implicit Types (h : gmap loc tensor) (sd : state_dict).

Lemma read_alloc h sd :
  (∀ l, l ∈ locs sd → l ∈ dom h) → fst <$> read h sd = fst <$> sd.
Proof.
  induction sd as [|[k l] sd IH]; intros Hal; [done|].
  rewrite read_cons.
  destruct (h !! l) as [t|] eqn:Hl.
  - simpl. f_equal. apply IH. intros l' Hl'. apply Hal. unfold locs in *. set_solver.
  - exfalso. apply not_elem_of_dom in Hl. apply Hl, Hal. unfold locs. set_solver.
Qed.

Lemma write_all_cons h k l sd v vals :
  write_all h ((k, l) :: sd) (v :: vals) = write_all (<[l := v]> h) sd vals.
Proof. done. Qed.

Lemma read_write_all sd : ∀ h vals,
  NoDup (locs sd) → length vals = length sd →
  read (write_all h sd vals) sd = zip (fst <$> sd) vals.
Proof.
  induction sd as [|[k l] sd IH]; intros h vals Hnd Hlen; [done|].
  destruct vals as [|v vals]; [done|].
  unfold locs in Hnd. simpl in Hnd. apply NoDup_cons in Hnd as [Hl Hnd].
  rewrite write_all_cons, read_cons.
  rewrite write_all_frame by done. rewrite lookup_insert_eq.
  simpl. f_equal. apply IH; [done|]. simpl in Hlen. lia.
Qed.

Lemma deepcopy_keys sd : ∀ h h' copy,
  (∀ l, l ∈ locs sd → l ∈ dom h) →
  deepcopy h sd = (h', copy) → fst <$> copy = fst <$> sd.
Proof.
  induction sd as [|[k l] sd IH]; intros h h' copy Hal Hd; simpl in Hd.
  { by injection Hd as <- <-. }
  destruct (h !! l) as [t|] eqn:Hl.
  2:{ exfalso. apply not_elem_of_dom in Hl. apply Hl, Hal. unfold locs. set_solver. }
  destruct (deepcopy (<[fresh (dom h):=t]> h) sd) as [h1 copy1] eqn:Hd1.
  injection Hd as <- <-. simpl. f_equal.
  assert (Hal1 : ∀ l0, l0 ∈ locs sd → l0 ∈ dom (<[fresh (dom h):=t]> h)).
  { intros l0 H0. rewrite dom_insert. apply elem_of_union_r, Hal.
    unfold locs in *. set_solver. }
  exact (IH _ _ _ Hal1 Hd1).
Qed.

End StoreRoundTrip.

Section TrainingInvariants.

Context {tensor logits : Type}.
Variable c : Trainer tensor logits.

Implicit Types (s : loop_state tensor) (h : gmap loc tensor).

(** *** What the best metric and the snapshot are *)

Lemma train_and_eval_metric epoch s h mv :
  train_and_eval c epoch s = Some (h, mv) → ∃ output, metric_val c output = mv.
Proof.
  unfold train_and_eval. cbv zeta. intros Ht.
  destruct (forward_train c _ _) as [o|]; simpl in Ht; [|done].
  destruct (metric_train c o) as [mt|]; simpl in Ht; [|done].
  destruct (if fastmode c then _ else _) as [o'|]; simpl in Ht; [|done].
  injection Ht as _ <-. by exists o'.
Qed.

Lemma observe_best_inv s h v output :
  metric_val c output = Some v → best_inv c s →
  best_inv c (observe c s h v) ∧ best_metric s ≤ best_metric (observe c s h v).
Proof.
  intros Hv Hs. unfold observe. case_decide as Hlt.
  - destruct (deepcopy h (live c)) as [h' copy]. simpl. split.
    + right. split; [|split; [by eexists|by exists output]].
      destruct Hs as [[H0 _]|[H0 _]].
      * by rewrite <- H0.
      * by eapply Qclt_trans.
    + by apply Qclt_le_weak.
  - simpl. split; [done|apply Qcle_refl].
Qed.

Lemma epoch_body_best_inv epoch s s' :
  best_inv c s →
  epoch_body c epoch s = Break s' ∨ epoch_body c epoch s = Continue s' →
  best_inv c s' ∧ best_metric s ≤ best_metric s'.
Proof.
  intros Hs Hb.
  destruct (train_and_eval c epoch s) as [[h [v|]]|] eqn:Hte.
  - rewrite (epoch_body_observe _ _ _ _ _ Hte) in Hb.
    assert (s' = observe c s h v) as ->.
    { case_decide; destruct Hb as [Hb|Hb]; congruence. }
    destruct (train_and_eval_metric _ _ _ _ Hte) as [output Ho].
    by apply (observe_best_inv s h v output).
  - rewrite (epoch_body_metric_error _ _ _ _ Hte) in Hb.
    destruct Hb as [[= <-]|[=]]. split; [done|apply Qcle_refl].
  - unfold epoch_body in Hb. rewrite Hte in Hb. by destruct Hb as [?|?].
Qed.

Lemma train_loop_best_inv idx : ∀ s s',
  best_inv c s → train_loop c idx s = Some s' →
  best_inv c s' ∧ best_metric s ≤ best_metric s'.
Proof.
  induction idx as [|e idx IH]; intros s s' Hs Hl; simpl in Hl.
  { injection Hl as <-. split; [done|apply Qcle_refl]. }
  destruct (epoch_body c e s) as [|s1|s1] eqn:Hb; [done| |].
  - injection Hl as <-. by apply (epoch_body_best_inv e s s1 Hs (or_introl Hb)).
  - destruct (epoch_body_best_inv e s s1 Hs (or_intror Hb)) as [Hs1 Hle].
    destruct (IH s1 s' Hs1 Hl) as [Hs' Hle']. split; [done|].
    by eapply Qcle_trans.
Qed.

Lemma best_inv_init h : best_inv c (init_state h).
Proof. by left. Qed.

(** X19: when the loop ends, either [best_metric] is still 0, no snapshot
    was taken and [load_state_dict(best_params)] raises, or [best_metric] is
    a positive validation metric computed in some epoch and the load
    succeeds.  A metric that never exceeds 0 therefore always ends in the
    error. *)
Theorem best_metric_snapshot (h : gmap loc tensor) s :
  train c h = Some s →
  ((best_metric s = 0 ∧ best_params s = None ∧ load_best c s = None)
   ∨ (0 < best_metric s ∧ is_Some (load_best c s)
      ∧ ∃ output, metric_val c output = Some (best_metric s)))
  ∧ ((∀ output v, metric_val c output = Some v → v ≤ 0) →
     load_best c s = None).
Proof.
  intros Ht. unfold train in Ht.
  destruct (train_loop_best_inv _ _ _ (best_inv_init h) Ht) as [Hs _].
  assert (Hcases :
    (best_metric s = 0 ∧ best_params s = None ∧ load_best c s = None)
    ∨ (0 < best_metric s ∧ is_Some (load_best c s)
       ∧ ∃ output, metric_val c output = Some (best_metric s))).
  { destruct Hs as [[H0 Hn]|(Hpos & [sd Hsd] & Ho)].
    - left. split; [done|]. split; [done|]. unfold load_best. by rewrite Hn.
    - right. split; [done|]. split; [|done]. unfold load_best. rewrite Hsd.
      by eexists. }
  split; [done|]. intros Hle.
  destruct Hcases as [(_ & _ & Hl)|(Hpos & _ & output & Ho)]; [done|].
  exfalso. apply Hle in Ho. by apply (Qclt_not_le _ _ Hpos).
Qed.

(** *** Why the loop ends *)

Lemma observe_patience s h v :
  patience_inv s →
  patience_inv (observe c s h v)
  ∧ epochs_run (observe c s h v) = S (epochs_run s).
Proof.
  unfold patience_inv, observe. intros Hs. case_decide.
  - destruct (deepcopy h (live c)). simpl. split; [lia|done].
  - simpl. split; [lia|done].
Qed.

Lemma train_loop_stops idx : ∀ s s',
  (∀ output, is_Some (metric_val c output)) →
  patience_inv s → train_loop c idx s = Some s' →
  patience_inv s'
  ∧ (epochs_run s' ≤ epochs_run s + length idx)%nat
  ∧ (epochs_run s' = (epochs_run s + length idx)%nat
     ∨ (early_stopping c ≤ patience s')%Z).
Proof.
  induction idx as [|e idx IH]; intros s s' Hm Hs Hl; simpl in Hl.
  { injection Hl as <-. simpl. split; [done|]. split; [lia|]. left. lia. }
  destruct (train_and_eval c e s) as [[h [v|]]|] eqn:Hte.
  - rewrite (epoch_body_observe _ _ _ _ _ Hte) in Hl.
    destruct (observe_patience s h v Hs) as [Hs1 Hrun].
    case_decide as Hstop.
    + injection Hl as <-. split; [done|]. split; [simpl; lia|]. by right.
    + destruct (IH _ _ Hm Hs1 Hl) as (Hs' & Hle & Hend).
      split; [done|]. rewrite Hrun in Hle, Hend. simpl.
      split; [lia|]. destruct Hend as [Hend|Hend]; [left; lia|by right].
  - destruct (train_and_eval_metric _ _ _ _ Hte) as [output Ho].
    destruct (Hm output) as [v Hv]. congruence.
  - unfold epoch_body in Hl. by rewrite Hte in Hl.
Qed.

(** X20: when the validation metric never raises, the loop runs at most
    [epochs] iterations and at least [min(epochs, early_stopping)], the
    patience stays between 0 and the number of iterations run, and the loop
    ends after [epochs] iterations or with [patience ≥ early_stopping]. *)
Theorem train_stops (h : gmap loc tensor) s :
  (∀ output, is_Some (metric_val c output)) →
  train c h = Some s →
  (epochs_run s ≤ epochs c)%nat
  ∧ (0 ≤ patience s ≤ Z.of_nat (epochs_run s))%Z
  ∧ (epochs_run s = epochs c ∨ (early_stopping c ≤ patience s)%Z)
  ∧ (Z.of_nat (epochs c) `min` early_stopping c ≤ Z.of_nat (epochs_run s))%Z.
Proof.
  intros Hm Ht. unfold train in Ht.
  destruct (train_loop_stops (seq 0 (epochs c)) (init_state h) s Hm)
    as (Hp & Hle & Hend); [unfold patience_inv; simpl; lia|done|].
  rewrite length_seq in Hle, Hend. simpl in Hle, Hend.
  unfold patience_inv in Hp.
  split; [done|]. split; [done|]. split; [done|].
  destruct Hend as [->|Hstop]; lia.
Qed.

(** *** Loading the best parameters *)

Lemma observe_snapshot_inv s h v :
  snapshot_inv c s → extends c (heap s) h →
  snapshot_inv c (observe c s h v).
Proof.
  intros [Ha Hsd] Hext.
  assert (Ha' : live_alloc c h) by (by eapply live_alloc_extends).
  unfold observe. case_decide.
  - destruct (deepcopy h (live c)) as [h' copy] eqn:Hd.
    destruct (deepcopy_spec (live c) h h' copy Ha' Hd) as (Hfr & Hnew & _).
    split; simpl.
    + intros l Hl. apply elem_of_dom. rewrite Hfr by (by apply Ha').
      apply elem_of_dom. by apply Ha'.
    + intros sd [= <-]. split; [by eapply deepcopy_keys|].
      intros l Hl. destruct (Hnew l Hl) as [Hn1 Hn2]. split; [done|].
      intros Hlive. by apply Hn1, Ha'.
  - split; simpl; [done|]. intros sd Hs. destruct (Hsd sd Hs) as [Hk Hl].
    split; [done|]. intros l Hin. destruct (Hl l Hin) as [Hd Hnl].
    split; [|done]. by apply Hext.
Qed.

Lemma epoch_body_snapshot_inv epoch s s' :
  snapshot_inv c s →
  epoch_body c epoch s = Break s' ∨ epoch_body c epoch s = Continue s' →
  snapshot_inv c s'.
Proof.
  intros Hs Hb.
  destruct (train_and_eval c epoch s) as [[h [v|]]|] eqn:Hte.
  - pose proof (train_and_eval_extends _ _ _ _ _ Hte) as Hext.
    rewrite (epoch_body_observe _ _ _ _ _ Hte) in Hb.
    assert (s' = observe c s h v) as ->.
    { case_decide; destruct Hb as [Hb|Hb]; congruence. }
    by apply observe_snapshot_inv.
  - pose proof (train_and_eval_extends _ _ _ _ _ Hte) as Hext.
    rewrite (epoch_body_metric_error _ _ _ _ Hte) in Hb.
    destruct Hb as [[= <-]|[=]]. destruct Hs as [Ha Hsd].
    split; simpl; [by eapply live_alloc_extends|].
    intros sd Hs. destruct (Hsd sd Hs) as [Hk Hl].
    split; [done|]. intros l Hin. destruct (Hl l Hin) as [Hd Hnl].
    split; [|done]. by apply Hext.
  - unfold epoch_body in Hb. rewrite Hte in Hb. by destruct Hb as [?|?].
Qed.

Lemma train_loop_snapshot_inv idx : ∀ s s',
  snapshot_inv c s → train_loop c idx s = Some s' → snapshot_inv c s'.
Proof.
  induction idx as [|e idx IH]; intros s s' Hs Hl; simpl in Hl.
  { by injection Hl as <-. }
  destruct (epoch_body c e s) as [|s1|s1] eqn:Hb; [done| |].
  - injection Hl as <-. by apply (epoch_body_snapshot_inv e s s1 Hs (or_introl Hb)).
  - apply (IH s1 s'); [|done].
    by apply (epoch_body_snapshot_inv e s s1 Hs (or_intror Hb)).
Qed.

Lemma read_zip h sd :
  read h sd = zip (fst <$> read h sd) (snd <$> read h sd).
Proof. by rewrite zip_fst_snd. Qed.

(** X21: when a snapshot was taken, [load_state_dict(best_params)] gives
    every live parameter the value the snapshot holds for it and leaves the
    snapshot as it is; the snapshot has the keys of the state dict.  The
    live tensors are allocated and do not share storage. *)
Theorem load_best_restores (h : gmap loc tensor) s sd :
  live_alloc c h → NoDup (locs (live c)) →
  train c h = Some s → best_params s = Some sd →
  ∃ h', load_best c s = Some h'
    ∧ read h' (live c) = read (heap s) sd
    ∧ read h' sd = read (heap s) sd
    ∧ fst <$> sd = fst <$> live c.
Proof.
  intros Ha Hnd Ht Hsd. unfold train in Ht.
  assert (Hinit : snapshot_inv c (init_state h)) by (by split).
  destruct (train_loop_snapshot_inv _ _ _ Hinit Ht) as [Ha' Hinv].
  destruct (Hinv sd Hsd) as [Hkeys Hlocs].
  unfold load_best, load_state_dict. rewrite Hsd. cbn [mbind option_bind].
  eexists. split; [done|].
  assert (Hrk : fst <$> read (heap s) sd = fst <$> sd).
  { apply read_alloc. intros l Hl. by apply Hlocs. }
  split; [|split; [|done]].
  - rewrite read_write_all; [|done|].
    + rewrite <- Hkeys, <- Hrk. by rewrite zip_fst_snd.
    + rewrite length_fmap.
      rewrite <- (length_fmap fst (read (heap s) sd)), Hrk, Hkeys.
      by rewrite length_fmap.
  - apply read_ext. intros l Hl. apply write_all_frame. by apply Hlocs.
Qed.

End TrainingInvariants.

(** ** Dataset splits *)

Lemma split_mask_spec (uninit : list Z) (tr va te : list bool) :
  length tr = length uninit → length va = length uninit →
  length te = length uninit →
  split_mask uninit tr va te = Some (zip4_with split_of uninit tr va te).
Proof.
  intros Htr Hva Hte. unfold split_mask, masked_fill.
  rewrite decide_True by done. cbn [mbind option_bind].
  rewrite decide_True by (rewrite length_zip_with; lia). cbn [mbind option_bind].
  rewrite decide_True by (rewrite !length_zip_with; lia). f_equal.
  revert tr va te Htr Hva Hte.
  induction uninit as [|u uninit IH]; intros [|a tr] [|b va] [|d te] Htr Hva Hte;
    try done.
  simpl. f_equal. apply IH; simpl in *; lia.
Qed.

Lemma split_mask_is_Some (uninit : list Z) (tr va te : list bool) :
  is_Some (split_mask uninit tr va te)
  ↔ length tr = length uninit ∧ length va = length uninit
    ∧ length te = length uninit.
Proof.
  split.
  - unfold split_mask, masked_fill. intros [m Hm].
    case_decide as H1; [|done]. cbn [mbind option_bind] in Hm.
    case_decide as H2; [|done]. cbn [mbind option_bind] in Hm.
    case_decide as H3; [|done].
    rewrite !length_zip_with in H3. rewrite length_zip_with in H2. lia.
  - intros (H1 & H2 & H3). rewrite split_mask_spec by done. by eexists.
Qed.

Lemma lookup_zip4_with {A B C D E : Type} (f : A → B → C → D → E)
    (a : list A) (b : list B) (c : list C) (d : list D) (i : nat) x y z w :
  a !! i = Some x → b !! i = Some y → c !! i = Some z → d !! i = Some w →
  zip4_with f a b c d !! i = Some (f x y z w).
Proof.
  revert b c d i. induction a as [|x0 a IH]; intros [|y0 b] [|z0 c] [|w0 d] [|i];
    try done; simpl.
  - by intros [= ->] [= ->] [= ->] [= ->].
  - apply IH.
Qed.

Lemma length_zip4_with {A B C D E : Type} (f : A → B → C → D → E)
    (a : list A) (b : list B) (c : list C) (d : list D) :
  length b = length a → length c = length a → length d = length a →
  length (zip4_with f a b c d) = length a.
Proof.
  revert b c d. induction a as [|x0 a IH]; intros [|y0 b] [|z0 c] [|w0 d];
    try done; simpl. intros. f_equal. apply IH; lia.
Qed.

Lemma split_mask_lookup (uninit : list Z) (tr va te : list bool) :
  (is_Some (split_mask uninit tr va te)
   ↔ length tr = length uninit ∧ length va = length uninit
     ∧ length te = length uninit)
  ∧ (∀ mask, split_mask uninit tr va te = Some mask →
       length mask = length uninit
       ∧ ∀ i u a b d,
           uninit !! i = Some u → tr !! i = Some a → va !! i = Some b →
           te !! i = Some d →
           mask !! i = Some (split_of u a b d)).
Proof.
  split; [apply split_mask_is_Some|]. intros mask Hm.
  assert (Hs : is_Some (split_mask uninit tr va te)) by (by eexists).
  apply split_mask_is_Some in Hs as (H1 & H2 & H3).
  rewrite split_mask_spec in Hm by done. injection Hm as <-.
  split; [by apply length_zip4_with|].
  intros i u a b d. apply lookup_zip4_with.
Qed.

Lemma split_codes_lookup (name : string) :
  split_codes !! name
  = if decide (name = "train") then Some 0%Z
    else if decide (name = "valid") then Some 1%Z
    else if decide (name = "test") then Some 2%Z
    else None.
Proof.
  unfold split_codes. repeat case_decide; subst.
  - by rewrite lookup_insert_eq.
  - rewrite lookup_insert_ne by done. by rewrite lookup_insert_eq.
  - rewrite !lookup_insert_ne by done. by rewrite lookup_insert_eq.
  - by rewrite !lookup_insert_ne by done.
Qed.

Lemma get_split_tmask (g : BaseGraph) (name : string) (code : Z) :
  split_codes !! name = Some code → length (bg_y g) = length (bg_mask g) →
  get_split g name
  = Some (bg_edge_index g, bg_edge_attr g,
          (λ v, bool_decide (v = code)) <$> bg_mask g,
          fst <$> filter (λ p, p.2 = true)
                    (zip (bg_y g) ((λ v, bool_decide (v = code)) <$> bg_mask g))).
Proof.
  intros Hc Hl. unfold get_split. rewrite Hc. cbn [mbind option_bind]. cbv zeta.
  unfold bool_index. rewrite decide_True by (by rewrite length_fmap).
  done.
Qed.

Lemma selected_cons (a : Z) (y : list Z) (v : Z) (mask : list Z) (code : Z) :
  selected (a :: y) (v :: mask) code
  = if decide (v = code) then a :: selected y mask code else selected y mask code.
Proof.
  unfold selected. cbn [fmap list_fmap zip zip_with].
  case_decide as Hv.
  - rewrite filter_cons_True; [done|]. simpl. by apply bool_decide_eq_true.
  - rewrite filter_cons_False; [done|]. simpl. rewrite bool_decide_eq_false_2 by done.
    done.
Qed.

Lemma selected_partition (y mask : list Z) :
  length y = length mask →
  (length (selected y mask 0) + length (selected y mask 1)
   + length (selected y mask 2) ≤ length y)%nat
  ∧ (Forall (λ v, v = 0 ∨ v = 1 ∨ v = 2)%Z mask →
     (length (selected y mask 0) + length (selected y mask 1)
      + length (selected y mask 2) = length y)%nat).
Proof.
  revert mask. induction y as [|a y IH]; intros [|v mask] Hl; try done.
  destruct (IH mask) as [IH1 IH2]; [simpl in Hl; lia|].
  rewrite !selected_cons. split.
  - repeat case_decide; simpl; lia.
  - intros Hall. apply Forall_cons in Hall as [Hv Hall].
    specialize (IH2 Hall). repeat case_decide; simpl; lia.
Qed.

(** X22: [get_split] raises for a name other than train, valid and test;
    for these it returns the labels of the nodes whose mask value is 0, 1
    and 2, together with that boolean mask.  The three selections have
    together at most as many labels as there are nodes, and exactly as many
    when every mask value is 0, 1 or 2. *)
Theorem get_split_partition (g : BaseGraph) :
  length (bg_y g) = length (bg_mask g) →
  (∀ name, name ≠ "train" → name ≠ "valid" → name ≠ "test" →
     get_split g name = None)
  ∧ ∃ y_train y_valid y_test,
      get_split g "train"
      = Some (bg_edge_index g, bg_edge_attr g,
              (λ v, bool_decide (v = 0%Z)) <$> bg_mask g, y_train)
      ∧ get_split g "valid"
        = Some (bg_edge_index g, bg_edge_attr g,
                (λ v, bool_decide (v = 1%Z)) <$> bg_mask g, y_valid)
      ∧ get_split g "test"
        = Some (bg_edge_index g, bg_edge_attr g,
                (λ v, bool_decide (v = 2%Z)) <$> bg_mask g, y_test)
      ∧ (length y_train + length y_valid + length y_test ≤ length (bg_y g))%nat
      ∧ (Forall (λ v, v = 0 ∨ v = 1 ∨ v = 2)%Z (bg_mask g) →
         (length y_train + length y_valid + length y_test
          = length (bg_y g))%nat).
Proof.
  intros Hl. split.
  - intros name H1 H2 H3. unfold get_split.
    rewrite split_codes_lookup. by rewrite !decide_False by done.
  - exists (selected (bg_y g) (bg_mask g) 0), (selected (bg_y g) (bg_mask g) 1),
      (selected (bg_y g) (bg_mask g) 2).
    split; [by apply get_split_tmask|].
    split; [by apply get_split_tmask|].
    split; [by apply get_split_tmask|].
    by apply selected_partition.
Qed.

Lemma fmap_zip4_with_split (code : Z) (pick : bool → bool → bool → bool)
    (uninit : list Z) (tr va te : list bool) :
  length tr = length uninit → length va = length uninit →
  length te = length uninit →
  (∀ i a b d, tr !! i = Some a → va !! i = Some b → te !! i = Some d →
     one_split a b d) →
  (∀ u a b d, one_split a b d →
     bool_decide (split_of u a b d = code) = pick a b d) →
  (λ v, bool_decide (v = code)) <$> zip4_with split_of uninit tr va te
  = zip4_with (λ _ a b d, pick a b d) uninit tr va te.
Proof.
  intros Htr Hva Hte Hone Hpick. revert tr va te Htr Hva Hte Hone.
  induction uninit as [|u uninit IH]; intros [|a tr] [|b va] [|d te] Htr Hva Hte Hone;
    try done.
  cbn [zip4_with fmap list_fmap]. f_equal.
  - apply Hpick. by apply (Hone 0%nat).
  - apply IH; simpl in *; try lia.
    intros i. apply (Hone (S i)).
Qed.

Lemma zip4_with_proj2 (uninit : list Z) (tr va te : list bool) :
  length tr = length uninit → length va = length uninit →
  length te = length uninit →
  zip4_with (λ _ a _ _, a) uninit tr va te = tr
  ∧ zip4_with (λ _ _ b _, b) uninit tr va te = va
  ∧ zip4_with (λ _ _ _ d, d) uninit tr va te = te.
Proof.
  revert tr va te.
  induction uninit as [|u uninit IH]; intros [|a tr] [|b va] [|d te] Htr Hva Hte;
    try done.
  destruct (IH tr va te) as (H1 & H2 & H3); simpl in *; try lia.
  by rewrite H1, H2, H3.
Qed.

(** X23: a mask assembled as [split] does from three node masks that
    select every node exactly once is read back by [get_split]: the boolean
    masks it returns for train, valid and test are the three node masks, and
    the labels it selects partition the labels. *)
Theorem split_get_split_roundtrip (g : BaseGraph) (uninit : list Z)
    (tr va te : list bool) :
  split_mask uninit tr va te = Some (bg_mask g) →
  length (bg_y g) = length (bg_mask g) →
  (∀ i a b d, tr !! i = Some a → va !! i = Some b → te !! i = Some d →
     one_split a b d) →
  ∃ y_train y_valid y_test,
    get_split g "train" = Some (bg_edge_index g, bg_edge_attr g, tr, y_train)
    ∧ bool_index (bg_y g) tr = Some y_train
    ∧ get_split g "valid" = Some (bg_edge_index g, bg_edge_attr g, va, y_valid)
    ∧ bool_index (bg_y g) va = Some y_valid
    ∧ get_split g "test" = Some (bg_edge_index g, bg_edge_attr g, te, y_test)
    ∧ bool_index (bg_y g) te = Some y_test
    ∧ (length y_train + length y_valid + length y_test = length (bg_y g))%nat.
Proof.
  intros Hm Hl Hone.
  assert (Hs : is_Some (split_mask uninit tr va te)) by (by eexists).
  apply split_mask_is_Some in Hs as (H1 & H2 & H3).
  rewrite split_mask_spec in Hm by done. injection Hm as Hm.
  assert (Hlen : length (bg_mask g) = length uninit).
  { rewrite <- Hm. by apply length_zip4_with. }
  destruct (zip4_with_proj2 uninit tr va te H1 H2 H3) as (P1 & P2 & P3).
  assert (T0 : (λ v, bool_decide (v = 0%Z)) <$> bg_mask g = tr).
  { rewrite <- Hm. etrans; [|exact P1].
    apply (fmap_zip4_with_split 0 (λ a _ _, a)); try done.
    intros u a b d [(-> & -> & ->)|[(-> & -> & ->)|(-> & -> & ->)]]; done. }
  assert (T1 : (λ v, bool_decide (v = 1%Z)) <$> bg_mask g = va).
  { rewrite <- Hm. etrans; [|exact P2].
    apply (fmap_zip4_with_split 1 (λ _ b _, b)); try done.
    intros u a b d [(-> & -> & ->)|[(-> & -> & ->)|(-> & -> & ->)]]; done. }
  assert (T2 : (λ v, bool_decide (v = 2%Z)) <$> bg_mask g = te).
  { rewrite <- Hm. etrans; [|exact P3].
    apply (fmap_zip4_with_split 2 (λ _ _ d, d)); try done.
    intros u a b d [(-> & -> & ->)|[(-> & -> & ->)|(-> & -> & ->)]]; done. }
  assert (Hall : Forall (λ v, v = 0 ∨ v = 1 ∨ v = 2)%Z (bg_mask g)).
  { rewrite <- Hm. apply Forall_lookup_2. intros i v Hv.
    destruct (lookup_lt_is_Some_2 uninit i) as [u Hu].
    { apply lookup_lt_Some in Hv. rewrite length_zip4_with in Hv; done. }
    destruct (lookup_lt_is_Some_2 tr i) as [a Ha];
      [apply lookup_lt_Some in Hu; lia|].
    destruct (lookup_lt_is_Some_2 va i) as [b Hb];
      [apply lookup_lt_Some in Hu; lia|].
    destruct (lookup_lt_is_Some_2 te i) as [d Hd];
      [apply lookup_lt_Some in Hu; lia|].
    rewrite (lookup_zip4_with _ _ _ _ _ _ _ _ _ _ Hu Ha Hb Hd) in Hv.
    injection Hv as <-.
    destruct (Hone i a b d Ha Hb Hd)
      as [(-> & -> & ->)|[(-> & -> & ->)|(-> & -> & ->)]]; simpl; auto. }
  destruct (selected_partition (bg_y g) (bg_mask g) Hl) as [_ Hsum].
  specialize (Hsum Hall).
  exists (selected (bg_y g) (bg_mask g) 0), (selected (bg_y g) (bg_mask g) 1),
    (selected (bg_y g) (bg_mask g) 2).
  rewrite (get_split_tmask g "train" 0), (get_split_tmask g "valid" 1),
    (get_split_tmask g "test" 2) by done.
  unfold bool_index. rewrite !decide_True by lia.
  unfold selected in *. rewrite T0, T1, T2 in *. done.
Qed.

Section SplitProperties.

Variable random_planetoid_splits :
  Data → Z → Z → Z → option (list bool * list bool * list bool).
Variable percls_trn : Q → nat → Z → option Z.
Variable val_lb : Q → nat → Z.
Variable uninit : nat → Z.

(** X24: [split] raises for a mode other than default, dense and sparse,
    and in default mode when a mask attribute is missing.  A mask it
    returns has one entry per node, as have the three node masks it was
    built from, and its entry for a node is 2 when the test mask selects
    the node, else 1 when the validation mask does, else 0 when the training
    mask does, else whatever [torch.empty] left there. *)
Theorem split_priority (data : Data) (mode : string) (split_id : Z) :
  (mode ≠ "default" → mode ≠ "dense" → mode ≠ "sparse" →
   split random_planetoid_splits percls_trn val_lb uninit data mode split_id
   = None)
  ∧ (mode = "default" →
     data_train_mask data = None ∨ data_val_mask data = None
     ∨ data_test_mask data = None →
     split random_planetoid_splits percls_trn val_lb uninit data mode split_id
     = None)
  ∧ (∀ mask,
       split random_planetoid_splits percls_trn val_lb uninit data mode split_id
       = Some mask →
       ∃ tr va te,
         (mode = "default" →
            ∃ m1 m2 m3,
              data_train_mask data = Some m1 ∧ data_val_mask data = Some m2
              ∧ data_test_mask data = Some m3
              ∧ column_at m1 split_id = Some tr ∧ column_at m2 split_id = Some va
              ∧ column_at m3 split_id = Some te)
         ∧ (mode ≠ "default" →
              ∃ percls lb,
                random_planetoid_splits data (data_num_classes data) percls lb
                = Some (tr, va, te))
         ∧ length tr = length (data_x data)
         ∧ length va = length (data_x data)
         ∧ length te = length (data_x data)
         ∧ length mask = length (data_x data)
         ∧ ∀ i a b d,
             tr !! i = Some a → va !! i = Some b → te !! i = Some d →
             mask !! i = Some (split_of (uninit i) a b d)).
Proof.
  split; [|split].
  - intros H1 H2 H3. unfold split. cbv zeta.
    by rewrite !decide_False by done.
  - intros -> Hmiss. unfold split. cbv zeta. rewrite decide_True by done.
    destruct Hmiss as [Hn | [Hn | Hn]]; rewrite Hn; [done| |].
    + by destruct (data_train_mask data).
    + by destruct (data_train_mask data), (data_val_mask data).
  - intros mask. unfold split. cbv zeta.
    set (u0 := torch_empty uninit (length (data_x data))).
    assert (Hu0 : length u0 = length (data_x data)).
    { unfold u0, torch_empty. by rewrite length_fmap, length_seq. }
    intros Hs.
    match type of Hs with mbind _ ?M = _ => destruct M as [[[tr va] te]|] eqn:Hmasks end;
      [|done].
    cbn [mbind option_bind] in Hs.
    destruct (split_mask_lookup u0 tr va te) as [Hsome Hlook].
    destruct (Hlook mask Hs) as [Hlen Hpt].
    assert (His : is_Some (split_mask u0 tr va te)) by (by eexists).
    apply Hsome in His as (L1 & L2 & L3).
    exists tr, va, te. split; [|split].
    + intros ->. rewrite decide_True in Hmasks by done.
      destruct (data_train_mask data) as [m1|]; [|done].
      destruct (data_val_mask data) as [m2|]; [|done].
      destruct (data_test_mask data) as [m3|]; [|done].
      cbn [mbind option_bind] in Hmasks.
      destruct (column_at m1 split_id) as [c1|] eqn:C1; [|done].
      destruct (column_at m2 split_id) as [c2|] eqn:C2; [|done].
      destruct (column_at m3 split_id) as [c3|] eqn:C3; [|done].
      cbn [mbind option_bind] in Hmasks. injection Hmasks as E1 E2 E3. subst.
      by exists m1, m2, m3.
    + intros Hne. rewrite decide_False in Hmasks by done.
      match type of Hmasks with mbind _ ?U = _ => destruct U as [u|] end; [|done].
      cbn [mbind option_bind] in Hmasks.
      destruct (percls_trn _ _ _) as [p|]; [|done].
      cbn [mbind option_bind] in Hmasks. by eexists _, _.
    + repeat split; try lia. intros i a b d Ha Hb Hd.
      apply Hpt; try done. unfold u0, torch_empty.
      apply lookup_lt_Some in Ha.
      rewrite list_lookup_fmap, lookup_seq_lt by lia. done.
Qed.

End SplitProperties.

(** * Concrete instances *)

(** Closes a decidable closed goal by evaluation. *)
Ltac by_evaluation := apply (bool_decide_unpack _); vm_compute; exact I.

Definition fr (n : Z) (d : positive) : num := Fin (Q2Qc (n # d)).

Definition ex_linear : Linear := {| weight := [[fr 1 1]]; bias := [fr 0 1] |}.

(** A model on two nodes with [C] classes and [K] orders; the matrices of
    strategy 3 are filled with ones. *)
Definition ex_model (C : nat) (a b g : num) (nid : Z) (K : nat) (oid : Z) : MLP_NORM :=
  MLP_NORM_init 2 C ex_linear ex_linear ex_linear (fr 1 2) a b g (fr 1 1) nid 1 K oid
    (replicate C (replicate K (fr 1 1))) (replicate K (replicate K (fr 1 1))).

Definition ex_X : matrix := [[fr 1 1; fr 2 1]; [fr 3 1; fr 4 1]].
Definition ex_H0 : matrix := [[fr 1 1; fr 0 1]; [fr 0 1; fr 1 1]].
Definition ex_A : matrix := [[fr 1 2; fr 1 2]; [fr 1 2; fr 1 2]].

(** [alpha = 1], [beta = 1], [gamma = 1/2], two orders, strategy 1. *)
Definition ex_m1 : MLP_NORM := ex_model 2 (fr 1 1) (fr 1 1) (fr 1 2) 1 2 1.

Lemma norm_func1_spec_witness :
  norm_func1 inverse_exact ex_m1 ex_X ex_H0 ex_A
  = Some [[fr 17 11; fr 19 11]; [fr 27 11; fr 307 77]].
Proof.
  rewrite (norm_func1_spec inverse_exact ex_m1 ex_X ex_H0 ex_A
             [[fr 2 11; fr (-1) 11]; [fr (-1) 11; fr 9 77]]
             [[fr 2 11; fr 37 77]; [fr 4 11; fr 41 77]]).
  - by_evaluation.
  - reflexivity.
  - by_evaluation.
  - by_evaluation.
Defined.

Lemma order_func1_spec_witness :
  order_func1 ex_m1 ex_X ex_H0 ex_A
  = foldl madd ex_H0 [mm ex_A ex_H0; mm (mm ex_A ex_A) ex_H0].
Proof.
  apply (order_func1_spec ex_m1 ex_X ex_H0 ex_A) with (n := 2%nat).
  - lia.
  - split; [reflexivity|by repeat constructor].
  - by repeat constructor.
  - by repeat constructor.
Defined.

Example order_func1_example :
  order_func1 ex_m1 ex_X ex_H0 ex_A = [[fr 2 1; fr 1 1]; [fr 1 1; fr 2 1]].
Proof. by_evaluation. Qed.

(** The same model with no order at all, and with two orders. *)
Definition ex_m_orders0 : MLP_NORM := ex_model 2 (fr 1 1) (fr 1 1) (fr 1 2) 2 0 1.
Definition ex_m_orders2 : MLP_NORM := ex_model 2 (fr 1 1) (fr 1 1) (fr 1 2) 2 2 1.

Lemma ex_model_wf C a b g nid K oid : model_wf (ex_model C a b g nid K oid).
Proof.
  apply MLP_NORM_init_wf. split; [apply length_replicate|].
  apply Forall_replicate, length_replicate.
Qed.

Lemma orders_precondition_witness :
  (order_func2 ex_m_orders0 ex_X ex_H0 ex_A = None
   ∧ order_func3 ex_m_orders0 ex_X ex_H0 ex_A = None
   ∧ order_func1 ex_m_orders0 ex_X ex_H0 ex_A = ex_H0)
  ∧ (is_Some (order_func2 ex_m_orders2 ex_X ex_H0 ex_A)
     ∧ is_Some (order_func3 ex_m_orders2 ex_X ex_H0 ex_A)
     ∧ is_Some (order_func ex_m_orders2 ex_X ex_H0 ex_A)).
Proof.
  split.
  - apply (orders_precondition ex_m_orders0 ex_X ex_H0 ex_A);
      [apply ex_model_wf|done|reflexivity].
  - apply (orders_precondition ex_m_orders2 ex_X ex_H0 ex_A);
      [apply ex_model_wf|done|simpl; lia].
Defined.

(** C5, counterexample: with [orders = 0] and strategy 1 the version
    without the [z] block returns a matrix, and [norm_func2] raises on
    [orders_weight[0]]. *)
Lemma norm_func2_z_block_raises :
  norm_func2_no_z inverse_exact ex_m_orders0 ex_X ex_H0 ex_A
  = Some [[fr 63 88; fr 59 154]; [fr 27 44; fr 823 616]]
  ∧ norm_func2 inverse_exact ex_m_orders0 ex_X ex_H0 ex_A = None
  ∧ norm_func2 inverse_exact ex_m_orders0 ex_X ex_H0 ex_A
    ≠ norm_func2_no_z inverse_exact ex_m_orders0 ex_X ex_H0 ex_A.
Proof. repeat split; by_evaluation. Qed.

Lemma norm_func2_z_dead_witness :
  norm_func2 inverse_exact ex_m_orders2 ex_X ex_H0 ex_A
  = Some [[fr 71 88; fr 85 154]; [fr 31 44; fr 927 616]].
Proof.
  destruct (norm_func2_z_dead inverse_exact ex_m_orders2 ex_X ex_H0 ex_A)
    as [_ Hformula].
  rewrite (Hformula [[fr 2 11; fr (-1) 11]; [fr (-1) 11; fr 9 77]]
             (default [] (order_func ex_m_orders2 ex_X
                (spec_corrected_B (alpha ex_m_orders2) (beta ex_m_orders2)
                   (gamma ex_m_orders2) ex_X (diag_weight ex_m_orders2)
                   [[fr 2 11; fr (-1) 11]; [fr (-1) 11; fr 9 77]]) ex_A))).
  - by_evaluation.
  - reflexivity.
  - by_evaluation.
  - by_evaluation.
  - by_evaluation.
Defined.

(** C4, counterexample: two classes, [alpha = 1], [beta = 0], [gamma = 1]
    (the ridge matrix is [[inf, nan], [nan, inf]]), and one class with
    [alpha = 0] ([coe1 * coe] is [0 * inf]): the step returns NaN entries,
    not [H0]. *)
Definition ex_m_gamma1 : MLP_NORM := ex_model 2 (fr 1 1) (fr 0 1) (fr 1 1) 1 2 1.
Definition ex_m_alpha0 : MLP_NORM := ex_model 1 (fr 0 1) (fr 0 1) (fr 1 1) 1 2 1.
Definition ex_X1 : matrix := [[fr 1 1]; [fr 2 1]].
Definition ex_H1 : matrix := [[fr 3 1]; [fr 4 1]].

Lemma norm_func1_gamma1_nan :
  (beta ex_m_gamma1 = Fin 0 ∧ gamma ex_m_gamma1 = Fin 1
   ∧ spec_ridge (alpha ex_m_gamma1) (beta ex_m_gamma1) (gamma ex_m_gamma1) 2 ex_X
     = [[PInf; NaN]; [NaN; PInf]]
   ∧ norm_func1 inverse_exact ex_m_gamma1 ex_X ex_H0 ex_A
     = Some [[NaN; NaN]; [NaN; NaN]]
   ∧ norm_func1 inverse_exact ex_m_gamma1 ex_X ex_H0 ex_A ≠ Some ex_H0)
  ∧ (beta ex_m_alpha0 = Fin 0 ∧ gamma ex_m_alpha0 = Fin 1
     ∧ norm_func1 inverse_exact ex_m_alpha0 ex_X1 ex_H1 ex_A
       = Some [[NaN]; [NaN]]
     ∧ norm_func1 inverse_exact ex_m_alpha0 ex_X1 ex_H1 ex_A ≠ Some ex_H1).
Proof. repeat split; by_evaluation. Qed.

Lemma norm_func1_gamma1_witness :
  norm_func1 inverse_exact ex_m_gamma1 ex_X ex_H0 ex_A = Some (nans 2 2).
Proof.
  destruct (norm_func1_gamma1 inverse_exact ex_m_gamma1 ex_X ex_H0 ex_A 2)
    as (_ & _ & H).
  - apply ex_model_wf.
  - reflexivity.
  - lia.
  - vm_compute; lia.
  - split; [reflexivity|by repeat constructor].
  - split; [reflexivity|by repeat constructor].
  - split; [reflexivity|by repeat constructor].
  - destruct (H (nans 2 2)) as [Heq _].
    + by_evaluation.
    + apply shape_nans.
    + by exists 0%nat, 0%nat, [NaN; NaN].
    + rewrite Heq. by_evaluation.
Defined.

(** C3, failing input: one node, one feature, [fc1] the identity, [fc3]
    zero, [delta = 1], [p = 1/2]; the first mask drops the feature, the
    second keeps the activation.  The code returns [2], section 4.4 gives
    [0]. *)
Definition ex_m_forward : MLP_NORM :=
  MLP_NORM_init 1 1 ex_linear ex_linear {| weight := [[fr 0 1]]; bias := [fr 0 1] |}
    (fr 1 2) (fr 1 1) (fr 1 1) (fr 1 2) (fr 1 1) 1 1 1 1 [[fr 1 1]] [[fr 1 1]].

Theorem forward_hidden_first_dropout_lost :
  forward_hidden ex_m_forward true [[false]] [[true]] [[fr 1 1]] [[fr 1 1]]
  = [[fr 2 1]]
  ∧ spec_forward_hidden ex_m_forward true [[false]] [[true]] [[fr 1 1]] [[fr 1 1]]
    = [[fr 0 1]].
Proof. split; by_evaluation. Qed.



(** A training run on two parameter tensors whose contents are numbers.
    Validation runs on the training output ([fastmode]), which is the
    epoch index, so [mv] is the sequence of validation metrics; every
    optimizer step adds one to each parameter. *)
Definition ex_trainer (mv : nat → option Qc) (es : Z) : Trainer nat nat :=
  {| live := [("fc1.weight"%string, 0%nat); ("fc1.bias"%string, 1%nat)];
     forward_train := λ epoch _, Some epoch;
     forward_eval := λ _, Some 0%nat;
     metric_train := λ _, Some 0;
     metric_val := mv;
     step_values := λ _ params _, (λ kv : string * nat, S kv.2) <$> params;
     fastmode := true;
     early_stopping := es;
     epochs := 10 |}.

Definition ex_heap : gmap loc nat := <[0%nat := 10%nat]> (<[1%nat := 20%nat]> ∅).

(** The metric improves at epoch 0 and never again; patience 3. *)
Definition ex_plateau : Trainer nat nat :=
  ex_trainer (λ k, Some (if decide (k = 0%nat) then Q2Qc (1 # 2) else Q2Qc (1 # 4))) 3.

(** The loop variables after epoch 0. *)
Definition ex_after_epoch0 : loop_state nat :=
  default (init_state ex_heap) (train_loop ex_plateau [0%nat] (init_state ex_heap)).

Example ex_after_epoch0_value :
  best_metric ex_after_epoch0 = Q2Qc (1 # 2)
  ∧ patience ex_after_epoch0 = 0%Z
  ∧ best_params ex_after_epoch0
    = Some [("fc1.weight"%string, 2%nat); ("fc1.bias"%string, 3%nat)]
  ∧ read (heap ex_after_epoch0) (live ex_plateau)
    = [("fc1.weight"%string, 11%nat); ("fc1.bias"%string, 21%nat)].
Proof. repeat split; by_evaluation. Qed.

Lemma early_stopping_exact_witness :
  ∃ s', train_loop ex_plateau (seq 1 9) ex_after_epoch0 = Some s'
    ∧ epochs_run s' = 4%nat ∧ patience s' = 3%Z.
Proof.
  destruct (early_stopping_exact ex_plateau) as (_ & _ & _ & Hexact).
  destruct (Hexact 3%nat 9%nat 1%nat ex_after_epoch0) as (s' & Hrun & _ & _ & Hhalt & _).
  - reflexivity.
  - lia.
  - by_evaluation.
  - intros k st Hk _. destruct k as [|k]; [lia|].
    eexists _, _. split; [reflexivity|]. by_evaluation.
  - exists s'. split; [exact Hrun|]. destruct Hhalt as [He Hp]; [lia|].
    split; [|exact Hp]. rewrite He. by_evaluation.
Defined.

Example train_plateau :
  (λ s, (epochs_run s, patience s, best_metric s)) <$> train ex_plateau ex_heap
  = Some (4%nat, 3%Z, Q2Qc (1 # 2)).
Proof. by_evaluation. Qed.

(** The snapshot taken at epoch 0 and the loop variables three epochs
    later. *)
Definition ex_snapshot : state_dict :=
  [("fc1.weight"%string, 2%nat); ("fc1.bias"%string, 3%nat)].

Definition ex_after_epoch3 : loop_state nat :=
  default ex_after_epoch0 (train_loop ex_plateau (seq 1 3) ex_after_epoch0).

Lemma snapshot_isolated_witness :
  read (heap ex_after_epoch3) ex_snapshot = read (heap ex_after_epoch0) ex_snapshot
  ∧ read (heap ex_after_epoch3) ex_snapshot
    = [("fc1.weight"%string, 11%nat); ("fc1.bias"%string, 21%nat)]
  ∧ read (heap ex_after_epoch3) (live ex_plateau)
    = [("fc1.weight"%string, 14%nat); ("fc1.bias"%string, 24%nat)].
Proof.
  split; [|split; by_evaluation].
  destruct (snapshot_isolated ex_plateau) as (_ & _ & Hstable).
  apply (Hstable (seq 1 3) ex_after_epoch0 ex_after_epoch3 ex_snapshot).
  - intros l Hl. apply Forall_forall with (x := l) (l := locs (live ex_plateau));
      [by_evaluation|exact Hl].
  - intros l Hl.
    apply (proj1 (Forall_forall
             (λ l, l ∈ dom (heap ex_after_epoch0) ∧ l ∉ locs (live ex_plateau))
             (locs ex_snapshot))); [by_evaluation|exact Hl].
  - vm_compute. reflexivity.
Defined.

(** The validation metric raises at epoch 2. *)
Definition ex_metric_error : Trainer nat nat :=
  ex_trainer (λ k, if decide (k = 2%nat) then None else Some (Q2Qc (1 # 2))) 3.

Definition ex_after_epoch1 : loop_state nat :=
  default (init_state ex_heap)
    (train_loop ex_metric_error [0%nat; 1%nat] (init_state ex_heap)).

Lemma metric_error_breaks_witness :
  train_loop ex_metric_error [2%nat; 3%nat; 4%nat] ex_after_epoch1
  = Some {| heap := write_all (heap ex_after_epoch1) (live ex_metric_error)
                      [13%nat; 23%nat];
            best_metric := best_metric ex_after_epoch1;
            patience := patience ex_after_epoch1;
            best_params := best_params ex_after_epoch1;
            epochs_run := 3 |}.
Proof.
  apply (metric_error_breaks ex_metric_error 2%nat [3%nat; 4%nat] ex_after_epoch1
           (write_all (heap ex_after_epoch1) (live ex_metric_error)
              [13%nat; 23%nat])).
  vm_compute. reflexivity.
Defined.

(** The validation metric raises in every epoch. *)
Definition ex_metric_error0 : Trainer nat nat := ex_trainer (λ _, None) 3.

Lemma first_epoch_metric_error_witness :
  ∃ s, train ex_metric_error0 ex_heap = Some s
    ∧ best_params s = None ∧ load_best ex_metric_error0 s = None.
Proof.
  apply (first_epoch_metric_error ex_metric_error0 ex_heap
           (write_all ex_heap (live ex_metric_error0) [11%nat; 21%nat])).
  - simpl. lia.
  - vm_compute. reflexivity.
Defined.

(** ** Instances of the further properties *)

(** *** The forward pass and the propagation strategies *)

Lemma ex_linear_wf : linear_wf ex_linear 1 1.
Proof. split; [split; [reflexivity|by repeat constructor]|reflexivity]. Qed.

Lemma forward_shape_witness :
  ∃ logits,
    default [] (forward inverse_exact (λ x, x) ex_m_forward true [[false]] [[true]]
                  [[fr 1 1]] [[fr 1 1]])
    = logits
    ∧ shape 1 1 logits.
Proof.
  apply (forward_shape inverse_exact (λ x, x) inverse_exact_shape ex_m_forward
           true [[false]] [[true]] [[fr 1 1]] [[fr 1 1]] _ 1%nat 1%nat 1%nat).
  - apply MLP_NORM_init_wf. split; [reflexivity|by repeat constructor].
  - lia.
  - lia.
  - lia.
  - vm_compute; lia.
  - apply ex_linear_wf.
  - apply ex_linear_wf.
  - split; [split; [reflexivity|by repeat constructor]|reflexivity].
  - split; [reflexivity|by repeat constructor].
  - split; [reflexivity|by repeat constructor].
  - intros _. split; [reflexivity|by repeat constructor].
  - vm_compute. reflexivity.
Defined.

Example forward_example :
  forward inverse_exact (λ x, x) ex_m_forward true [[false]] [[true]]
    [[fr 1 1]] [[fr 1 1]]
  = Some [[fr 2 1]].
Proof. by_evaluation. Qed.

Lemma order_func2_spec_witness :
  order_func2 ex_m_orders2 ex_X ex_H0 ex_A
  = Some (spec_order2 ex_A ex_H0 (orders_weight ex_m_orders2) 2).
Proof.
  apply (order_func2_spec ex_m_orders2 ex_X ex_H0 ex_A); vm_compute; lia.
Defined.

Lemma order_func3_spec_witness :
  order_func3 ex_m_orders2 ex_X ex_H0 ex_A
  = Some (spec_order3 ex_A ex_H0 (orders_para ex_m_orders2 ex_X) 2)
  ∧ shape 2 2 (orders_para ex_m_orders2 ex_X).
Proof.
  apply (order_func3_spec ex_m_orders2 ex_X ex_H0 ex_A).
  - vm_compute; lia.
  - apply (wf_matrix2 _ (ex_model_wf _ _ _ _ _ _ _)).
  - done.
Defined.

Lemma forward_variant2_orders0_witness :
  forward inverse_exact (λ x, x) ex_m_orders0 true [] [] ex_X ex_A = None.
Proof.
  apply forward_variant2_orders0;
    [apply ex_model_wf|reflexivity|by_evaluation|vm_compute; lia].
Defined.

(** *** The graph convolution *)

Definition ex_gc1 : GraphConvolution :=
  {| gc_weight := [[fr 1 1]; [fr 1 1]]; gc_bias := Some [fr 1 2] |}.
Definition ex_gc2 : GraphConvolution :=
  {| gc_weight := [[fr 1 1; fr 2 1]]; gc_bias := None |}.
Definition ex_gcn : GCN := {| gc1 := ex_gc1; gc2 := ex_gc2; gcn_dropout := fr 1 2 |}.

Lemma GCN_forward_identity_adj_witness :
  GCN_forward (λ x, x) ex_gcn false [] ex_X (eye 2)
  = dense ex_gc2 (mrelu (dense ex_gc1 ex_X)).
Proof.
  apply (GCN_forward_identity_adj (λ x, x) ex_gcn [] ex_X 2 2 1 2).
  - lia.
  - lia.
  - split; [reflexivity|by repeat constructor].
  - split; [reflexivity|by repeat constructor].
  - split; [reflexivity|by repeat constructor].
  - intros b [= <-]. split; [reflexivity|by repeat constructor].
  - by repeat constructor.
  - by repeat constructor.
  - by repeat constructor.
Defined.

Example GCN_forward_example :
  GCN_forward (λ x, x) ex_gcn false [] ex_X (eye 2)
  = [[fr 7 2; fr 7 1]; [fr 15 2; fr 15 1]].
Proof. by_evaluation. Qed.

(** *** Metrics and labels *)

Definition ex_logits : matrix := [[fr 1 1; fr 3 1]; [fr 2 1; fr 0 1]; [fr 1 1; fr 1 1]].

Example accuracy_example : accuracy ex_logits [1; 1; 0]%Z = Some (fr 2 3).
Proof. by_evaluation. Qed.

Lemma accuracy_spec_witness :
  ∃ q, accuracy ex_logits [1; 1; 0]%Z = Some (Fin q) ∧ 0 ≤ q ∧ q ≤ 1.
Proof.
  destruct (accuracy_spec ex_logits [1; 1; 0]%Z eq_refl) as (_ & _ & H & _).
  destruct (H ltac:(done) (fr 2 3)) as (q & Hq & H0 & H1 & _); [by_evaluation|].
  exists q. rewrite <- Hq. split; [by_evaluation|done].
Defined.

Lemma labels_roundtrip_witness :
  ∃ M, labels_onehot [2; 0; -1; 1]%Z = Some M
     ∧ labels_tensor (Arr2 M) = Some [2; 0; 2; 1]%Z.
Proof.
  destruct (labels_roundtrip [2; 0; -1; 1]%Z) as [H _].
  destruct (H 3%Z) as (M & H1 & _ & H3 & _); [reflexivity|lia|by_evaluation|].
  exists M. split; [done|]. rewrite H3. reflexivity.
Defined.

Example encode_onehot_example :
  encode_onehot remove_dups [5; 7; 5]%Z = Some [[0; 1]; [1; 0]; [0; 1]]%Z.
Proof. vm_compute. reflexivity. Qed.

Lemma encode_onehot_spec_witness :
  ∃ M, encode_onehot remove_dups [5; 7; 5]%Z = Some M ∧ length M = 3%nat.
Proof.
  destruct (encode_onehot_spec remove_dups [5; 7; 5]%Z) as (M & HM & HF & _).
  - apply NoDup_remove_dups.
  - intros c. apply elem_of_remove_dups.
  - exists M. split; [done|]. by rewrite <- (Forall2_length _ _ _ HF).
Defined.

(** *** The edge list and the node indices *)

(** A file of two edges after its header, with the fields separated by a
    blank. *)
Definition ex_fields (line : string) : list string :=
  if decide (line = "1 2"%string) then ["1"%string; "2"%string]
  else if decide (line = "0 1"%string) then ["0"%string; "1"%string]
  else [line].

Definition ex_int (s : string) : option Z :=
  if decide (s = "0"%string) then Some 0%Z
  else if decide (s = "1"%string) then Some 1%Z
  else if decide (s = "2"%string) then Some 2%Z
  else None.

Definition ex_edge_file : list string :=
  ["node_id node_id"%string; "1 2"%string; "0 1"%string].

Definition ex_graph_dict : gmap Z (list Z) :=
  default ∅ (graph_dict_of ex_fields ex_int ex_edge_file).

Example graph_dict_example :
  graph_dict_ordered ex_graph_dict = [(0, [1]); (1, [0; 2]); (2, [1])]%Z.
Proof. vm_compute. reflexivity. Qed.

Lemma graph_dict_undirected_witness :
  StronglySorted Z.lt (graph_dict_ordered ex_graph_dict).*1
  ∧ Forall (λ kv, StronglySorted Z.le kv.2 ∧ kv.2 ≡ₚ neighbours ex_graph_dict kv.1)
      (graph_dict_ordered ex_graph_dict).
Proof.
  assert (Hd : graph_dict_of ex_fields ex_int ex_edge_file = Some ex_graph_dict).
  { vm_compute. reflexivity. }
  destruct (graph_dict_undirected ex_fields ex_int ex_edge_file ex_graph_dict Hd)
    as (_ & _ & H3 & _ & H5).
  by split.
Defined.

Lemma index_select_np_where_witness :
  index_select [10; 20; 30]%Z (np_where_eq [1; 0; 1]%Z 1) = Some [10; 30]%Z.
Proof.
  destruct (index_select_np_where [10; 20; 30]%Z [1; 0; 1]%Z 1%Z eq_refl) as [H _].
  rewrite H. reflexivity.
Defined.

(** *** The end of a training run *)

Definition ex_final : loop_state nat :=
  default (init_state ex_heap) (train ex_plateau ex_heap).

Lemma ex_final_run : train ex_plateau ex_heap = Some ex_final.
Proof. vm_compute. reflexivity. Qed.

Lemma best_metric_snapshot_witness :
  0 < best_metric ex_final ∧ is_Some (load_best ex_plateau ex_final).
Proof.
  destruct (best_metric_snapshot ex_plateau ex_heap ex_final ex_final_run)
    as [[(H0 & _)|(Hp & Hl & _)] _].
  - exfalso. assert (Hne : best_metric ex_final ≠ 0) by by_evaluation.
    exact (Hne H0).
  - by split.
Defined.

Lemma load_best_restores_witness :
  ∃ h', load_best ex_plateau ex_final = Some h'
    ∧ read h' (live ex_plateau) = read (heap ex_final) ex_snapshot
    ∧ read h' ex_snapshot = read (heap ex_final) ex_snapshot
    ∧ fst <$> ex_snapshot = fst <$> live ex_plateau.
Proof.
  apply (load_best_restores ex_plateau ex_heap ex_final ex_snapshot).
  - intros l Hl. apply Forall_forall with (x := l) (l := locs (live ex_plateau));
      [by_evaluation|exact Hl].
  - by_evaluation.
  - exact ex_final_run.
  - vm_compute. reflexivity.
Defined.

Example load_best_example :
  (λ h', read h' (live ex_plateau)) <$> load_best ex_plateau ex_final
  = Some [("fc1.weight"%string, 11%nat); ("fc1.bias"%string, 21%nat)]
  ∧ read (heap ex_final) (live ex_plateau)
    = [("fc1.weight"%string, 14%nat); ("fc1.bias"%string, 24%nat)].
Proof. split; by_evaluation. Qed.

Lemma train_stops_witness :
  (epochs_run ex_final ≤ epochs ex_plateau)%nat
  ∧ (0 ≤ patience ex_final ≤ Z.of_nat (epochs_run ex_final))%Z
  ∧ (epochs_run ex_final = epochs ex_plateau
     ∨ (early_stopping ex_plateau ≤ patience ex_final)%Z)
  ∧ (Z.of_nat (epochs ex_plateau) `min` early_stopping ex_plateau
     ≤ Z.of_nat (epochs_run ex_final))%Z.
Proof.
  apply (train_stops ex_plateau ex_heap ex_final).
  - intros output. by eexists.
  - exact ex_final_run.
Defined.

(** *** Dataset splits *)

Definition ex_graph : BaseGraph :=
  {| bg_x := [[fr 1 1]; [fr 2 1]; [fr 3 1]; [fr 4 1]];
     bg_edge_index := [[0; 1]; [1; 0]]%Z;
     bg_edge_attr := [fr 1 1; fr 1 1];
     bg_y := [7; 8; 9; 7]%Z;
     bg_num_classes := 3;
     bg_num_nodes := 4;
     bg_mask := [0; 2; 1; 0]%Z |}.

Definition ex_train_mask : list bool := [true; false; false; true].
Definition ex_val_mask : list bool := [false; false; true; false].
Definition ex_test_mask : list bool := [false; true; false; false].

Lemma get_split_partition_witness :
  get_split ex_graph "validation" = None
  ∧ ∃ y_train y_valid y_test,
      snd <$> get_split ex_graph "train" = Some y_train
      ∧ snd <$> get_split ex_graph "valid" = Some y_valid
      ∧ snd <$> get_split ex_graph "test" = Some y_test
      ∧ (length y_train + length y_valid + length y_test = 4)%nat.
Proof.
  destruct (get_split_partition ex_graph eq_refl)
    as [Hn (yt & yv & ye & H1 & H2 & H3 & _ & Hall)].
  split; [by apply Hn|].
  exists yt, yv, ye. rewrite H1, H2, H3. repeat split.
  apply Hall. by_evaluation.
Defined.

Example get_split_example :
  get_split ex_graph "train"
  = Some (bg_edge_index ex_graph, bg_edge_attr ex_graph, ex_train_mask, [7; 7]%Z).
Proof. vm_compute. reflexivity. Qed.

Lemma split_get_split_roundtrip_witness :
  ∃ y_train y_valid y_test,
    get_split ex_graph "train"
    = Some (bg_edge_index ex_graph, bg_edge_attr ex_graph, ex_train_mask, y_train)
    ∧ bool_index (bg_y ex_graph) ex_train_mask = Some y_train
    ∧ get_split ex_graph "valid"
      = Some (bg_edge_index ex_graph, bg_edge_attr ex_graph, ex_val_mask, y_valid)
    ∧ bool_index (bg_y ex_graph) ex_val_mask = Some y_valid
    ∧ get_split ex_graph "test"
      = Some (bg_edge_index ex_graph, bg_edge_attr ex_graph, ex_test_mask, y_test)
    ∧ bool_index (bg_y ex_graph) ex_test_mask = Some y_test
    ∧ (length y_train + length y_valid + length y_test = length (bg_y ex_graph))%nat.
Proof.
  apply (split_get_split_roundtrip ex_graph [5; -1; 64; 3]%Z
           ex_train_mask ex_val_mask ex_test_mask).
  - vm_compute. reflexivity.
  - reflexivity.
  - intros i a b d Ha Hb Hd. unfold one_split.
    destruct i as [|[|[|[|i]]]]; simpl in *; simplify_eq; naive_solver.
Defined.
